(** * multirec: configuration, stream recorder and scheduler

    A shallow embedding of [multirec/config/config.py],
    [multirec/recorder/recorder.py] and [multirec/scheduler/scheduler.py],
    followed by the properties of the three modules. *)

From Stdlib Require Import ZArith QArith Bool Ascii List Lia.
From stdpp Require Import base option list strings pretty.

Open Scope Z_scope.

(** ** config/config.py *)

Module config_module.

(** The pydantic model.  Paths are kept as their text; the float field is
    kept as a rational, of which only the stored value is ever used. *)
Record Config := {
  download_dir : string;
  db_path : string;
  concurrency_limit : Z;
  segment_duration_min : Z;
  retry_max_attempts : Z;
  backoff_base_seconds : Q
}.

(** The keyword arguments given to the [Config] constructor: a field left
    out takes its default. *)
Record ConfigArgs := {
  arg_download_dir : option string;
  arg_db_path : option string;
  arg_concurrency_limit : option Z;
  arg_segment_duration_min : option Z;
  arg_retry_max_attempts : option Z;
  arg_backoff_base_seconds : option Q
}.

Definition no_args : ConfigArgs :=
  {| arg_download_dir := None; arg_db_path := None;
     arg_concurrency_limit := None; arg_segment_duration_min := None;
     arg_retry_max_attempts := None; arg_backoff_base_seconds := None |}.

(** A validator returns its value or raises [ValueError]. *)
Definition validate_concurrency (v : Z) : string + Z :=
  if v <? 1 then inl "concurrency_limit must be at least 1" else inr v.

Definition validate_segment_duration (v : Z) : string + Z :=
  if v <? 1 then inl "segment_duration_min must be at least 1 minute"
  else inr v.

(** A field: the default when the argument is absent (validators do not
    run on defaults), the validator's verdict otherwise. *)
Definition field {A} (arg : option A) (default : A)
    (validator : A -> string + A) : string + A :=
  match arg with
  | None => inr default
  | Some v => validator v
  end.

Definition unchecked {A} (v : A) : string + A := inr v.

Definition errors_of {A} (r : string + A) : list string :=
  match r with inl e => [e] | inr _ => [] end.

(** The [Config] constructor: the model, or the validation error carrying
    the message of every field that failed. [home] is [Path.home()]. *)
Definition Config_new (home : string) (a : ConfigArgs) : list string + Config :=
  let dd := field (arg_download_dir a) (home +:+ "/multirec_downloads") unchecked in
  let db := field (arg_db_path a) (home +:+ "/.multirec.db") unchecked in
  let cl := field (arg_concurrency_limit a) 4 validate_concurrency in
  let sd := field (arg_segment_duration_min a) 30 validate_segment_duration in
  let rm := field (arg_retry_max_attempts a) 5 unchecked in
  let bb := field (arg_backoff_base_seconds a) (5 # 1)%Q unchecked in
  match dd, db, cl, sd, rm, bb with
  | inr dd, inr db, inr cl, inr sd, inr rm, inr bb =>
      inr {| download_dir := dd; db_path := db; concurrency_limit := cl;
             segment_duration_min := sd; retry_max_attempts := rm;
             backoff_base_seconds := bb |}
  | _, _, _, _, _, _ =>
      inl (errors_of dd ++ errors_of db ++ errors_of cl ++ errors_of sd
           ++ errors_of rm ++ errors_of bb)
  end.

End config_module.

(** ** recorder/recorder.py *)

Module recorder_module.

(** *** Text

    A decoded line is a [string] whose characters stand for the code points
    below 256. *)

Definition in_range (lo hi : N) (c : ascii) : bool :=
  let n := N_of_ascii c in (lo <=? n)%N && (n <=? hi)%N.

(** [str.isspace], which is also the class [\s] of [re] on text. *)
Definition isspace (c : ascii) : bool :=
  in_range 9 13 c || in_range 28 32 c
  || (N_of_ascii c =? 133)%N || (N_of_ascii c =? 160)%N.

(** The class [0-9]. *)
Definition isdigit (c : ascii) : bool := in_range 48 57 c.

Fixpoint lstrip (s : string) : string :=
  match s with
  | String c s' => if isspace c then lstrip s' else s
  | EmptyString => s
  end.

Fixpoint rev_string (s acc : string) : string :=
  match s with
  | String c s' => rev_string s' (String c acc)
  | EmptyString => acc
  end.

(** [str.strip()] *)
Definition strip (s : string) : string :=
  rev_string (lstrip (rev_string (lstrip s) "")) "".

Fixpoint take_string (n : nat) (s : string) : string :=
  match n, s with
  | S n', String c s' => String c (take_string n' s')
  | _, _ => ""
  end.

(** *** Regular expressions, with the backtracking order of [re] *)

Inductive regex :=
| Eps
| Chr (p : ascii -> bool)
| Seq (r1 r2 : regex)
| Opt (r : regex)
| Star (greedy : bool) (r : regex)
| Group (name : string) (r : regex).

Definition is_char (a c : ascii) : bool := Ascii.eqb c a.

Definition Plus (greedy : bool) (r : regex) : regex := Seq r (Star greedy r).

Fixpoint Lit (s : string) : regex :=
  match s with
  | String c s' => Seq (Chr (is_char c)) (Lit s')
  | EmptyString => Eps
  end.

Definition groups := list (string * string).

(** [rmatch r s g k]: match [r] at the front of [s] and hand the rest to
    [k]; alternatives are tried in the order a backtracking matcher tries
    them, and the first that lets [k] succeed wins. *)
Fixpoint rmatch (r : regex) (s : string) (g : groups)
    (k : string -> groups -> option groups) {struct r} : option groups :=
  match r with
  | Eps => k s g
  | Chr p =>
      match s with
      | String c s' => if p c then k s' g else None
      | EmptyString => None
      end
  | Seq r1 r2 => rmatch r1 s g (fun s' g' => rmatch r2 s' g' k)
  | Opt r1 =>
      match rmatch r1 s g k with
      | Some m => Some m
      | None => k s g
      end
  | Star greedy r1 =>
      (fix loop (fuel : nat) (s : string) (g : groups) {struct fuel}
         : option groups :=
         match fuel with
         | O => k s g
         | S fuel' =>
             let again s' g' :=
               if (String.length s' <? String.length s)%nat
               then loop fuel' s' g' else None in
             if greedy then
               match rmatch r1 s g again with
               | Some m => Some m
               | None => k s g
               end
             else
               match k s g with
               | Some m => Some m
               | None => rmatch r1 s g again
               end
         end) (String.length s) s g
  | Group name r1 =>
      rmatch r1 s g (fun s' g' =>
        k s' ((name, take_string (String.length s - String.length s') s) :: g'))
  end.

(** [pattern.search(text)]: the first offset at which the pattern matches. *)
Fixpoint search (r : regex) (s : string) : option groups :=
  match rmatch r s [] (fun _ g => Some g) with
  | Some g => Some g
  | None =>
      match s with
      | String _ s' => search r s'
      | EmptyString => None
      end
  end.

(** [m.group(name)] *)
Fixpoint group (g : groups) (name : string) : string :=
  match g with
  | (n, v) :: g' => if String.eqb n name then v else group g' name
  | [] => ""
  end.

Definition digit_or_dot (c : ascii) : bool :=
  isdigit c || is_char "."%char c.
Definition digit_colon_dot (c : ascii) : bool :=
  isdigit c || is_char ":"%char c || is_char "."%char c.
Definition kmg (c : ascii) : bool :=
  is_char "K"%char c || is_char "M"%char c || is_char "G"%char c.
Definition not_newline (c : ascii) : bool := negb (N_of_ascii c =? 10)%N.

Definition Concat (rs : list regex) : regex := foldr Seq Eps rs.

Definition progress_re : regex :=
  Concat [
    Lit "[download]";
    Plus true (Chr isspace);
    Group "pct" (Plus true (Chr digit_or_dot));
    Lit "%";
    Star false (Chr not_newline);
    Lit "of";
    Plus true (Chr isspace);
    Opt (Chr (is_char "~"%char));
    Group "size" (Plus true (Chr digit_or_dot));
    Group "unit" (Seq (Chr kmg) (Lit "iB"));
    Star false (Chr not_newline);
    Lit "ETA";
    Plus true (Chr isspace);
    Group "eta" (Plus true (Chr digit_colon_dot))
  ].

(** *** Numbers in progress lines *)

Fixpoint count_dots (s : string) : nat :=
  match s with
  | String c s' => (if is_char "."%char c then 1 else 0) + count_dots s'
  | EmptyString => 0
  end%nat.

Fixpoint count_digits (s : string) : nat :=
  match s with
  | String c s' => (if isdigit c then 1 else 0) + count_digits s'
  | EmptyString => 0
  end%nat.

(** The digits of [s] read as one decimal numeral, the dot skipped. *)
Fixpoint digits_value (s : string) (acc : Z) : Z :=
  match s with
  | String c s' =>
      if isdigit c
      then digits_value s' (10 * acc + (Z.of_N (N_of_ascii c) - 48))
      else digits_value s' acc
  | EmptyString => acc
  end.

(** How many digits follow the first dot. *)
Fixpoint fraction_digits (s : string) : nat :=
  match s with
  | String c s' =>
      if is_char "."%char c then count_digits s' else fraction_digits s'
  | EmptyString => 0%nat
  end.

(** [float(s)] for a text [s] of digits and dots, which is all the group
    [size] can hold: such a text is a number when it has a digit and at
    most one dot, and [float] raises [ValueError] on any other.  The
    number is kept as the rational the text denotes. *)
Definition float (s : string) : string + Q :=
  if (1 <=? count_digits s)%nat && (count_dots s <=? 1)%nat
  then inr (digits_value s 0 # Pos.of_nat (10 ^ fraction_digits s))%Q
  else inl ("could not convert string to float: '" +:+ s +:+ "'").

(** The table of unit factors, looked up with default 1. *)
Definition factor (unit : string) : Q :=
  if String.eqb unit "KiB" then (1 # 1024)%Q
  else if String.eqb unit "MiB" then (1 # 1)%Q
  else if String.eqb unit "GiB" then (1024 # 1)%Q
  else (1 # 1)%Q.

(** *** Results and recorders *)

(** A [datetime], through the two renderings the recorder uses: the
    format [%Y%m%dT%H%M%S] and [isoformat()]. *)
Record datetime := { compact : string; isoformat : string }.

Record RecordingResult := {
  success : bool;
  file_path : option string;
  metadata_path : option string;
  error : option string;
  start_time : datetime;
  end_time : option datetime
}.

(** A callback returns ([None]) or raises an exception with a message. *)
Definition callback := string -> option string.

Record StreamRecorder := {
  channel_url : string;
  output_dir : string;
  segment_duration : Z;
  quality : string;
  on_update : option callback;
  _cancel_event : bool;
  crf : Z
}.

(** [StreamRecorder.__init__] *)
Definition StreamRecorder_new (channel_url output_dir : string)
    (segment_duration : Z) (quality : string) (on_update : option callback)
    (crf : Z) : StreamRecorder :=
  {| channel_url := channel_url; output_dir := output_dir;
     segment_duration := segment_duration; quality := quality;
     on_update := on_update; _cancel_event := false; crf := crf |}.

(** [StreamRecorder.cancel]: the event is set. *)
Definition cancel (r : StreamRecorder) : StreamRecorder :=
  {| channel_url := channel_url r; output_dir := output_dir r;
     segment_duration := segment_duration r; quality := quality r;
     on_update := on_update r; _cancel_event := true; crf := crf r |}.

(** *** The world around one call of [record] *)

(** What one [await process.stdout.readline()] meets. [Line] carries the
    decoded text of a non-empty line, [Eof] is the empty read, [ReadError]
    an exception of the read.  [LineAtExit] and [ReadErrorAtExit] are the
    same, met when yt-dlp has exited and its pipes are closed, while
    output is still buffered: the transport has let go of the process, and
    from then on [process.terminate()] raises [ProcessLookupError].
    [ReadCancelled]: the task that runs the coroutine is cancelled while
    it is suspended in the read, which raises [CancelledError] there. *)
Inductive read :=
| Line (text : string)
| Eof
| ReadError (msg : string)
| LineAtExit (text : string)
| ReadErrorAtExit (msg : string)
| ReadCancelled.

(** What becomes of a child process: it cannot be spawned, it exits, or
    the task is cancelled while [communicate()] waits for it. *)
Inductive child :=
| SpawnError (msg : string)
| Exit (rc : Z)
| CommunicateCancelled.

(** [stdout] lists the reads in order, each with whether [cancel()] is
    called on the recorder while the coroutine is suspended in that read;
    once the list is used up the process has closed its output.
    [ytdlp_rc] is what the wait after the end of the output returns (a
    task cancelled in that wait ends as one cancelled in the last read).
    [cancelled_in_wait]: the task is cancelled while the coroutine waits
    for the exit of a process it has terminated. *)
Record world := {
  utcnow_start : datetime;
  mkdtemp : string;
  cancel_at_spawn : bool;
  ytdlp_spawn : option string;
  stdout : list (bool * read);
  ytdlp_rc : Z;
  cancelled_in_wait : bool;
  remux : child;
  transcode : child;
  metadata_written : bool;
  utcnow_end : datetime
}.

(** What [record] does to the outside, in order. A call is listed when it
    is made, save three that have done nothing: a [terminate()] that
    raises, and a wait or a [communicate()] in which the task is
    cancelled. *)
Inductive effect :=
| Spawn (argv : list string)
| Terminate
| Wait
| Update (msg : string)
| Communicate
| WriteMetadata (path : string)
| Rmtree (dir : string).

(** A coroutine returns a value or raises. *)
Inductive outcome :=
| Returned (r : RecordingResult)
| Raised (msg : string).

Definition failure (e : string) (start : datetime) : RecordingResult :=
  {| success := false; file_path := None; metadata_path := None;
     error := Some e; start_time := start; end_time := None |}.

Section record.

(** The text of a float under the format [.1f]; floating point itself is
    not modelled. *)
Variable format_1f : Q -> string.

(** The body of the loop after the read: the effects, and the message
    of the exception if one is raised. *)
Definition handle_line (cb : option callback) (text : string)
    : list effect * option string :=
  match cb with
  | Some f =>
      if negb (String.eqb text "") then
        match search progress_re text with
        | Some m =>
            match float (group m "size") with
            | inl e => ([], Some e)
            | inr size =>
                let unit := group m "unit" in
                let mb := (size * factor unit)%Q in
                let msg := "eta=" +:+ group m "eta" +:+ " total="
                           +:+ format_1f mb +:+ "MB pct="
                           +:+ group m "pct" +:+ "%" in
                ([Update msg], f msg)
            end
        | None => ([Update text], f text)
        end
      else ([], None)
  | None => ([], None)
  end.

(** How the loop is left. [Cancelled]: in the branch of the cancel
    event, [terminate()] has returned. [LoopRaised]: an exception that
    [except Exception] catches, with its text and whether yt-dlp is gone
    by then. [LoopCancelledError]: a [CancelledError], which it does not
    catch. *)
Inductive loop_exit :=
| Cancelled
| Break
| LoopRaised (msg : string) (gone : bool)
| LoopCancelledError.

(** Whether a read finds yt-dlp gone. *)
Definition at_exit (rd : read) : bool :=
  match rd with
  | LineAtExit _ | ReadErrorAtExit _ => true
  | _ => false
  end.

(** The [while True] loop over the output of yt-dlp. [cancelled] is the
    state of the event when the iteration starts, [gone] whether yt-dlp
    has exited and closed its pipes by then; [terminate()] then raises
    [ProcessLookupError], whose text is empty. *)
Fixpoint read_loop_from (cb : option callback) (cancelled gone : bool)
    (reads : list (bool * read)) : loop_exit * list effect :=
  if cancelled then
    if gone then (LoopRaised "" true, []) else (Cancelled, [Terminate])
  else
    match reads with
    | [] => (Break, [])
    | (arrives, rd) :: rest =>
        let gone := gone || at_exit rd in
        match rd with
        | Eof => (Break, [])
        | ReadCancelled => (LoopCancelledError, [])
        | ReadError e | ReadErrorAtExit e => (LoopRaised e gone, [])
        | Line raw | LineAtExit raw =>
            match handle_line cb (strip raw) with
            | (effs, Some e) => (LoopRaised e gone, effs)
            | (effs, None) =>
                let '(x, effs') :=
                  read_loop_from cb (cancelled || arrives) gone rest in
                (x, effs ++ effs')
            end
        end
    end.

(** The loop as [record] enters it: yt-dlp has just been spawned. *)
Definition read_loop (cb : option callback) (cancelled : bool)
    (reads : list (bool * read)) : loop_exit * list effect :=
  read_loop_from cb cancelled false reads.

Definition join (dir name : string) : string := dir +:+ "/" +:+ name.

Definition yt_cmd (r : StreamRecorder) (temp_file : string) : list string :=
  ["yt-dlp"; channel_url r; "-N"; "8"; "-f"; quality r; "--downloader";
   "ffmpeg"; "--hls-use-mpegts"; "-o"; temp_file].

Definition ff_cmd (temp_file output_file : string) : list string :=
  ["ffmpeg"; "-y"; "-i"; temp_file; "-c"; "copy"; "-movflags";
   "+faststart"; output_file].

Definition trans_cmd (r : StreamRecorder) (temp_file output_file : string)
    : list string :=
  ["ffmpeg"; "-y"; "-i"; temp_file; "-c:v"; "libx264"; "-crf";
   pretty (crf r); "-c:a"; "aac"; "-movflags"; "+faststart"; output_file].

(** The end of [record], once the output file is in place. *)
Definition finish (w : world) (temp_dir output_file metadata_path : string)
    : outcome * list effect :=
  (Returned
     {| success := true; file_path := Some output_file;
        metadata_path :=
          if metadata_written w then Some metadata_path else None;
        error := None; start_time := utcnow_start w;
        end_time := Some (utcnow_end w) |},
   [WriteMetadata metadata_path; Rmtree temp_dir]).

(** The remux and, should it fail, the transcode. *)
Definition normalise (r : StreamRecorder) (w : world)
    (temp_dir temp_file output_file metadata_path : string)
    : outcome * list effect :=
  match remux w with
  | SpawnError e => (Raised e, [])
  | CommunicateCancelled =>
      (Raised "CancelledError", [Spawn (ff_cmd temp_file output_file)])
  | Exit rc2 =>
      let effs := [Spawn (ff_cmd temp_file output_file); Communicate] in
      if negb (rc2 =? 0) then
        match transcode w with
        | SpawnError e => (Raised e, effs)
        | CommunicateCancelled =>
            (Raised "CancelledError",
             effs ++ [Spawn (trans_cmd r temp_file output_file)])
        | Exit rc3 =>
            let effs :=
              effs ++ [Spawn (trans_cmd r temp_file output_file);
                       Communicate] in
            if negb (rc3 =? 0) then
              (Returned
                 (failure ("ffmpeg transcode exited with " +:+ pretty rc3)
                    (utcnow_start w)),
               effs ++ [Rmtree temp_dir])
            else
              let '(o, effs') :=
                finish w temp_dir output_file metadata_path in
              (o, effs ++ effs')
        end
      else
        let '(o, effs') := finish w temp_dir output_file metadata_path in
        (o, effs ++ effs')
  end.

(** [StreamRecorder.record]. In the handler [terminate()] raises again
    when yt-dlp is gone, and that exception leaves [record]. *)
Definition record (r : StreamRecorder) (w : world) : outcome * list effect :=
  let start := utcnow_start w in
  let temp_dir := mkdtemp w in
  let temp_file := join temp_dir "download.ts" in
  let output_file := join (output_dir r) (compact start +:+ ".mp4") in
  let metadata_path := join (output_dir r) (compact start +:+ ".json") in
  match ytdlp_spawn w with
  | Some e => (Raised e, [])
  | None =>
      let effs := [Spawn (yt_cmd r temp_file)] in
      match read_loop (on_update r) (_cancel_event r || cancel_at_spawn w)
              (stdout w) with
      | (Cancelled, effs') =>
          if cancelled_in_wait w then
            (Raised "CancelledError", effs ++ effs')
          else
            (Returned (failure "Cancelled" start), effs ++ effs' ++ [Wait])
      | (LoopCancelledError, effs') =>
          (Raised "CancelledError", effs ++ effs')
      | (LoopRaised e gone, effs') =>
          if gone then (Raised "ProcessLookupError", effs ++ effs')
          else if cancelled_in_wait w then
            (Raised "CancelledError", effs ++ effs' ++ [Terminate])
          else
            (Returned (failure e start), effs ++ effs' ++ [Terminate; Wait])
      | (Break, effs') =>
          let effs := effs ++ effs' ++ [Wait] in
          if negb (ytdlp_rc w =? 0) then
            (Returned
               (failure ("yt-dlp exited with " +:+ pretty (ytdlp_rc w))
                  start),
             effs)
          else
            let '(o, effs') :=
              normalise r w temp_dir temp_file output_file metadata_path in
            (o, effs ++ effs')
      end
  end.

End record.

End recorder_module.

(** ** scheduler/scheduler.py *)

Module scheduler_module.

Import config_module recorder_module.

(** Objects live in stores and are named by their index: [heap] holds the
    [RecordingTask] objects, [tasks] the asyncio tasks made by
    [asyncio.create_task]. *)
Record RecordingTask := {
  url : string;
  quality : string;
  recorder : option StreamRecorder;
  future : option nat;
  result : option RecordingResult
}.

Definition set_recorder (r : option StreamRecorder) (t : RecordingTask)
    : RecordingTask :=
  {| url := url t; quality := quality t; recorder := r;
     future := future t; result := result t |}.

Definition set_result (r : option RecordingResult) (t : RecordingTask)
    : RecordingTask :=
  {| url := url t; quality := quality t; recorder := recorder t;
     future := future t; result := r |}.

(** An asyncio task wrapping [_run_recorder(task)]: pending (with the
    [RecordingTask] it was created for, whether its coroutine has begun
    and whether [cancel()] was called on it), or done in one of three
    ways. *)
Inductive task_state :=
| Pending (ref : nat) (started cancel_requested : bool)
| Finished (r : RecordingResult)
| Failed (msg : string)
| TaskCancelled.

(** [Task.done()] *)
Definition done (t : task_state) : bool :=
  match t with
  | Pending _ _ _ => false
  | _ => true
  end.

(** [Task.cancel()]: a request on a pending task, nothing on a done one. *)
Definition task_cancel (t : task_state) : task_state :=
  match t with
  | Pending ref started _ => Pending ref started true
  | _ => t
  end.

(** [Task.result()]: the value, or the exception it raises. *)
Definition task_result (t : task_state) : string + RecordingResult :=
  match t with
  | Finished r => inr r
  | Failed msg => inl msg
  | TaskCancelled => inl "CancelledError"
  | Pending _ _ _ => inl "InvalidStateError"
  end.

(** Where the worker loop is suspended. *)
Inductive worker_state :=
| NotStarted
| AwaitWait
| AwaitGet
| AwaitGather
| Exited
| Crashed (msg : string).

(** What the worker loop does, in order. *)
Inductive action :=
| ActWait
| ActQueueGet (timeout : Q)
| ActCreateTask (fut ref : nat)
| ActRecorderCancel (ref : nat)
| ActFutCancel (fut : nat)
| ActGather.

(** The dict [running], in insertion order: task to [RecordingTask]. *)
Abbreviation dict := (list (nat * nat)).

Definition dict_get (k : nat) (d : dict) : option nat :=
  snd <$> find (fun e => Nat.eqb (fst e) k) d.

Definition dict_pop (k : nat) (d : dict) : dict :=
  filter (fun e => fst e ≠ k) d.

Definition dict_set (k v : nat) (d : dict) : dict :=
  match dict_get k d with
  | Some _ => map (fun e => if Nat.eqb (fst e) k then (k, v) else e) d
  | None => d ++ [(k, v)]
  end.

Record Scheduler := {
  config : Config;
  download_dir : string;
  queue : list nat;
  running : dict;
  _cancelled : bool;
  heap : list RecordingTask;
  tasks : list task_state;
  worker : worker_state;
  log : list action
}.

(** [Scheduler.__init__] *)
Definition Scheduler_new (config : Config) (download_dir : string)
    : Scheduler :=
  {| config := config; download_dir := download_dir; queue := [];
     running := []; _cancelled := false; heap := []; tasks := [];
     worker := NotStarted; log := [] |}.

Definition with_queue (q : list nat) (s : Scheduler) : Scheduler :=
  {| config := config s; download_dir := download_dir s; queue := q;
     running := running s; _cancelled := _cancelled s; heap := heap s;
     tasks := tasks s; worker := worker s; log := log s |}.

Definition with_running (d : dict) (s : Scheduler) : Scheduler :=
  {| config := config s; download_dir := download_dir s; queue := queue s;
     running := d; _cancelled := _cancelled s; heap := heap s;
     tasks := tasks s; worker := worker s; log := log s |}.

Definition with_cancelled (b : bool) (s : Scheduler) : Scheduler :=
  {| config := config s; download_dir := download_dir s; queue := queue s;
     running := running s; _cancelled := b; heap := heap s;
     tasks := tasks s; worker := worker s; log := log s |}.

Definition with_heap (h : list RecordingTask) (s : Scheduler) : Scheduler :=
  {| config := config s; download_dir := download_dir s; queue := queue s;
     running := running s; _cancelled := _cancelled s; heap := h;
     tasks := tasks s; worker := worker s; log := log s |}.

Definition with_tasks (t : list task_state) (s : Scheduler) : Scheduler :=
  {| config := config s; download_dir := download_dir s; queue := queue s;
     running := running s; _cancelled := _cancelled s; heap := heap s;
     tasks := t; worker := worker s; log := log s |}.

Definition with_worker (w : worker_state) (s : Scheduler) : Scheduler :=
  {| config := config s; download_dir := download_dir s; queue := queue s;
     running := running s; _cancelled := _cancelled s; heap := heap s;
     tasks := tasks s; worker := w; log := log s |}.

Definition add_log (a : list action) (s : Scheduler) : Scheduler :=
  {| config := config s; download_dir := download_dir s; queue := queue s;
     running := running s; _cancelled := _cancelled s; heap := heap s;
     tasks := tasks s; worker := worker s; log := log s ++ a |}.

(** [add_recording]: a fresh [RecordingTask] is put on the queue, which
    has no bound, so the put never waits. *)
Definition add_recording (url quality : string) (s : Scheduler) : Scheduler :=
  let task := {| url := url; quality := quality; recorder := None;
                 future := None; result := None |} in
  with_queue (queue s ++ [length (heap s)]) (with_heap (heap s ++ [task]) s).

(** [shutdown] *)
Definition shutdown (s : Scheduler) : Scheduler := with_cancelled true s.

(** The timeout of [asyncio.wait_for(self.queue.get(), timeout=0.5)]. *)
Definition queue_get_timeout : Q := (1 # 2)%Q.

(** The inner [while]: with the limit reached the loop waits for a task
    to complete, below the limit it goes on to wait for the queue.
    [asyncio.wait] raises on an empty set. *)
Definition gate (s : Scheduler) : Scheduler :=
  if concurrency_limit (config s) <=? Z.of_nat (length (running s)) then
    match running s with
    | [] => with_worker (Crashed "Set of Tasks/Futures is empty.") s
    | _ :: _ => with_worker AwaitWait (add_log [ActWait] s)
    end
  else with_worker AwaitGet (add_log [ActQueueGet queue_get_timeout] s).

(** The body of the loop over [running] on shutdown. *)
Definition cancel_entry (s : Scheduler) (e : nat * nat) : Scheduler :=
  let '(fut, ref) := e in
  let s1 :=
    match heap s !! ref with
    | Some t =>
        match recorder t with
        | Some r =>
            with_heap (<[ref := set_recorder (Some (cancel r)) t]> (heap s))
              (add_log [ActRecorderCancel ref] s)
        | None => s
        end
    | None => s
    end in
  with_tasks (alter task_cancel fut (tasks s1)) (add_log [ActFutCancel fut] s1).

Definition is_done (s : Scheduler) (fut : nat) : bool :=
  from_option done false (tasks s !! fut).

Definition all_done (s : Scheduler) : bool :=
  forallb (fun e => is_done s (fst e)) (running s).

(** After the outer [while]: every running task is cancelled and the loop
    waits for them all; [gather] of nothing is complete at once. *)
Definition shutdown_block (s : Scheduler) : Scheduler :=
  let s1 := add_log [ActGather] (foldl cancel_entry s (running s)) in
  match running s with
  | [] => with_worker Exited s1
  | _ :: _ => with_worker AwaitGather s1
  end.

(** The test of the outer [while]. *)
Definition loop_top (s : Scheduler) : Scheduler :=
  if _cancelled s then shutdown_block s else gate s.

(** [for d in done]: pop the entry, store the result; [d.result()] raises
    for a task that raised. *)
Fixpoint reap (ds : list nat) (s : Scheduler) : Scheduler :=
  match ds with
  | [] => s
  | d :: ds' =>
      match dict_get d (running s), tasks s !! d with
      | Some ref, Some t =>
          let s1 := with_running (dict_pop d (running s)) s in
          match task_result t with
          | inr r =>
              reap ds' (with_heap (alter (set_result (Some r)) ref (heap s1)) s1)
          | inl msg => with_worker (Crashed msg) s1
          end
      | _, _ => with_worker (Crashed "KeyError") s
      end
  end.

(** The tasks [asyncio.wait] reports as done. They come as a set, which
    the loop walks in no fixed order; here they are walked in the order
    of [running]. *)
Definition done_set (s : Scheduler) : list nat :=
  fst <$> filter (fun e => is_done s (fst e) = true) (running s).

(** The coroutine [_run_recorder] up to its first suspension. *)
Definition run_recorder_begin (ref : nat) (s : Scheduler) : Scheduler :=
  match heap s !! ref with
  | Some t =>
      let r := StreamRecorder_new (url t) (download_dir s)
                 (segment_duration_min (config s)) (quality t) None 23 in
      with_heap (<[ref := set_recorder (Some r) t]> (heap s)) s
  | None => s
  end.

(** What can happen next: callers of the three public coroutines, the
    worker loop resuming from its await, and the recording tasks. *)
Inductive event :=
| EvAdd (url quality : string)
| EvStart
| EvShutdown
| EvWorker
| EvTaskStart (fut : nat)
| EvTaskEnd (fut : nat) (o : outcome)
| EvTaskCancelled (fut : nat).

(** The launch of the next task, up to the test of the outer [while]. *)
Definition launch (next_task : nat) (s : Scheduler) : Scheduler :=
  let fut := length (tasks s) in
  with_running (dict_set fut next_task (running s))
    (with_tasks (tasks s ++ [Pending next_task false false])
       (add_log [ActCreateTask fut next_task] s)).

(** The worker loop resumes from its await. *)
Definition resume (s : Scheduler) : option Scheduler :=
  match worker s with
  | AwaitWait =>
      match done_set s with
      | [] => None
      | ds =>
          let s1 := reap ds s in
          match worker s1 with
          | Crashed _ => Some s1
          | _ => Some (gate s1)
          end
      end
  | AwaitGet =>
      match queue s with
      | next_task :: q => Some (loop_top (launch next_task (with_queue q s)))
      | [] => Some (loop_top s)
      end
  | AwaitGather => if all_done s then Some (with_worker Exited s) else None
  | NotStarted | Exited | Crashed _ => None
  end.

Definition step (s : Scheduler) (e : event) : option Scheduler :=
  match e with
  | EvAdd url quality => Some (add_recording url quality s)
  | EvStart =>
      match worker s with
      | NotStarted | Exited | Crashed _ =>
          Some (loop_top (with_cancelled false s))
      | _ => None
      end
  | EvShutdown => Some (shutdown s)
  | EvWorker => resume s
  | EvTaskStart fut =>
      match tasks s !! fut with
      | Some (Pending ref false false) =>
          Some (with_tasks (<[fut := Pending ref true false]> (tasks s))
                  (run_recorder_begin ref s))
      | _ => None
      end
  | EvTaskEnd fut o =>
      match tasks s !! fut with
      | Some (Pending ref true false) =>
          Some (with_tasks
                  (<[fut := match o with
                            | Returned r => Finished r
                            | Raised msg => Failed msg
                            end]> (tasks s)) s)
      | _ => None
      end
  | EvTaskCancelled fut =>
      match tasks s !! fut with
      | Some (Pending ref _ true) =>
          Some (with_tasks (<[fut := TaskCancelled]> (tasks s)) s)
      | _ => None
      end
  end.

Fixpoint run (s : Scheduler) (es : list event) : option Scheduler :=
  match es with
  | [] => Some s
  | e :: es' =>
      match step s e with
      | Some s' => run s' es'
      | None => None
      end
  end.

End scheduler_module.

Import config_module recorder_module scheduler_module.

(** * The vocabulary of the properties *)

(** ** Configuration *)

(** An argument that is absent or at least 1. *)
Definition at_least_one (arg : option Z) : Prop :=
  from_option (fun v => 1 <= v) True arg.

Definition args_limit_2 : ConfigArgs :=
  {| arg_download_dir := Some "/rec"; arg_db_path := None;
     arg_concurrency_limit := Some 2; arg_segment_duration_min := None;
     arg_retry_max_attempts := Some 3;
     arg_backoff_base_seconds := Some (2 # 1)%Q |}.

Definition config_limit_2 : Config :=
  {| config_module.download_dir := "/rec"; db_path := "/home/u/.multirec.db";
     concurrency_limit := 2; segment_duration_min := 30;
     retry_max_attempts := 3; backoff_base_seconds := (2 # 1)%Q |}.

Definition config_limit_1 : Config :=
  {| config_module.download_dir := "/rec"; db_path := "/home/u/.multirec.db";
     concurrency_limit := 1; segment_duration_min := 30;
     retry_max_attempts := 3; backoff_base_seconds := (2 # 1)%Q |}.

(** The same configuration with another retry count and backoff base. *)
Definition retuned (m : Z) (b : Q) (c : Config) : Config :=
  {| config_module.download_dir := config_module.download_dir c;
     db_path := db_path c;
     concurrency_limit := concurrency_limit c;
     segment_duration_min := segment_duration_min c;
     retry_max_attempts := m; backoff_base_seconds := b |}.

(** ** The recorder *)



(** An effect that is a call of the progress callback. *)
Definition is_update (e : effect) : Prop :=
  match e with
  | Update _ => True
  | _ => False
  end.

(** The paths of one call. *)
Definition temp_file_of (w : world) : string := join (mkdtemp w) "download.ts".
Definition output_file_of (r : StreamRecorder) (w : world) : string :=
  join (output_dir r) (compact (utcnow_start w) +:+ ".mp4").

Definition stamp_start : datetime :=
  {| compact := "20240101T120000"; isoformat := "2024-01-01T12:00:00" |}.
Definition stamp_end : datetime :=
  {| compact := "20240101T130000"; isoformat := "2024-01-01T13:00:00" |}.

(** A recorder as the scheduler builds it, and one with a callback that
    never raises. *)
Definition quiet_recorder : StreamRecorder :=
  StreamRecorder_new "https://example.com/live" "/rec" 30 "best" None 23.
Definition talking_recorder : StreamRecorder :=
  StreamRecorder_new "https://example.com/live" "/rec" 30 "best"
    (Some (fun _ => None)) 23.

(** A world in which nothing fails: yt-dlp prints [reads] and exits with 0,
    the remux exits with 0. *)
Definition calm_world (reads : list (bool * read)) : world :=
  {| utcnow_start := stamp_start; mkdtemp := "/tmp/multirec_0";
     cancel_at_spawn := false; ytdlp_spawn := None; stdout := reads;
     ytdlp_rc := 0; cancelled_in_wait := false;
     remux := Exit 0; transcode := Exit 0;
     metadata_written := true; utcnow_end := stamp_end |}.

(** A world in which the remux fails and the transcode works. *)
Definition remux_fails_world : world :=
  {| utcnow_start := stamp_start; mkdtemp := "/tmp/multirec_0";
     cancel_at_spawn := false; ytdlp_spawn := None;
     stdout := [(false, Line "frame=1")];
     ytdlp_rc := 0; cancelled_in_wait := false;
     remux := Exit 1; transcode := Exit 0;
     metadata_written := true; utcnow_end := stamp_end |}.

Definition ok_result : RecordingResult :=
  {| success := true; file_path := Some "/rec/20240101T120000.mp4";
     metadata_path := Some "/rec/20240101T120000.json"; error := None;
     start_time := stamp_start; end_time := Some stamp_end |}.

Definition failed_result : RecordingResult :=
  failure "yt-dlp exited with 1" stamp_start.

(** ** The scheduler *)

(** [frame s s']: from [s] to [s'] only the object stores and the log
    changed. *)
Definition frame (s s' : Scheduler) : Prop :=
  config s' = config s
  /\ scheduler_module.download_dir s' = scheduler_module.download_dir s
  /\ queue s' = queue s /\ running s' = running s
  /\ _cancelled s' = _cancelled s /\ worker s' = worker s.

(** At every await of the worker loop the running tasks are within the
    limit, and strictly below it while the loop waits for the queue. *)
Definition within_limit (s : Scheduler) : Prop :=
  Z.of_nat (length (running s)) <= concurrency_limit (config s)
  /\ (worker s = AwaitGet ->
      Z.of_nat (length (running s)) < concurrency_limit (config s)).

(** The same scheduler under a retuned configuration. *)
Definition retune (m : Z) (b : Q) (s : Scheduler) : Scheduler :=
  {| config := retuned m b (config s);
     scheduler_module.download_dir := scheduler_module.download_dir s;
     queue := queue s; running := running s; _cancelled := _cancelled s;
     heap := heap s; tasks := tasks s; worker := worker s; log := log s |}.

(** The events that are a caller's [add_recording]. *)
Definition submission (e : event) : bool :=
  match e with
  | EvAdd _ _ => true
  | _ => false
  end.

(** A scheduler at rest: nothing queued, nothing running, every task
    done. *)
Definition at_rest (s : Scheduler) : Prop :=
  queue s = [] /\ running s = [] /\ Forall (fun t => done t = true) (tasks s).

(** The timeouts of the timed waits in a log, and the tasks it launched. *)
Definition timed_waits (l : list action) : list Q :=
  omap (fun a => match a with ActQueueGet d => Some d | _ => None end) l.

Definition launches (l : list action) : list (nat * nat) :=
  omap (fun a => match a with ActCreateTask f r => Some (f, r) | _ => None end) l.

(** An action whose wait, if it is a timed one, is the queue timeout. *)
Definition plain (a : action) : Prop :=
  match a with
  | ActQueueGet d => d = queue_get_timeout
  | _ => True
  end.

Definition plain_log (s : Scheduler) : Prop := Forall plain (log s).

(** What [cancel_entry] does to the job: the recorder, where there is
    one, has its event set. *)
Definition cancel_recorder (t : RecordingTask) : RecordingTask :=
  set_recorder (cancel <$> recorder t) t.

(** Five submissions under a limit of 2: two are launched, the loop waits
    for one to complete, then launches the third. *)
Definition five_jobs : list event :=
  [EvAdd "https://example.com/0" "best"; EvAdd "https://example.com/1" "best";
   EvAdd "https://example.com/2" "best"; EvAdd "https://example.com/3" "best";
   EvAdd "https://example.com/4" "best";
   EvStart; EvWorker; EvWorker; EvTaskStart 0; EvTaskStart 1;
   EvTaskEnd 0 (Returned ok_result); EvWorker; EvWorker].

(** One job under a limit of 1 whose first attempt fails. *)
Definition one_failure : list event :=
  [EvAdd "https://example.com/0" "best"; EvStart; EvWorker; EvTaskStart 0;
   EvTaskEnd 0 (Returned failed_result)].

(** Scenario E: five submissions under a limit of 2, two jobs running and
    three queued, the loop waiting at the limit. *)
Definition scenario_E : list event :=
  [EvAdd "https://example.com/0" "best"; EvAdd "https://example.com/1" "best";
   EvAdd "https://example.com/2" "best"; EvAdd "https://example.com/3" "best";
   EvAdd "https://example.com/4" "best";
   EvStart; EvWorker; EvWorker; EvTaskStart 0; EvTaskStart 1].

(** * Further code

    The earlier recorder, the table of the main window and the
    resolution of the configuration file. *)

From stdpp Require Import gmap.

Open Scope Z_scope.

(** ** multirec/recorder/recorder.py, the earlier version

    The recorder of [multirec/multirec/recorder/recorder.py]: no crf, no
    metadata file, no transcode, and the callback is handed every line as
    it is.  It meets the same [world] and leaves the same kind of
    [effect]s as the recorder above; its loop and its handler are the
    same text. *)

Module legacy_recorder_module.

Import recorder_module.

Record RecordingResult := {
  success : bool;
  file_path : option string;
  error : option string;
  start_time : datetime;
  end_time : option datetime
}.

Record StreamRecorder := {
  channel_url : string;
  output_dir : string;
  segment_duration : Z;
  quality : string;
  on_update : option callback;
  _cancel_event : bool
}.

(** [StreamRecorder.__init__] *)
Definition StreamRecorder_new (channel_url output_dir : string)
    (segment_duration : Z) (quality : string) (on_update : option callback)
    : StreamRecorder :=
  {| channel_url := channel_url; output_dir := output_dir;
     segment_duration := segment_duration; quality := quality;
     on_update := on_update; _cancel_event := false |}.

(** [StreamRecorder.cancel] *)
Definition cancel (r : StreamRecorder) : StreamRecorder :=
  {| channel_url := channel_url r; output_dir := output_dir r;
     segment_duration := segment_duration r; quality := quality r;
     on_update := on_update r; _cancel_event := true |}.

Inductive outcome :=
| Returned (r : RecordingResult)
| Raised (msg : string).

Definition failure (e : string) (start : datetime) : RecordingResult :=
  {| success := false; file_path := None; error := Some e;
     start_time := start; end_time := None |}.

(** The body of the loop after the read: the stripped line goes to the
    callback, whatever it holds. *)
Definition handle_line (cb : option callback) (text : string)
    : list effect * option string :=
  match cb with
  | Some f => ([Update text], f text)
  | None => ([], None)
  end.

Fixpoint read_loop_from (cb : option callback) (cancelled gone : bool)
    (reads : list (bool * read)) : loop_exit * list effect :=
  if cancelled then
    if gone then (LoopRaised "" true, []) else (Cancelled, [Terminate])
  else
    match reads with
    | [] => (Break, [])
    | (arrives, rd) :: rest =>
        let gone := gone || at_exit rd in
        match rd with
        | Eof => (Break, [])
        | ReadCancelled => (LoopCancelledError, [])
        | ReadError e | ReadErrorAtExit e => (LoopRaised e gone, [])
        | Line raw | LineAtExit raw =>
            match handle_line cb (strip raw) with
            | (effs, Some e) => (LoopRaised e gone, effs)
            | (effs, None) =>
                let '(x, effs') :=
                  read_loop_from cb (cancelled || arrives) gone rest in
                (x, effs ++ effs')
            end
        end
    end.

Definition read_loop (cb : option callback) (cancelled : bool)
    (reads : list (bool * read)) : loop_exit * list effect :=
  read_loop_from cb cancelled false reads.

Definition yt_cmd (r : StreamRecorder) (temp_file : string) : list string :=
  ["yt-dlp"; channel_url r; "-N"; "8"; "-f"; quality r; "--downloader";
   "ffmpeg"; "--hls-use-mpegts"; "-o"; temp_file].

(** [StreamRecorder.record] *)
Definition record (r : StreamRecorder) (w : world) : outcome * list effect :=
  let start := utcnow_start w in
  let temp_dir := mkdtemp w in
  let temp_file := join temp_dir "download.ts" in
  let output_file := join (output_dir r) (compact start +:+ ".mp4") in
  match ytdlp_spawn w with
  | Some e => (Raised e, [])
  | None =>
      let effs := [Spawn (yt_cmd r temp_file)] in
      match read_loop (on_update r) (_cancel_event r || cancel_at_spawn w)
              (stdout w) with
      | (Cancelled, effs') =>
          if cancelled_in_wait w then
            (Raised "CancelledError", effs ++ effs')
          else
            (Returned (failure "Cancelled" start), effs ++ effs' ++ [Wait])
      | (LoopCancelledError, effs') =>
          (Raised "CancelledError", effs ++ effs')
      | (LoopRaised e gone, effs') =>
          if gone then (Raised "ProcessLookupError", effs ++ effs')
          else if cancelled_in_wait w then
            (Raised "CancelledError", effs ++ effs' ++ [Terminate])
          else
            (Returned (failure e start), effs ++ effs' ++ [Terminate; Wait])
      | (Break, effs') =>
          let effs := effs ++ effs' ++ [Wait] in
          if negb (ytdlp_rc w =? 0) then
            (Returned
               (failure ("yt-dlp exited with " +:+ pretty (ytdlp_rc w))
                  start),
             effs)
          else
            match remux w with
            | SpawnError e => (Raised e, effs)
            | CommunicateCancelled =>
                (Raised "CancelledError",
                 effs ++ [Spawn (ff_cmd temp_file output_file)])
            | Exit rc2 =>
                let effs :=
                  effs ++ [Spawn (ff_cmd temp_file output_file);
                           Communicate] in
                if negb (rc2 =? 0) then
                  (Returned
                     (failure ("ffmpeg exited with " +:+ pretty rc2) start),
                   effs)
                else
                  (Returned
                     {| success := true; file_path := Some output_file;
                        error := None; start_time := start;
                        end_time := Some (utcnow_end w) |},
                   effs ++ [Rmtree temp_dir])
            end
      end
  end.

End legacy_recorder_module.

(** ** ui/main_window.py: the table of the main window *)

Module main_window_module.

Import recorder_module scheduler_module.

(** A row of the table [QTableWidget(0, 3)]: the items of the columns
    [Canal], [Estado] and [Archivo], each kept as its text, [None] where a
    cell has no item. *)
Record row := {
  item0 : option string;
  item1 : option string;
  item2 : option string
}.

Abbreviation table := (list row).

(** [MainWindow._prompt_add_stream], given what the dialog returns and the
    text of the line edit: the call of [add_recording] for which a task is
    created, if any, and the table. *)
Definition _prompt_add_stream (accepted : bool) (text : string) (t : table)
    : option (string * string) * table :=
  if accepted then
    let url := strip text in
    if negb (String.eqb url "") then
      (Some (url, "best"),
       t ++ [{| item0 := Some url; item1 := Some "EN COLA";
                item2 := Some "" |}])
    else (None, t)
  else (None, t).

(** The body of the first loop of [_refresh_table] on a row in range. *)
Definition mark_running (rec_task : RecordingTask) (r : row) : row :=
  {| item0 := item0 r;
     item1 := match item1 r with
              | Some _ => Some "GRABANDO"
              | None => None
              end;
     item2 := match item2 r, result rec_task with
              | Some old, Some res =>
                  match file_path res with
                  | Some p => Some p
                  | None => Some old
                  end
              | old, _ => old
              end |}.

(** The body of the second loop. *)
Definition mark_queued (r : row) : row :=
  {| item0 := item0 r;
     item1 := match item1 r with
              | Some text =>
                  if negb (String.eqb text "GRABANDO") then Some "EN COLA"
                  else Some text
              | None => None
              end;
     item2 := item2 r |}.

(** [MainWindow._refresh_table], given the values of
    [list(self.scheduler.running.items())] in their order. *)
Definition _refresh_table (running : list RecordingTask) (t : table) : table :=
  let '(t, i) :=
    foldl (fun '(t, i) rec_task =>
             (if (i <? length t)%nat then alter (mark_running rec_task) i t
              else t,
              S i))
      (t, 0%nat) running in
  imap (fun row r => if (i <=? row)%nat then mark_queued r else r) t.

End main_window_module.

(** ** config/config.py: the configuration file

    [_resolve_config_file] over a file system of one process, without
    links and without permissions. *)

Module config_file_module.

(** A path is kept as the location it denotes: its components from the
    root, the last one first, so that the parent of a path is its tail. *)
Abbreviation Path := (list string).

Inductive node :=
| File (content : string)
| Dir.

(** What exists at each location. *)
Abbreviation filesystem := (gmap Path node).

Inductive os_error :=
| RuntimeError
| FileExistsError (p : Path)
| FileNotFoundError (p : Path)
| NotADirectoryError (p : Path).

(** What the process finds around it: [Path.cwd()], [Path.home()], the
    location of [Path(path).expanduser()], where [None] stands for the
    [RuntimeError] of a home directory that cannot be determined, and the
    text [yaml.safe_dump] writes for the default configuration. *)
Record environment := {
  cwd : Path;
  home : Path;
  expanduser : string -> option Path;
  default_yaml : string
}.

(** [Path.exists] *)
Definition path_exists (p : Path) (fs : filesystem) : bool :=
  bool_decide (is_Some (fs !! p)).

(** [Path.mkdir(parents=True, exist_ok=True)]: [os.mkdir] fails on a path
    that exists, which is fine when that is a directory; under a parent
    that is missing, which is then made first; and under a parent that is
    a file. *)
Fixpoint mkdir (p : Path) (fs : filesystem) : os_error + filesystem :=
  match fs !! p with
  | Some Dir => inr fs
  | Some (File _) => inl (FileExistsError p)
  | None =>
      match p with
      | [] => inl (FileNotFoundError p)
      | _ :: parent =>
          match fs !! parent with
          | Some Dir => inr (<[p := Dir]> fs)
          | Some (File _) => inl (NotADirectoryError p)
          | None =>
              match mkdir parent fs with
              | inr fs' => inr (<[p := Dir]> fs')
              | inl e => inl e
              end
          end
      end
  end.

(** [_resolve_config_file]: the path, or the exception, and the file
    system it leaves. *)
Definition _resolve_config_file (env : environment) (path : option string)
    (fs : filesystem) : (os_error + Path) * filesystem :=
  let candidate :=
    match path with
    | Some s => if negb (String.eqb s "") then Some (expanduser env s)
                else None
    | None => None
    end in
  let rest :=
    let project_cfg := "config.yaml" :: cwd env in
    if path_exists project_cfg fs then (inr project_cfg, fs)
    else
      let fallback := "config.yaml" :: ".multirec" :: home env in
      if negb (path_exists fallback fs) then
        match mkdir (".multirec" :: home env) fs with
        | inl e => (inl e, fs)
        | inr fs' =>
            (inr fallback, <[fallback := File (default_yaml env)]> fs')
        end
      else (inr fallback, fs) in
  match candidate with
  | Some None => (inl RuntimeError, fs)
  | Some (Some candidate) =>
      if path_exists candidate fs then (inr candidate, fs) else rest
  | None => rest
  end.

End config_file_module.

Import config_module recorder_module scheduler_module.

(** * Further vocabulary *)

(** What the structure of a scheduler state keeps, over the launches [L] of
    its log, its queue, [running], jobs and tasks. *)
Record core_ok (L : list (nat * nat)) (q : list nat) (r : list (nat * nat))
    (h : list RecordingTask) (t : list task_state) : Prop := {
  core_futs : L.*1 = seq 0 (length t);
  core_refs : L.*2 ++ q = seq 0 (length h);
  core_running : forall e, e ∈ r -> e ∈ L;
  core_keys : NoDup r.*1;
  core_pending : forall fut ref st c,
      t !! fut = Some (Pending ref st c) -> (fut, ref) ∈ r;
  core_fresh : forall fut ref, (fut, ref) ∈ r -> result <$> h !! ref = Some None;
  core_result : forall ref res,
      result <$> h !! ref = Some (Some res) ->
      exists fut, (fut, ref) ∈ L /\ t !! fut = Some (Finished res)
}.

(** What the state of the worker loop says about the tasks. *)
Definition worker_ok (s : Scheduler) : Prop :=
  match worker s with
  | Exited => Forall (fun t => done t = true) (tasks s)
  | AwaitGather =>
      forall fut ref st c, tasks s !! fut = Some (Pending ref st c) -> c = true
  | _ => True
  end.

Definition wf (s : Scheduler) : Prop :=
  core_ok (launches (log s)) (queue s) (running s) (heap s) (tasks s)
  /\ worker_ok s.

(** The submissions among the events: url and quality, in order. *)
Definition submissions (es : list event) : list (string * string) :=
  omap (fun e => match e with EvAdd u q => Some (u, q) | _ => None end) es.

(** The recorder [_run_recorder] builds for a job. *)
Definition recorder_for (cfg : Config) (dir : string) (t : RecordingTask)
    : StreamRecorder :=
  StreamRecorder_new (url t) dir (segment_duration_min cfg) (quality t) None 23.

(** A job as the scheduler keeps it for the submission [(u, q)]. *)
Definition job_of (cfg : Config) (dir : string) (sub : string * string)
    (t : RecordingTask) : Prop :=
  url t = sub.1 /\ quality t = sub.2 /\ future t = None
  /\ (recorder t = None
      \/ recorder t = Some (recorder_for cfg dir t)
      \/ recorder t = Some (cancel (recorder_for cfg dir t))).

Definition jobs_ok (cfg : Config) (dir : string) (subs : list (string * string))
    (s : Scheduler) : Prop :=
  config s = cfg /\ scheduler_module.download_dir s = dir
  /\ Forall2 (job_of cfg dir) subs (heap s).

(** One job under a limit of 1 whose recording raises. *)
Definition one_raise : list event :=
  [EvAdd "https://example.com/0" "best"; EvStart; EvWorker; EvTaskStart 0;
   EvTaskEnd 0 (Raised "[Errno 2] No such file or directory: 'yt-dlp'")].

(** The same world with every line's text blanked. *)
Definition blank_read (rd : bool * read) : bool * read :=
  match rd with
  | (c, Line _) => (c, Line "")
  | (c, LineAtExit _) => (c, LineAtExit "")
  | _ => rd
  end.

Definition with_stdout (reads : list (bool * read)) (w : world) : world :=
  {| utcnow_start := utcnow_start w; mkdtemp := mkdtemp w;
     cancel_at_spawn := cancel_at_spawn w; ytdlp_spawn := ytdlp_spawn w;
     stdout := reads; ytdlp_rc := ytdlp_rc w;
     cancelled_in_wait := cancelled_in_wait w; remux := remux w;
     transcode := transcode w; metadata_written := metadata_written w;
     utcnow_end := utcnow_end w |}.

Definition with_transcode (c : child) (w : world) : world :=
  {| utcnow_start := utcnow_start w; mkdtemp := mkdtemp w;
     cancel_at_spawn := cancel_at_spawn w; ytdlp_spawn := ytdlp_spawn w;
     stdout := stdout w; ytdlp_rc := ytdlp_rc w;
     cancelled_in_wait := cancelled_in_wait w; remux := remux w;
     transcode := c; metadata_written := metadata_written w;
     utcnow_end := utcnow_end w |}.

Definition with_metadata_written (b : bool) (w : world) : world :=
  {| utcnow_start := utcnow_start w; mkdtemp := mkdtemp w;
     cancel_at_spawn := cancel_at_spawn w; ytdlp_spawn := ytdlp_spawn w;
     stdout := stdout w; ytdlp_rc := ytdlp_rc w;
     cancelled_in_wait := cancelled_in_wait w; remux := remux w;
     transcode := transcode w; metadata_written := b;
     utcnow_end := utcnow_end w |}.

Definition metadata_file_of (r : StreamRecorder) (w : world) : string :=
  join (output_dir r) (compact (utcnow_start w) +:+ ".json").

(** How the read loop of a call ends. *)
Definition loop_end (format_1f : Q -> string) (r : StreamRecorder) (w : world)
    : loop_exit :=
  (read_loop format_1f (on_update r) (_cancel_event r || cancel_at_spawn w)
     (stdout w)).1.

(** What it is for a text to match a pattern, and the groups the match
    sets, last first. *)
Inductive matches : regex -> string -> groups -> Prop :=
| matches_eps : matches Eps "" []
| matches_chr p c : p c = true -> matches (Chr p) (String c "") []
| matches_seq r1 r2 w1 w2 g1 g2 :
    matches r1 w1 g1 -> matches r2 w2 g2 ->
    matches (Seq r1 r2) (w1 +:+ w2) (g2 ++ g1)
| matches_opt_none r : matches (Opt r) "" []
| matches_opt_some r w g : matches r w g -> matches (Opt r) w g
| matches_star_nil b r : matches (Star b r) "" []
| matches_star_cons b r w1 w2 g1 g2 :
    matches r w1 g1 -> matches (Star b r) w2 g2 ->
    matches (Star b r) (w1 +:+ w2) (g2 ++ g1)
| matches_group n r w g : matches r w g -> matches (Group n r) w ((n, w) :: g).

(** Every character of a text is in a class. *)
Fixpoint all_chars (p : ascii -> bool) (s : string) : bool :=
  match s with
  | String c s' => p c && all_chars p s'
  | EmptyString => true
  end.

(** ** The two versions of the recorder *)

(** A recorder of the later version set up as one of the earlier. *)
Definition same_recorder (old : legacy_recorder_module.StreamRecorder)
    (new : StreamRecorder) : Prop :=
  legacy_recorder_module.channel_url old = channel_url new
  /\ legacy_recorder_module.output_dir old = output_dir new
  /\ legacy_recorder_module.quality old = recorder_module.quality new
  /\ legacy_recorder_module.on_update old = on_update new
  /\ legacy_recorder_module._cancel_event old = _cancel_event new.

(** The fields the two kinds of result share. *)
Definition same_result (old : legacy_recorder_module.RecordingResult)
    (new : RecordingResult) : Prop :=
  legacy_recorder_module.success old = success new
  /\ legacy_recorder_module.file_path old = file_path new
  /\ legacy_recorder_module.error old = error new
  /\ legacy_recorder_module.start_time old = start_time new
  /\ legacy_recorder_module.end_time old = end_time new.

Definition same_outcome (old : legacy_recorder_module.outcome)
    (new : outcome) : Prop :=
  match old, new with
  | legacy_recorder_module.Returned a, Returned b => same_result a b
  | legacy_recorder_module.Raised a, Raised b => a = b
  | _, _ => False
  end.

Definition is_write_metadata (e : effect) : bool :=
  match e with
  | WriteMetadata _ => true
  | _ => false
  end.

(** The reads of a process that prints the lines [raws] while nobody
    cancels. *)
Definition printed (raws : list string) : list (bool * read) :=
  (fun raw => (false, Line raw)) <$> raws.

Definition legacy_quiet_recorder : legacy_recorder_module.StreamRecorder :=
  legacy_recorder_module.StreamRecorder_new "https://example.com/live" "/rec"
    30 "best" None.

(** ** The main window *)

(** The values of [scheduler.running], in the order of the dict. *)
Definition running_items (s : Scheduler) : list RecordingTask :=
  omap (fun e => heap s !! e.2) (running s).

(** What happens to the table: the dialog to add a stream is closed, or
    the timer fires and finds some tasks running. *)
Inductive ui_event :=
| UiPrompt (accepted : bool) (text : string)
| UiRefresh (running : list RecordingTask).

(** The table and the calls of [add_recording] made so far. *)
Definition ui_step (st : list (string * string) * main_window_module.table)
    (e : ui_event) : list (string * string) * main_window_module.table :=
  match e with
  | UiPrompt accepted text =>
      let '(call, t) :=
        main_window_module._prompt_add_stream accepted text st.2 in
      (st.1 ++ option_list call, t)
  | UiRefresh running =>
      (st.1, main_window_module._refresh_table running st.2)
  end.

Definition ui_run (es : list ui_event)
    : list (string * string) * main_window_module.table :=
  foldl ui_step ([], []) es.

(** A row as [_prompt_add_stream] makes them, up to its status. *)
Definition row_of (call : string * string) (r : main_window_module.row)
    : Prop :=
  main_window_module.item0 r = Some call.1
  /\ (main_window_module.item1 r = Some "EN COLA"
      \/ main_window_module.item1 r = Some "GRABANDO")
  /\ is_Some (main_window_module.item2 r).

Definition shows (status : string) (t : main_window_module.table) (i : nat)
    : Prop :=
  main_window_module.item1 <$> t !! i = Some (Some status).

(** A table of three rows, the first of which is shown as recording. *)
Definition three_rows : main_window_module.table :=
  [{| main_window_module.item0 := Some "https://example.com/0";
      main_window_module.item1 := Some "GRABANDO";
      main_window_module.item2 := Some "" |};
   {| main_window_module.item0 := Some "https://example.com/1";
      main_window_module.item1 := Some "EN COLA";
      main_window_module.item2 := Some "" |};
   {| main_window_module.item0 := Some "https://example.com/2";
      main_window_module.item1 := Some "EN COLA";
      main_window_module.item2 := Some "" |}].

(** A job as the worker loop holds it in [running]. *)
Definition running_job (u : string) : RecordingTask :=
  {| url := u; quality := "best"; recorder := Some quiet_recorder;
     future := None; result := None |}.

(** ** The configuration file *)

Definition project_cfg (env : config_file_module.environment)
    : config_file_module.Path :=
  "config.yaml" :: config_file_module.cwd env.

Definition fallback_dir (env : config_file_module.environment)
    : config_file_module.Path :=
  ".multirec" :: config_file_module.home env.

Definition fallback (env : config_file_module.environment)
    : config_file_module.Path :=
  "config.yaml" :: fallback_dir env.

(** The argument names nothing that exists: it is absent or empty, or the
    path it expands to is not there. *)
Definition names_nothing (env : config_file_module.environment)
    (path : option string) (fs : config_file_module.filesystem) : Prop :=
  forall s,
    path = Some s -> s <> "" ->
    exists c, config_file_module.expanduser env s = Some c /\ fs !! c = None.

(** A file system is a tree with a root: what exists lies in a
    directory. *)
Definition tree (fs : config_file_module.filesystem) : Prop :=
  fs !! [] = Some config_file_module.Dir
  /\ forall c p, is_Some (fs !! (c :: p)) ->
                 fs !! p = Some config_file_module.Dir.

(** A file stands at a path or above it. *)
Definition blocked (p : config_file_module.Path)
    (fs : config_file_module.filesystem) : Prop :=
  exists q content,
    q `suffix_of` p /\ fs !! q = Some (config_file_module.File content).

(** What a call has made: a path that was not there and is a directory
    now. *)
Definition made (fs fs' : config_file_module.filesystem)
    (p : config_file_module.Path) : Prop :=
  fs !! p = None /\ fs' !! p = Some config_file_module.Dir.

(** A user [u] in the directory [/home/u/project]; [~] expands to the home
    directory and every other argument is taken as the name of a file in
    the working directory. *)
Definition user_env : config_file_module.environment :=
  {| config_file_module.cwd := ["project"; "u"; "home"];
     config_file_module.home := ["u"; "home"];
     config_file_module.expanduser :=
       fun s => if String.eqb s "~/.multirec"
                then Some [".multirec"; "u"; "home"]
                else Some [s; "project"; "u"; "home"];
     config_file_module.default_yaml := "concurrency_limit: 4" |}.

(** The directories of [user_env] and nothing else. *)
Definition bare_fs : config_file_module.filesystem :=
  <[["project"; "u"; "home"] := config_file_module.Dir]>
    (<[["u"; "home"] := config_file_module.Dir]>
       (<[["home"] := config_file_module.Dir]>
          (<[[] := config_file_module.Dir]> ∅))).

(** The same, but with a file where the home directory should be. *)
Definition homeless_fs : config_file_module.filesystem :=
  <[["u"; "home"] := config_file_module.File "not a directory"]>
    (<[["home"] := config_file_module.Dir]>
       (<[[] := config_file_module.Dir]> ∅)).

(** Only a job that has been launched has a recorder. *)
Definition recorders_ok (s : Scheduler) : Prop :=
  forall i t,
    heap s !! i = Some t -> is_Some (recorder t) ->
    i ∈ (launches (log s)).*2.

(** The loop waits for a task to complete only with the limit reached. *)
Definition waits_at_limit (s : Scheduler) : Prop :=
  worker s = AwaitWait ->
  concurrency_limit (config s) <= Z.of_nat (length (running s)).

(** A job as [add_recording] makes it. *)
Definition fresh_job (sub : string * string) : RecordingTask :=
  {| url := sub.1; quality := sub.2; recorder := None; future := None;
     result := None |}.

(** One job under a limit of 2: it has returned while the loop, below the
    limit, waits for the queue. *)
Definition finished_below_limit : list event :=
  [EvAdd "https://example.com/0" "best"; EvStart; EvWorker; EvTaskStart 0;
   EvTaskEnd 0 (Returned ok_result)].

(** * Properties *)

(** ** Configuration *)

Section config_properties.

Variable home : string.

Lemma validate_concurrency_inr v v' :
  validate_concurrency v = inr v' <-> 1 <= v /\ v' = v.
Proof.
  unfold validate_concurrency. destruct (Z.ltb_spec v 1); split.
  - discriminate.
  - lia.
  - intros [= <-]. lia.
  - intros [_ ->]. reflexivity.
Qed.

Lemma validate_segment_duration_inr v v' :
  validate_segment_duration v = inr v' <-> 1 <= v /\ v' = v.
Proof.
  unfold validate_segment_duration. destruct (Z.ltb_spec v 1); split.
  - discriminate.
  - lia.
  - intros [= <-]. lia.
  - intros [_ ->]. reflexivity.
Qed.

Lemma Config_new_inr a c :
  Config_new home a = inr c ->
  field (arg_concurrency_limit a) 4 validate_concurrency
    = inr (concurrency_limit c)
  /\ field (arg_segment_duration_min a) 30 validate_segment_duration
    = inr (segment_duration_min c)
  /\ retry_max_attempts c = default 5 (arg_retry_max_attempts a)
  /\ backoff_base_seconds c = default (5 # 1)%Q (arg_backoff_base_seconds a).
Proof.
  unfold Config_new.
  destruct (field (arg_concurrency_limit a) 4 validate_concurrency) eqn:Hc,
    (field (arg_segment_duration_min a) 30 validate_segment_duration) eqn:Hs,
    (arg_download_dir a), (arg_db_path a), (arg_retry_max_attempts a),
    (arg_backoff_base_seconds a); simpl; try discriminate;
    intros [= <-]; simpl; auto.
Qed.

Lemma field_concurrency_bound arg v :
  field arg 4 validate_concurrency = inr v -> 1 <= v /\ at_least_one arg.
Proof.
  destruct arg as [x|]; simpl.
  - intros H. apply validate_concurrency_inr in H as [H ->]. auto.
  - intros [= <-]. split; [lia | exact I].
Qed.

Lemma field_segment_bound arg v :
  field arg 30 validate_segment_duration = inr v -> 1 <= v /\ at_least_one arg.
Proof.
  destruct arg as [x|]; simpl.
  - intros H. apply validate_segment_duration_inr in H as [H ->]. auto.
  - intros [= <-]. split; [lia | exact I].
Qed.

Lemma Config_new_limit a c :
  Config_new home a = inr c -> 1 <= concurrency_limit c.
Proof.
  intros H. apply Config_new_inr in H as (Hc & _).
  apply field_concurrency_bound in Hc. tauto.
Qed.

Lemma Config_new_accepts a :
  at_least_one (arg_concurrency_limit a) ->
  at_least_one (arg_segment_duration_min a) ->
  exists c, Config_new home a = inr c.
Proof.
  intros Hc Hs. unfold Config_new.
  assert (exists v, field (arg_concurrency_limit a) 4 validate_concurrency
                    = inr v) as [v ->].
  { destruct (arg_concurrency_limit a) as [x|]; simpl in *; eauto.
    exists x. apply validate_concurrency_inr. auto. }
  assert (exists v, field (arg_segment_duration_min a) 30
                      validate_segment_duration = inr v) as [v' ->].
  { destruct (arg_segment_duration_min a) as [x|]; simpl in *; eauto.
    exists x. apply validate_segment_duration_inr. auto. }
  destruct (arg_download_dir a), (arg_db_path a), (arg_retry_max_attempts a),
    (arg_backoff_base_seconds a); simpl; eauto.
Qed.

End config_properties.

(** C9, as the code has it. The constructor checks two fields only: it
    succeeds exactly when the concurrency limit and the segment duration,
    where given, are at least 1; every model it returns has both at least 1;
    the retry count and the backoff base are stored as given, unchecked. *)
Theorem Config_new_checks_limit_and_segment (home : string) (a : ConfigArgs) :
  ((exists c, Config_new home a = inr c) <->
     at_least_one (arg_concurrency_limit a)
     /\ at_least_one (arg_segment_duration_min a))
  /\ (forall c, Config_new home a = inr c ->
        1 <= concurrency_limit c
        /\ 1 <= segment_duration_min c
        /\ retry_max_attempts c = default 5 (arg_retry_max_attempts a)
        /\ backoff_base_seconds c
           = default (5 # 1)%Q (arg_backoff_base_seconds a)).
Proof.
  split; [split|].
  - intros [c H]. apply Config_new_inr in H as (Hc & Hs & _).
    apply field_concurrency_bound in Hc. apply field_segment_bound in Hs.
    tauto.
  - intros [Hc Hs]. by apply Config_new_accepts.
  - intros c H. apply Config_new_inr in H as (Hc & Hs & Hr & Hb).
    apply field_concurrency_bound in Hc. apply field_segment_bound in Hs.
    tauto.
Qed.

Lemma Config_new_checks_limit_and_segment_witness :
  1 <= concurrency_limit config_limit_2
  /\ 1 <= segment_duration_min config_limit_2
  /\ retry_max_attempts config_limit_2 = 3
  /\ backoff_base_seconds config_limit_2 = (2 # 1)%Q.
Proof.
  apply (proj2 (Config_new_checks_limit_and_segment "/home/u" args_limit_2)).
  reflexivity.
Defined.

(** C9, the claim as written fails: a retry count of 0 and a negative
    backoff base are accepted. *)
Lemma Config_new_accepts_bad_retry_and_backoff :
  exists c,
    Config_new "/home/u"
      {| arg_download_dir := None; arg_db_path := None;
         arg_concurrency_limit := None; arg_segment_duration_min := None;
         arg_retry_max_attempts := Some 0;
         arg_backoff_base_seconds := Some (-1 # 1)%Q |} = inr c
    /\ retry_max_attempts c = 0
    /\ backoff_base_seconds c = (-1 # 1)%Q
    /\ ~ (1 <= retry_max_attempts c)
    /\ ~ (0 < backoff_base_seconds c)%Q.
Proof.
  eexists. split; [reflexivity|]. simpl. repeat split; try lia.
  unfold Qlt. simpl. lia.
Qed.

(** ** The recorder *)

(** The pattern on a progress line of yt-dlp, and on another line. *)
Example search_progress_line :
  search progress_re
    "[download]  12.3% of ~1.50GiB at 2.00MiB/s ETA 00:42 (frag 3/24)"
  = Some [("eta", "00:42"); ("unit", "GiB"); ("size", "1.50"); ("pct", "12.3")].
Proof. vm_compute. reflexivity. Qed.

Example search_other_line :
  search progress_re "[hlsnative] Downloading m3u8 manifest" = None.
Proof. vm_compute. reflexivity. Qed.

Example strip_line : strip (String "009" " frame=1  ") = "frame=1".
Proof. reflexivity. Qed.

Example float_numbers :
  float "1.50" = inr (150 # 100)%Q
  /\ float "7" = inr (7 # 1)%Q
  /\ float ".5" = inr (5 # 10)%Q
  /\ float "." = inl "could not convert string to float: '.'".
Proof. repeat split. Qed.

Section recorder_properties.

Variable format_1f : Q -> string.

Abbreviation record := (record format_1f).
Abbreviation read_loop := (read_loop format_1f).
Abbreviation read_loop_from := (read_loop_from format_1f).
Abbreviation handle_line := (handle_line format_1f).

Lemma handle_line_updates cb text :
  Forall is_update (handle_line cb text).1.
Proof.
  unfold recorder_module.handle_line. destruct cb as [f|]; [|constructor].
  destruct (negb _); [|constructor].
  destruct (search progress_re text) as [m|]; [|by repeat constructor].
  destruct (float _); by repeat constructor.
Qed.

Lemma read_loop_from_set cb gone reads :
  read_loop_from cb true gone reads
  = if gone then (LoopRaised "" true, []) else (Cancelled, [Terminate]).
Proof. destruct reads; reflexivity. Qed.

Lemma read_loop_set cb reads :
  read_loop cb true reads = (Cancelled, [Terminate]).
Proof. apply read_loop_from_set. Qed.



Lemma record_after_loop r w :
  ytdlp_spawn w = None ->
  record r w =
    let start := utcnow_start w in
    let effs := [Spawn (yt_cmd r (temp_file_of w))] in
    match read_loop (on_update r) (_cancel_event r || cancel_at_spawn w)
            (stdout w) with
    | (Cancelled, effs') =>
        if cancelled_in_wait w then
          (Raised "CancelledError", effs ++ effs')
        else
          (Returned (failure "Cancelled" start), effs ++ effs' ++ [Wait])
    | (LoopCancelledError, effs') =>
        (Raised "CancelledError", effs ++ effs')
    | (LoopRaised e gone, effs') =>
        if gone then (Raised "ProcessLookupError", effs ++ effs')
        else if cancelled_in_wait w then
          (Raised "CancelledError", effs ++ effs' ++ [Terminate])
        else
          (Returned (failure e start), effs ++ effs' ++ [Terminate; Wait])
    | (Break, effs') =>
        let effs := effs ++ effs' ++ [Wait] in
        if negb (ytdlp_rc w =? 0) then
          (Returned
             (failure ("yt-dlp exited with " +:+ pretty (ytdlp_rc w)) start),
           effs)
        else
          let '(o, effs') :=
            normalise r w (mkdtemp w) (temp_file_of w) (output_file_of r w)
              (join (output_dir r) (compact start +:+ ".json")) in
          (o, effs ++ effs')
    end.
Proof. intros H. unfold recorder_module.record. rewrite H. reflexivity. Qed.

Lemma cancel_cancel r : cancel (cancel r) = cancel r.
Proof. reflexivity. Qed.

Lemma record_cancel_cancel r w :
  record (cancel (cancel r)) w = record (cancel r) w.
Proof. reflexivity. Qed.

End recorder_properties.




(** C7: the code at the failing input. With a callback installed, a
    progress line whose size text is not a number makes [float] raise
    inside the loop; the handler terminates yt-dlp and the recording comes
    back failed, where the same run with a well-formed size succeeds. *)
Theorem record_fails_on_malformed_progress_size (format_1f : Q -> string) :
  let bad := "[download]  50.0% of 1.2.3MiB at 1.00MiB/s ETA 00:10" in
  let good := "[download]  50.0% of 1.23MiB at 1.00MiB/s ETA 00:10" in
  search progress_re bad
  = Some [("eta", "00:10"); ("unit", "MiB"); ("size", "1.2.3"); ("pct", "50.0")]
  /\ record format_1f talking_recorder (calm_world [(false, Line bad)])
     = (Returned
          (failure "could not convert string to float: '1.2.3'" stamp_start),
        [Spawn (yt_cmd talking_recorder "/tmp/multirec_0/download.ts");
         Terminate; Wait])
  /\ exists res effs,
       record format_1f talking_recorder (calm_world [(false, Line good)])
       = (Returned res, effs)
       /\ success res = true.
Proof.
  split; [vm_compute; reflexivity|].
  split; [vm_compute; reflexivity|].
  do 2 eexists. split; [vm_compute; reflexivity|reflexivity].
Qed.

(** A line the pattern does not match is passed on as it is. *)
Lemma handle_line_no_match (format_1f : Q -> string) (f : callback)
    (text : string) :
  text <> "" ->
  search progress_re text = None ->
  handle_line format_1f (Some f) text = ([Update text], f text).
Proof.
  intros Hne Hs. unfold handle_line. rewrite Hs.
  destruct (String.eqb_spec text ""); [contradiction|reflexivity].
Qed.

(** C10. The download ended normally with exit code 0 and the remux exited
    with a non-zero code: [record] runs the libx264/aac transcode of the
    downloaded file, and its result is a success, carrying the output path,
    exactly when that transcode exits with 0; a non-zero exit of the
    transcode is the failure it reports. *)
Theorem record_falls_back_to_transcode (format_1f : Q -> string)
    (r : StreamRecorder) (w : world) (effs : list effect) (rc2 : Z) :
  ytdlp_spawn w = None ->
  read_loop format_1f (on_update r) (_cancel_event r || cancel_at_spawn w)
    (stdout w) = (Break, effs) ->
  ytdlp_rc w = 0 ->
  remux w = Exit rc2 ->
  rc2 <> 0 ->
  (forall res, (record format_1f r w).1 = Returned res ->
     (success res = true <-> transcode w = Exit 0))
  /\ (transcode w = Exit 0 ->
      exists res, (record format_1f r w).1 = Returned res
        /\ success res = true
        /\ file_path res = Some (output_file_of r w)
        /\ error res = None)
  /\ (forall rc3, transcode w = Exit rc3 ->
      In (Spawn ["ffmpeg"; "-y"; "-i"; temp_file_of w; "-c:v"; "libx264";
                 "-crf"; pretty (crf r); "-c:a"; "aac"; "-movflags";
                 "+faststart"; output_file_of r w])
         (record format_1f r w).2)
  /\ (forall rc3, transcode w = Exit rc3 -> rc3 <> 0 ->
      (record format_1f r w).1
      = Returned (failure ("ffmpeg transcode exited with " +:+ pretty rc3)
                    (utcnow_start w))).
Proof.
  intros Hspawn Hloop Hrc Hremux Hrc2.
  rewrite record_after_loop by done. rewrite Hloop, Hrc. simpl.
  unfold normalise. rewrite Hremux.
  destruct (Z.eqb_spec rc2 0) as [|_]; [contradiction|]. simpl.
  destruct (transcode w) as [msg|rc3|] eqn:Ht.
  - split; [|split; [|split]].
    + intros res H. discriminate H.
    + intros H. discriminate H.
    + intros rc3 H. discriminate H.
    + intros rc3 H. discriminate H.
  - destruct (Z.eqb_spec rc3 0) as [->|Hne]; simpl;
      (split; [|split; [|split]]).
    + intros res [= <-]. simpl. split; auto.
    + intros _. eexists. split; [reflexivity|]. simpl. auto.
    + intros rc3 _. rewrite !in_app_iff. simpl. tauto.
    + intros rc3 [= <-] H. contradiction.
    + intros res [= <-]. simpl. split; [discriminate|congruence].
    + intros H. congruence.
    + intros rc3' _. rewrite !in_app_iff. simpl. tauto.
    + intros rc3' [= <-] _. reflexivity.
  - split; [|split; [|split]].
    + intros res H. discriminate H.
    + intros H. discriminate H.
    + intros rc3 H. discriminate H.
    + intros rc3 H. discriminate H.
Qed.

Lemma record_falls_back_to_transcode_witness :
  exists res,
    (record (fun _ => "1.0") quiet_recorder remux_fails_world).1 = Returned res
    /\ success res = true
    /\ file_path res = Some "/rec/20240101T120000.mp4"
    /\ error res = None.
Proof.
  apply (record_falls_back_to_transcode (fun _ => "1.0") quiet_recorder
           remux_fails_world [] 1); try reflexivity. discriminate.
Defined.

(** ** The scheduler *)

(** *** What the parts of the worker loop leave alone *)

Section scheduler_frames.

Implicit Types (s : Scheduler) (e : nat * nat) (ds : list nat).

Lemma frame_refl s : frame s s.
Proof. by repeat split. Qed.

Lemma frame_trans s1 s2 s3 : frame s1 s2 -> frame s2 s3 -> frame s1 s3.
Proof.
  intros (?&?&?&?&?&?) (?&?&?&?&?&?). repeat split; congruence.
Qed.

Lemma cancel_entry_frame s e : frame s (cancel_entry s e).
Proof.
  destruct e as [fut ref]. unfold cancel_entry.
  destruct (heap s !! ref) as [t|]; [destruct (recorder t)|];
    by repeat split.
Qed.

Lemma cancel_all_frame (l : dict) : forall s, frame s (foldl cancel_entry s l).
Proof.
  induction l as [|e l IH]; intros s; simpl.
  - apply frame_refl.
  - eapply frame_trans; [apply cancel_entry_frame | apply IH].
Qed.

Lemma run_recorder_begin_frame ref s : frame s (run_recorder_begin ref s).
Proof.
  unfold run_recorder_begin. destruct (heap s !! ref); by repeat split.
Qed.

(** The shutdown block moves the worker on and touches nothing else of
    the scheduler's own fields. *)
Lemma shutdown_block_fields s :
  config (shutdown_block s) = config s
  /\ queue (shutdown_block s) = queue s
  /\ running (shutdown_block s) = running s
  /\ _cancelled (shutdown_block s) = _cancelled s
  /\ (worker (shutdown_block s) = Exited /\ running s = []
      \/ worker (shutdown_block s) = AwaitGather /\ running s <> []).
Proof.
  unfold shutdown_block.
  destruct (cancel_all_frame (running s) s) as (Hc & _ & Hq & Hr & Hx & _).
  destruct (running s) eqn:E; simpl; rewrite ?Hc, ?Hq, ?Hr, ?Hx, ?E;
    repeat split; auto.
Qed.

Lemma gate_fields s :
  config (gate s) = config s /\ queue (gate s) = queue s
  /\ running (gate s) = running s /\ _cancelled (gate s) = _cancelled s
  /\ heap (gate s) = heap s /\ tasks (gate s) = tasks s.
Proof.
  unfold gate. destruct (_ <=? _); [destruct (running s) eqn:E|];
    simpl; rewrite ?E; by repeat split.
Qed.

Lemma gate_worker s :
  (worker (gate s) = AwaitGet
   /\ Z.of_nat (length (running s)) < concurrency_limit (config s))
  \/ (worker (gate s) <> AwaitGet
      /\ concurrency_limit (config s) <= Z.of_nat (length (running s))).
Proof.
  unfold gate. destruct (Z.leb_spec (concurrency_limit (config s))
                           (Z.of_nat (length (running s)))).
  - right. destruct (running s) eqn:E; simpl; by split.
  - left. by split.
Qed.

Lemma loop_top_fields s :
  config (loop_top s) = config s /\ queue (loop_top s) = queue s
  /\ running (loop_top s) = running s
  /\ _cancelled (loop_top s) = _cancelled s.
Proof.
  unfold loop_top. destruct (_cancelled s) eqn:E.
  - destruct (shutdown_block_fields s) as (?&?&?&?&_).
    repeat split; congruence.
  - destruct (gate_fields s) as (?&?&?&?&_). repeat split; congruence.
Qed.

Lemma reap_fields ds : forall s,
  config (reap ds s) = config s /\ queue (reap ds s) = queue s
  /\ _cancelled (reap ds s) = _cancelled s
  /\ tasks (reap ds s) = tasks s /\ log (reap ds s) = log s
  /\ (length (running (reap ds s)) <= length (running s))%nat
  /\ (worker (reap ds s) = worker s \/ exists msg, worker (reap ds s) = Crashed msg).
Proof.
  induction ds as [|d ds IH]; intros s; simpl.
  - repeat split; auto.
  - destruct (dict_get d (running s)) as [ref|], (tasks s !! d) as [t|];
      try (repeat split; simpl; eauto; fail).
    destruct (task_result t) as [msg|r].
    + repeat split; simpl; eauto. unfold dict_pop. apply length_filter.
    + match goal with |- context [reap ds ?x] =>
        destruct (IH x) as (?&?&?&?&?&Hlen&?) end.
      simpl in *. repeat split; auto.
      etrans; [exact Hlen|]. unfold dict_pop. apply length_filter.
Qed.

Lemma length_dict_set k v (d : dict) :
  (length (dict_set k v d) <= S (length d))%nat.
Proof.
  unfold dict_set. destruct (dict_get k d).
  - rewrite length_map. lia.
  - rewrite length_app. simpl. lia.
Qed.

Lemma launch_fields x s :
  config (launch x s) = config s /\ queue (launch x s) = queue s
  /\ _cancelled (launch x s) = _cancelled s
  /\ heap (launch x s) = heap s
  /\ (length (running (launch x s)) <= S (length (running s)))%nat.
Proof. repeat split. simpl. apply length_dict_set. Qed.

End scheduler_frames.

(** *** The bound on running tasks *)

Section concurrency_limit.

Lemma loop_top_within_limit s :
  Z.of_nat (length (running s)) <= concurrency_limit (config s) ->
  within_limit (loop_top s).
Proof.
  intros H. unfold within_limit.
  destruct (loop_top_fields s) as (Hc & _ & Hr & _). rewrite Hc, Hr.
  split; [done|]. unfold loop_top. destruct (_cancelled s).
  - destruct (shutdown_block_fields s) as (_&_&_&_&[[-> _]|[-> _]]); done.
  - destruct (gate_worker s) as [[_ ?]|[? _]]; done.
Qed.

Lemma gate_within_limit s :
  Z.of_nat (length (running s)) <= concurrency_limit (config s) ->
  within_limit (gate s).
Proof.
  intros H. unfold within_limit.
  destruct (gate_fields s) as (Hc & _ & Hr & _). rewrite Hc, Hr.
  split; [done|]. destruct (gate_worker s) as [[_ ?]|[? _]]; done.
Qed.

Lemma config_step s e s' : step s e = Some s' -> config s' = config s.
Proof.
  destruct e; simpl.
  - by intros [= <-].
  - destruct (worker s); intros [= <-];
      by destruct (loop_top_fields (with_cancelled false s)) as (-> & _).
  - by intros [= <-].
  - unfold resume. destruct (worker s); try discriminate.
    + destruct (done_set s) as [|d ds]; [discriminate|].
      generalize (reap_fields (d :: ds) s).
      generalize (reap (d :: ds) s) as s1. intros s1 (Hc & _).
      destruct (worker s1); intros [= <-]; try done;
        by destruct (gate_fields s1) as (-> & _).
    + destruct (queue s) as [|x q]; intros [= <-].
      * by destruct (loop_top_fields s) as (-> & _).
      * by destruct (loop_top_fields (launch x (with_queue q s))) as (-> & _).
    + destruct (all_done s); [|discriminate]. by intros [= <-].
  - destruct (tasks s !! fut) as [[ref [] []| | |]|]; try discriminate.
    intros [= <-]. simpl. apply run_recorder_begin_frame.
  - destruct (tasks s !! fut) as [[ref [] []| | |]|]; try discriminate.
    by intros [= <-].
  - destruct (tasks s !! fut) as [[ref ? []| | |]|]; try discriminate.
    by intros [= <-].
Qed.

Lemma step_within_limit s e s' :
  within_limit s -> step s e = Some s' -> within_limit s'.
Proof.
  intros [Hle Hlt]. destruct e; simpl.
  - intros [= <-]. by split.
  - destruct (worker s); try discriminate; intros [= <-];
      by apply loop_top_within_limit.
  - intros [= <-]. by split.
  - unfold resume. destruct (worker s) eqn:Hw; try discriminate.
    + destruct (done_set s) as [|d ds]; [discriminate|].
      generalize (reap_fields (d :: ds) s).
      generalize (reap (d :: ds) s) as s1.
      intros s1 (Hc & _ & _ & _ & _ & Hlen & Hwk).
      assert (Z.of_nat (length (running s1)) <= concurrency_limit (config s1))
        by (rewrite Hc; lia).
      destruct (worker s1) eqn:Hw'; intros [= <-];
        try (by apply gate_within_limit).
      split; [done|]. by rewrite Hw'.
    + specialize (Hlt eq_refl).
      destruct (queue s) as [|x q]; intros [= <-];
        apply loop_top_within_limit; [lia|].
      destruct (launch_fields x (with_queue q s)) as (Hc & _ & _ & _ & Hlen).
      rewrite Hc. simpl in *. lia.
    + destruct (all_done s); [|discriminate]. intros [= <-]. by split.
  - destruct (tasks s !! fut) as [[ref [] []| | |]|]; try discriminate.
    intros [= <-]. unfold within_limit. simpl.
    destruct (run_recorder_begin_frame ref s) as (-> & _ & _ & -> & _ & ->).
    by split.
  - destruct (tasks s !! fut) as [[ref [] []| | |]|]; try discriminate.
    intros [= <-]. by split.
  - destruct (tasks s !! fut) as [[ref ? []| | |]|]; try discriminate.
    intros [= <-]. by split.
Qed.

Lemma run_within_limit es : forall s s',
  within_limit s -> run s es = Some s' -> within_limit s'.
Proof.
  induction es as [|e es IH]; intros s s' Hs; simpl.
  - by intros [= <-].
  - destruct (step s e) as [s1|] eqn:He; [|discriminate].
    apply IH. by eapply step_within_limit.
Qed.

Lemma run_config es : forall s s', run s es = Some s' -> config s' = config s.
Proof.
  induction es as [|e es IH]; intros s s'; simpl.
  - by intros [= <-].
  - destruct (step s e) as [s1|] eqn:He; [|discriminate].
    intros H. rewrite (IH _ _ H). by eapply config_step.
Qed.

End concurrency_limit.

(** C1. For a configuration the constructor returned, after any sequence of
    submissions, completions, shutdown requests and moves of the worker
    loop, the running tasks number at most [concurrency_limit]; and while
    the loop waits for the queue, the only place from which it launches a
    task, they are strictly below the limit. *)
Theorem running_never_exceeds_limit (home : string) (a : ConfigArgs)
    (cfg : Config) (dir : string) (es : list event) (s : Scheduler) :
  Config_new home a = inr cfg ->
  run (Scheduler_new cfg dir) es = Some s ->
  Z.of_nat (length (running s)) <= concurrency_limit cfg
  /\ (worker s = AwaitGet ->
      Z.of_nat (length (running s)) < concurrency_limit cfg).
Proof.
  intros Hcfg Hrun. apply Config_new_limit in Hcfg.
  assert (within_limit (Scheduler_new cfg dir)) as Hinit.
  { split; simpl; [lia|discriminate]. }
  pose proof (run_within_limit es _ _ Hinit Hrun) as Hs.
  pose proof (run_config es _ _ Hrun) as Hc. simpl in Hc.
  unfold within_limit in Hs. by rewrite Hc in Hs.
Qed.

Lemma running_never_exceeds_limit_witness :
  from_option
    (fun s => Z.of_nat (length (running s)) <= 2
              /\ (worker s = AwaitGet -> Z.of_nat (length (running s)) < 2))
    False (run (Scheduler_new config_limit_2 "/rec") five_jobs).
Proof.
  destruct (run (Scheduler_new config_limit_2 "/rec") five_jobs) as [s|] eqn:E.
  - simpl.
    apply (running_never_exceeds_limit "/home/u" args_limit_2 config_limit_2
             "/rec" five_jobs s); [reflexivity|exact E].
  - vm_compute in E. discriminate E.
Defined.

(** *** Submission *)

(** C4, as the code has it. [add_recording] never waits and never fails:
    in every state of the scheduler, shut down or not, it allocates a fresh
    task with no recorder and no result, appends it to the queue, and leaves
    the shutdown flag as it was. *)
Theorem add_recording_always_enqueues (s : Scheduler) (u q : string) :
  step s (EvAdd u q) = Some (add_recording u q s)
  /\ queue (add_recording u q s) = queue s ++ [length (heap s)]
  /\ heap (add_recording u q s) !! length (heap s)
     = Some {| url := u; quality := q; recorder := None; future := None;
               result := None |}
  /\ _cancelled (add_recording u q s) = _cancelled s
  /\ running (add_recording u q s) = running s.
Proof.
  repeat split. simpl. by apply list_lookup_middle.
Qed.

(** C4, the claim as written fails: after [shutdown()] and the exit of the
    worker loop, a submission still succeeds and the job is queued. *)
Lemma add_recording_after_shutdown_enqueues :
  exists s s',
    run (Scheduler_new config_limit_2 "/rec") [EvStart; EvShutdown; EvWorker]
    = Some s
    /\ _cancelled s = true
    /\ worker s = Exited
    /\ step s (EvAdd "https://example.com/late" "best") = Some s'
    /\ queue s' = [0%nat]
    /\ (url <$> heap s' !! 0%nat) = Some "https://example.com/late".
Proof. do 2 eexists. repeat split; reflexivity. Qed.

(** *** The retry settings are never read *)

Section retune.

Variables (m : Z) (b : Q).

Lemma gate_retune s : gate (retune m b s) = retune m b (gate s).
Proof.
  unfold gate. simpl. destruct (_ <=? _); [destruct (running s)|]; reflexivity.
Qed.

Lemma cancel_entry_retune s e :
  cancel_entry (retune m b s) e = retune m b (cancel_entry s e).
Proof.
  destruct e as [fut ref]. unfold cancel_entry. simpl.
  destruct (heap s !! ref) as [t|]; [destruct (recorder t)|]; reflexivity.
Qed.

Lemma cancel_all_retune (l : dict) : forall s,
  foldl cancel_entry (retune m b s) l = retune m b (foldl cancel_entry s l).
Proof.
  induction l as [|e l IH]; intros s; simpl; [done|].
  by rewrite cancel_entry_retune, IH.
Qed.

Lemma shutdown_block_retune s :
  shutdown_block (retune m b s) = retune m b (shutdown_block s).
Proof.
  unfold shutdown_block. simpl. rewrite cancel_all_retune.
  destruct (running s); reflexivity.
Qed.

Lemma loop_top_retune s : loop_top (retune m b s) = retune m b (loop_top s).
Proof.
  unfold loop_top. simpl.
  destruct (_cancelled s); [apply shutdown_block_retune|apply gate_retune].
Qed.

Lemma reap_retune ds : forall s, reap ds (retune m b s) = retune m b (reap ds s).
Proof.
  induction ds as [|d ds IH]; intros s; simpl; [done|].
  destruct (dict_get d (running s)) as [ref|], (tasks s !! d) as [t|];
    try reflexivity.
  destruct (task_result t); [reflexivity|]. rewrite <- IH. reflexivity.
Qed.

Lemma resume_retune s : resume (retune m b s) = retune m b <$> resume s.
Proof.
  unfold resume. change (worker (retune m b s)) with (worker s).
  destruct (worker s); try reflexivity.
  - change (done_set (retune m b s)) with (done_set s).
    destruct (done_set s) as [|d ds]; [reflexivity|].
    rewrite reap_retune. generalize (reap (d :: ds) s) as s1. intros s1.
    change (worker (retune m b s1)) with (worker s1).
    destruct (worker s1); simpl; by rewrite ?gate_retune.
  - change (queue (retune m b s)) with (queue s).
    destruct (queue s) as [|x q]; simpl.
    + by rewrite loop_top_retune.
    + by rewrite <- loop_top_retune.
  - change (all_done (retune m b s)) with (all_done s).
    destruct (all_done s); reflexivity.
Qed.

Lemma step_retune s e : step (retune m b s) e = retune m b <$> step s e.
Proof.
  destruct e; simpl; try reflexivity.
  - destruct (worker s); try reflexivity; simpl;
      by rewrite <- loop_top_retune.
  - apply resume_retune.
  - destruct (tasks s !! fut) as [[ref [] []| | |]|]; try reflexivity.
    simpl. unfold run_recorder_begin. simpl.
    destruct (heap s !! ref); reflexivity.
  - destruct (tasks s !! fut) as [[ref [] []| | |]|]; reflexivity.
  - destruct (tasks s !! fut) as [[ref ? []| | |]|]; reflexivity.
Qed.

Lemma run_retune es : forall s, run (retune m b s) es = retune m b <$> run s es.
Proof.
  induction es as [|e es IH]; intros s; simpl; [done|].
  rewrite step_retune. destruct (step s e) as [s1|]; simpl; [apply IH|done].
Qed.

End retune.

(** *** The queue is fed by submissions only *)

Section queue.

Lemma queue_step s e s' :
  step s e = Some s' ->
  submission e = false ->
  queue s' = queue s \/ queue s' = drop 1 (queue s).
Proof.
  destruct e; simpl; try discriminate; intros H _.
  - destruct (worker s); try discriminate; injection H as <-;
      destruct (loop_top_fields (with_cancelled false s)) as (_ & -> & _);
      by left.
  - injection H as <-. by left.
  - unfold resume in H. destruct (worker s); try discriminate.
    + destruct (done_set s) as [|d ds]; [discriminate|].
      revert H. generalize (reap_fields (d :: ds) s).
      generalize (reap (d :: ds) s) as s1. intros s1 (_ & Hq & _).
      destruct (worker s1); intros [= <-]; left; try done;
        by destruct (gate_fields s1) as (_ & -> & _).
    + destruct (queue s) as [|x q] eqn:Hq; injection H as <-.
      * left. destruct (loop_top_fields s) as (_ & -> & _). done.
      * right.
        by destruct (loop_top_fields (launch x (with_queue q s)))
          as (_ & -> & _).
    + destruct (all_done s); [|discriminate]. injection H as <-. by left.
  - destruct (tasks s !! fut) as [[ref [] []| | |]|]; try discriminate.
    injection H as <-. left. simpl. apply run_recorder_begin_frame.
  - destruct (tasks s !! fut) as [[ref [] []| | |]|]; try discriminate.
    injection H as <-. by left.
  - destruct (tasks s !! fut) as [[ref ? []| | |]|]; try discriminate.
    injection H as <-. by left.
Qed.

Lemma at_rest_not_pending s fut ref started requested :
  at_rest s -> tasks s !! fut <> Some (Pending ref started requested).
Proof.
  intros (_ & _ & Hd) Hl.
  rewrite Forall_lookup in Hd. by specialize (Hd _ _ Hl).
Qed.

Lemma at_rest_step s e s' :
  at_rest s -> step s e = Some s' -> submission e = false ->
  at_rest s' /\ heap s' = heap s /\ tasks s' = tasks s.
Proof.
  intros Hs H He. pose proof Hs as (Hq & Hr & Hd).
  assert (forall s0, queue s0 = [] -> running s0 = [] ->
            heap s0 = heap s -> tasks s0 = tasks s ->
            at_rest (loop_top s0) /\ heap (loop_top s0) = heap s
            /\ tasks (loop_top s0) = tasks s) as Htop.
  { intros s0 Hq0 Hr0 Hh0 Ht0. unfold loop_top, shutdown_block, gate.
    rewrite Hr0. simpl.
    destruct (_cancelled s0); [|destruct (_ <=? _)]; unfold at_rest; simpl;
      rewrite ?Hq0, ?Hr0, ?Ht0, ?Hh0; auto. }
  destruct e; simpl in *; try discriminate.
  - destruct (worker s); try discriminate; injection H as <-;
      by apply Htop.
  - injection H as <-. by repeat split.
  - unfold resume in H. destruct (worker s); try discriminate.
    + unfold done_set in H. rewrite Hr in H. discriminate.
    + rewrite Hq in H. injection H as <-. by apply Htop.
    + destruct (all_done s); [|discriminate]. injection H as <-.
      by repeat split.
  - destruct (tasks s !! fut) as [[ref [] []| | |]|] eqn:Hl;
      try discriminate. by apply at_rest_not_pending in Hl.
  - destruct (tasks s !! fut) as [[ref [] []| | |]|] eqn:Hl;
      try discriminate. by apply at_rest_not_pending in Hl.
  - destruct (tasks s !! fut) as [[ref ? []| | |]|] eqn:Hl;
      try discriminate. by apply at_rest_not_pending in Hl.
Qed.

Lemma at_rest_run es : forall s s',
  at_rest s -> run s es = Some s' ->
  Forall (fun e => submission e = false) es ->
  at_rest s' /\ heap s' = heap s /\ tasks s' = tasks s.
Proof.
  induction es as [|e es IH]; intros s s' Hs; simpl.
  - intros [= <-] _. split; [exact Hs|by split].
  - destruct (step s e) as [s1|] eqn:He; [|discriminate].
    intros Hrun Hall. apply Forall_cons in Hall as [He' Hall].
    destruct (at_rest_step _ _ _ Hs He He') as (Hs1 & Hh & Ht).
    destruct (IH _ _ Hs1 Hrun Hall) as (? & ? & ?).
    split; [done|split; congruence].
Qed.

End queue.

(** *** Collecting a completed task *)

Section collect.

Lemma dict_get_pop k (d : dict) : dict_get k (dict_pop k d) = None.
Proof.
  unfold dict_get, dict_pop. induction d as [|[k' v] d IH]; [done|].
  rewrite filter_cons. simpl. destruct (decide (k' ≠ k)) as [Hne|Heq].
  - simpl. destruct (Nat.eqb_spec k' k); [contradiction|exact IH].
  - exact IH.
Qed.

(** One task has completed with a result while the loop waits at the
    limit: the loop pops it, stores the result and goes back to the
    gate. *)
Lemma collect_one s d ref r :
  worker s = AwaitWait ->
  done_set s = [d] ->
  dict_get d (running s) = Some ref ->
  tasks s !! d = Some (Finished r) ->
  step s EvWorker
  = Some (gate (with_heap (alter (set_result (Some r)) ref (heap s))
                  (with_running (dict_pop d (running s)) s))).
Proof.
  intros Hw Hd Hg Ht. simpl. unfold resume. rewrite Hw, Hd. simpl.
  rewrite Hg, Ht. simpl. by rewrite Hw.
Qed.

End collect.

(** *** The waits of the worker loop *)

Section waits.

Lemma plain_add_log l s :
  Forall plain l -> plain_log s -> plain_log (add_log l s).
Proof. intros Hl Hs. unfold plain_log. simpl. by apply Forall_app. Qed.

Lemma plain_gate s : plain_log s -> plain_log (gate s).
Proof.
  intros Hs. unfold gate. destruct (_ <=? _); [destruct (running s)|];
    try done; apply (plain_add_log _ s); auto; by repeat constructor.
Qed.

Lemma plain_cancel_entry s e : plain_log s -> plain_log (cancel_entry s e).
Proof.
  intros Hs. destruct e as [fut ref]. unfold cancel_entry, plain_log.
  destruct (heap s !! ref) as [t|]; [destruct (recorder t)|]; simpl;
    rewrite ?Forall_app; repeat split; try done; by repeat constructor.
Qed.

Lemma plain_cancel_all (l : dict) : forall s,
  plain_log s -> plain_log (foldl cancel_entry s l).
Proof.
  induction l as [|e l IH]; intros s Hs; simpl; [done|].
  by apply IH, plain_cancel_entry.
Qed.

Lemma plain_loop_top s : plain_log s -> plain_log (loop_top s).
Proof.
  intros Hs. unfold loop_top. destruct (_cancelled s); [|by apply plain_gate].
  unfold shutdown_block.
  assert (plain_log (add_log [ActGather] (foldl cancel_entry s (running s)))).
  { apply plain_add_log; [by repeat constructor|by apply plain_cancel_all]. }
  by destruct (running s).
Qed.

Lemma plain_step s e s' : plain_log s -> step s e = Some s' -> plain_log s'.
Proof.
  intros Hs. destruct e; simpl.
  - by intros [= <-].
  - destruct (worker s); try discriminate; intros [= <-];
      by apply plain_loop_top.
  - by intros [= <-].
  - unfold resume. destruct (worker s); try discriminate.
    + destruct (done_set s) as [|d ds]; [discriminate|].
      generalize (reap_fields (d :: ds) s).
      generalize (reap (d :: ds) s) as s1.
      intros s1 (_ & _ & _ & _ & Hl & _).
      assert (plain_log s1) by (unfold plain_log; by rewrite Hl).
      destruct (worker s1); intros [= <-]; try done; by apply plain_gate.
    + destruct (queue s) as [|x q]; intros [= <-]; apply plain_loop_top;
        [done|].
      unfold plain_log, launch. simpl. apply Forall_app. split; [done|].
      by repeat constructor.
    + destruct (all_done s); [|discriminate]. by intros [= <-].
  - destruct (tasks s !! fut) as [[ref [] []| | |]|]; try discriminate.
    intros [= <-]. unfold plain_log, run_recorder_begin. simpl.
    by destruct (heap s !! ref).
  - destruct (tasks s !! fut) as [[ref [] []| | |]|]; try discriminate.
    by intros [= <-].
  - destruct (tasks s !! fut) as [[ref ? []| | |]|]; try discriminate.
    by intros [= <-].
Qed.

Lemma plain_run es : forall s s',
  plain_log s -> run s es = Some s' -> plain_log s'.
Proof.
  induction es as [|e es IH]; intros s s' Hs; simpl.
  - by intros [= <-].
  - destruct (step s e) as [s1|] eqn:He; [|discriminate].
    apply IH. by eapply plain_step.
Qed.

End waits.

(** *** Cancellation and shutdown *)

Section cancellation.

Implicit Types (s : Scheduler).

Lemma insert_as_alter {A} (f : A -> A) (l : list A) : forall i x,
  l !! i = Some x -> <[i := f x]> l = alter f i l.
Proof.
  induction l as [|y l IH]; intros [|i] x; simpl; try done.
  - by intros [= ->].
  - intros H. f_equal. by apply IH.
Qed.

Lemma alter_fixed {A} (f : A -> A) (l : list A) i :
  (forall x, l !! i = Some x -> f x = x) -> alter f i l = l.
Proof.
  intros Hf. apply list_eq. intros j. rewrite list_lookup_alter.
  case_decide as Hij; [subst j|done].
  destruct (l !! i) as [x|] eqn:E; [|done]. simpl. by rewrite Hf.
Qed.

Lemma alter_twice {A} (f : A -> A) (l : list A) i :
  (forall x, f (f x) = f x) -> alter f i (alter f i l) = alter f i l.
Proof.
  intros Hf. apply list_eq. intros j.
  destruct (decide (i = j)) as [->|Hne].
  - rewrite !list_lookup_alter_eq. destruct (l !! j); simpl; by rewrite ?Hf.
  - by rewrite !list_lookup_alter_ne.
Qed.

Lemma task_cancel_twice t : task_cancel (task_cancel t) = task_cancel t.
Proof. by destruct t. Qed.

Lemma task_cancel_done t : done t = true -> task_cancel t = t.
Proof. by destruct t. Qed.

Lemma cancel_recorder_twice t :
  cancel_recorder (cancel_recorder t) = cancel_recorder t.
Proof. destruct t as [u q [r|] f res]; reflexivity. Qed.

Lemma cancel_entry_tasks s fut ref :
  tasks (cancel_entry s (fut, ref)) = alter task_cancel fut (tasks s).
Proof.
  unfold cancel_entry.
  destruct (heap s !! ref) as [t|]; [destruct (recorder t)|]; reflexivity.
Qed.

Lemma cancel_entry_heap s fut ref :
  heap (cancel_entry s (fut, ref)) = alter cancel_recorder ref (heap s).
Proof.
  unfold cancel_entry.
  destruct (heap s !! ref) as [t|] eqn:Ht;
    [destruct (recorder t) as [r|] eqn:Hr|]; simpl.
  - rewrite <- (insert_as_alter cancel_recorder _ _ _ Ht).
    unfold cancel_recorder. rewrite Hr. reflexivity.
  - symmetry. apply alter_fixed. intros x Hx.
    assert (x = t) as -> by congruence.
    unfold cancel_recorder. rewrite Hr. destruct t; simpl in *; by subst.
  - symmetry. apply alter_fixed. intros x Hx. congruence.
Qed.

Lemma cancel_all_tasks (l : dict) : forall s i,
  tasks (foldl cancel_entry s l) !! i
  = (if decide (i ∈ l.*1) then task_cancel else id) <$> tasks s !! i.
Proof.
  induction l as [|[fut ref] l IH]; intros s i.
  - simpl. by destruct (tasks s !! i).
  - change (foldl cancel_entry s ((fut, ref) :: l))
      with (foldl cancel_entry (cancel_entry s (fut, ref)) l).
    change (((fut, ref) :: l).*1) with (fut :: l.*1).
    rewrite IH, cancel_entry_tasks, list_lookup_alter.
    destruct (decide (fut = i)) as [->|Hne].
    + rewrite (decide_True (P := i ∈ i :: l.*1)) by apply list_elem_of_here.
      destruct (tasks s !! i); simpl; [|done].
      case_decide; simpl; by rewrite ?task_cancel_twice.
    + destruct (decide (i ∈ l.*1)) as [Hin|Hout].
      * by rewrite decide_True by (by apply list_elem_of_further).
      * rewrite decide_False; [done|].
        rewrite elem_of_cons. by intros [?|?].
Qed.

Lemma cancel_all_results (l : dict) : forall s i,
  result <$> heap (foldl cancel_entry s l) !! i = result <$> heap s !! i.
Proof.
  induction l as [|[fut ref] l IH]; intros s i; [done|].
  change (foldl cancel_entry s ((fut, ref) :: l))
    with (foldl cancel_entry (cancel_entry s (fut, ref)) l).
  rewrite IH, cancel_entry_heap, list_lookup_alter.
  case_decide; [subst i|done]. by destruct (heap s !! ref).
Qed.

(** After the shutdown block every task of [running] has had [cancel()]
    called on it, the jobs' results are as before, and the queue is as
    before. *)
Lemma shutdown_block_cancels s :
  (forall fut ref t,
      (fut, ref) ∈ running s -> tasks s !! fut = Some t ->
      tasks (shutdown_block s) !! fut = Some (task_cancel t))
  /\ (forall i,
        result <$> heap (shutdown_block s) !! i = result <$> heap s !! i).
Proof.
  assert (forall s0, tasks (shutdown_block s0)
                     = tasks (foldl cancel_entry s0 (running s0))
                     /\ heap (shutdown_block s0)
                        = heap (foldl cancel_entry s0 (running s0)))
    as Heq by (intros s0; unfold shutdown_block; by destruct (running s0)).
  destruct (Heq s) as [-> ->]. split.
  - intros fut ref t Hin Ht. rewrite cancel_all_tasks, Ht.
    rewrite decide_True; [done|].
    apply list_elem_of_fmap. by exists (fut, ref).
  - apply cancel_all_results.
Qed.

(** While the loop waits in [gather] nothing leaves the queue, [running]
    stays as it is, and the loop ends only when every task of [running]
    is done. *)
Lemma gather_step s e s' :
  worker s = AwaitGather -> step s e = Some s' ->
  (exists l, queue s' = queue s ++ l)
  /\ running s' = running s
  /\ (worker s' = AwaitGather \/ worker s' = Exited /\ all_done s = true).
Proof.
  intros Hw. destruct e; simpl.
  - intros [= <-]. simpl. eauto.
  - by rewrite Hw.
  - intros [= <-]. simpl. split; [exists []; by rewrite app_nil_r|auto].
  - unfold resume. rewrite Hw. destruct (all_done s); [|discriminate].
    intros [= <-]. simpl. split; [exists []; by rewrite app_nil_r|auto].
  - destruct (tasks s !! fut) as [[ref [] []| | |]|]; try discriminate.
    intros [= <-]. simpl.
    destruct (run_recorder_begin_frame ref s) as (_ & _ & -> & -> & _ & ->).
    split; [exists []; by rewrite app_nil_r|auto].
  - destruct (tasks s !! fut) as [[ref [] []| | |]|]; try discriminate.
    intros [= <-]. simpl. split; [exists []; by rewrite app_nil_r|auto].
  - destruct (tasks s !! fut) as [[ref ? []| | |]|]; try discriminate.
    intros [= <-]. simpl. split; [exists []; by rewrite app_nil_r|auto].
Qed.

End cancellation.

(** * Further properties *)

Section core.

Implicit Types (L r : list (nat * nat)) (q : list nat)
  (h : list RecordingTask) (t : list task_state).

Lemma snd_inj_NoDup (l : list (nat * nat)) a b c :
  NoDup l.*2 -> (a, c) ∈ l -> (b, c) ∈ l -> a = b.
Proof.
  induction l as [|[x y] l IH]; simpl; intros Hnd Ha Hb.
  - by apply elem_of_nil in Ha.
  - apply NoDup_cons in Hnd as [Hy Hnd].
    apply elem_of_cons in Ha as [[= -> ->]|Ha], Hb as [[= ->]|Hb]; auto.
    + destruct Hy. apply list_elem_of_fmap. by exists (b, y).
    + subst. destruct Hy. apply list_elem_of_fmap. by exists (a, y).
Qed.

Lemma dict_get_Some k v (d : list (nat * nat)) :
  dict_get k d = Some v -> (k, v) ∈ d.
Proof.
  unfold dict_get. induction d as [|[k' v'] d IH]; simpl; [done|].
  destruct (Nat.eqb_spec k' k) as [->|Hne]; simpl.
  - intros [= ->]. apply list_elem_of_here.
  - intros H. apply list_elem_of_further. auto.
Qed.

Lemma dict_get_None k (d : list (nat * nat)) :
  k ∉ d.*1 -> dict_get k d = None.
Proof.
  unfold dict_get. induction d as [|[k' v'] d IH]; simpl; [done|].
  intros Hk. apply not_elem_of_cons in Hk as [Hne Hk].
  destruct (Nat.eqb_spec k' k) as [->|_]; [done|]. auto.
Qed.

Lemma dict_set_fresh k v (d : list (nat * nat)) :
  k ∉ d.*1 -> dict_set k v d = d ++ [(k, v)].
Proof. intros Hk. unfold dict_set. by rewrite dict_get_None. Qed.

Lemma elem_of_dict_pop k e (d : list (nat * nat)) :
  e ∈ dict_pop k d <-> e.1 <> k /\ e ∈ d.
Proof. unfold dict_pop. by rewrite list_elem_of_filter. Qed.

Lemma NoDup_keys_pop k (d : list (nat * nat)) :
  NoDup d.*1 -> NoDup (dict_pop k d).*1.
Proof.
  unfold dict_pop. induction d as [|[k' v'] d IH]; simpl; [done|].
  intros Hnd. apply NoDup_cons in Hnd as [Hk Hnd].
  rewrite filter_cons. simpl. destruct (decide (k' <> k)); [|auto].
  simpl. apply NoDup_cons. split; [|auto].
  intros Hin. apply Hk. apply list_elem_of_fmap in Hin as ([k2 v2] & -> & Hin).
  apply list_elem_of_filter in Hin as [_ Hin].
  apply list_elem_of_fmap. by exists (k2, v2).
Qed.

Lemma core_ok_refs_NoDup L q r h t : core_ok L q r h t -> NoDup (L.*2 ++ q).
Proof. intros H. rewrite (core_refs _ _ _ _ _ H). apply NoDup_seq. Qed.

(** A submission. *)
Lemma core_ok_add L q r h t x :
  result x = None ->
  core_ok L q r h t -> core_ok L (q ++ [length h]) r (h ++ [x]) t.
Proof.
  intros Hx [H1 H2 H3 H4 H5 H6 H7]. split; auto.
  - rewrite app_assoc, H2, length_app. simpl.
    by rewrite Nat.add_1_r, seq_S.
  - intros fut ref Hin. specialize (H6 _ _ Hin).
    destruct (h !! ref) as [y|] eqn:E; [|done].
    by rewrite (lookup_app_l_Some _ _ _ _ E).
  - intros ref res Hr. apply H7.
    destruct (decide (ref < length h)%nat) as [Hlt|Hge].
    + by rewrite lookup_app_l in Hr.
    + rewrite lookup_app_r in Hr by lia.
      destruct (ref - length h)%nat; simpl in Hr; [|done].
      rewrite Hx in Hr. done.
Qed.

(** The launch of the head of the queue. *)
Lemma core_ok_launch L q r h t x :
  core_ok L (x :: q) r h t ->
  core_ok (L ++ [(length t, x)]) q (dict_set (length t) x r) h
    (t ++ [Pending x false false]).
Proof.
  intros H. pose proof (core_ok_refs_NoDup _ _ _ _ _ H) as Hnd.
  destruct H as [H1 H2 H3 H4 H5 H6 H7].
  assert (length t ∉ r.*1) as Hfresh.
  { intros Hin. apply list_elem_of_fmap in Hin as ([k v] & Hk & Hin).
    simpl in Hk. subst k. apply H3 in Hin.
    assert (length t ∈ L.*1) as Hl
      by (apply list_elem_of_fmap; by exists (length t, v)).
    rewrite H1 in Hl. apply elem_of_seq in Hl. lia. }
  rewrite dict_set_fresh by done. split.
  - rewrite fmap_app, H1, length_app. simpl. by rewrite Nat.add_1_r, seq_S.
  - rewrite fmap_app. simpl. by rewrite <- app_assoc.
  - intros e He. apply elem_of_app in He as [He|He].
    + apply elem_of_app. left. auto.
    + apply elem_of_app. by right.
  - rewrite fmap_app. simpl. apply NoDup_app. split; [done|]. split.
    + intros k Hk Hk'. apply list_elem_of_singleton in Hk'. by subst k.
    + apply NoDup_singleton.
  - intros fut ref st c Hl. apply lookup_snoc_Some in Hl as [[_ Hl]|[-> Hl]].
    + apply elem_of_app. left. eauto.
    + injection Hl as <- <- <-. apply elem_of_app. right.
      apply list_elem_of_here.
  - intros fut ref He. apply elem_of_app in He as [He|He]; [eauto|].
    apply list_elem_of_singleton in He. injection He as -> ->.
    assert (x ∈ seq 0 (length h)) as Hx.
    { rewrite <- H2. apply elem_of_app. right. apply list_elem_of_here. }
    apply elem_of_seq in Hx.
    destruct (lookup_lt_is_Some_2 h x ltac:(lia)) as [y Hy]. rewrite Hy.
    simpl. destruct (result y) as [res|] eqn:Hres; [|done].
    destruct (H7 x res) as (fut & Hfut & _); [by rewrite Hy; simpl; rewrite Hres|].
    apply NoDup_app in Hnd as (_ & Hdisj & _). destruct (Hdisj x).
    + apply list_elem_of_fmap. by exists (fut, x).
    + apply list_elem_of_here.
  - intros ref res Hr. destruct (H7 _ _ Hr) as (fut & Hfut & Ht).
    exists fut. split; [apply elem_of_app; by left|].
    by apply lookup_app_l_Some.
Qed.

(** A done task is popped; where it finished, its result is stored. *)
Lemma core_ok_pop L q r h t d ref :
  core_ok L q r h t ->
  dict_get d r = Some ref ->
  from_option done false (t !! d) = true ->
  core_ok L q (dict_pop d r) h t.
Proof.
  intros [H1 H2 H3 H4 H5 H6 H7] Hd Hdone. split; auto.
  - intros e He. apply elem_of_dict_pop in He as [_ He]. auto.
  - by apply NoDup_keys_pop.
  - intros fut ref' st c Hl. apply elem_of_dict_pop. split; [|eauto].
    simpl. intros ->. by rewrite Hl in Hdone.
  - intros fut ref' He. apply elem_of_dict_pop in He as [_ He]. eauto.
Qed.

Lemma core_ok_store L q r h t d ref res :
  core_ok L q r h t ->
  (d, ref) ∈ L -> (forall fut, (fut, ref) ∉ r) ->
  t !! d = Some (Finished res) ->
  core_ok L q r (alter (set_result (Some res)) ref h) t.
Proof.
  intros [H1 H2 H3 H4 H5 H6 H7] HL Hout Ht. split; auto.
  - by rewrite length_alter.
  - intros fut ref' He. rewrite list_lookup_alter_ne; [eauto|].
    intros ->. by apply (Hout fut).
  - intros ref' res' Hr. destruct (decide (ref = ref')) as [<-|Hne].
    + rewrite list_lookup_alter_eq in Hr.
      destruct (h !! ref); simpl in Hr; [|done]. injection Hr as <-. eauto.
    + rewrite list_lookup_alter_ne in Hr by done. auto.
Qed.

(** The tasks move on: pending ones stay with their job or become done,
    finished ones stay. *)
Lemma core_ok_tasks L q r h t t' :
  core_ok L q r h t ->
  length t' = length t ->
  (forall fut ref st c, t' !! fut = Some (Pending ref st c) ->
     exists st0 c0, t !! fut = Some (Pending ref st0 c0)) ->
  (forall fut res, t !! fut = Some (Finished res) ->
     t' !! fut = Some (Finished res)) ->
  core_ok L q r h t'.
Proof.
  intros [H1 H2 H3 H4 H5 H6 H7] Hlen Hp Hf. split; auto.
  - by rewrite Hlen.
  - intros fut ref st c Hl. destruct (Hp _ _ _ _ Hl) as (st0 & c0 & Hl0). eauto.
  - intros ref res Hr. destruct (H7 _ _ Hr) as (fut & ? & ?). eauto.
Qed.

(** The jobs change in what is not their result. *)
Lemma core_ok_heap L q r h h' t :
  core_ok L q r h t ->
  length h' = length h ->
  (forall i, result <$> h' !! i = result <$> h !! i) ->
  core_ok L q r h' t.
Proof.
  intros [H1 H2 H3 H4 H5 H6 H7] Hlen Hr. split; auto.
  - by rewrite Hlen.
  - intros fut ref He. rewrite Hr. eauto.
  - intros ref res Hres. rewrite Hr in Hres. eauto.
Qed.

End core.

Section wf_steps.

Implicit Types (s : Scheduler).

Abbreviation core s :=
  (core_ok (launches (log s)) (queue s) (running s) (heap s) (tasks s)).

Lemma launches_app l1 l2 : launches (l1 ++ l2) = launches l1 ++ launches l2.
Proof. apply omap_app. Qed.

Lemma launches_gate s : launches (log (gate s)) = launches (log s).
Proof.
  unfold gate. destruct (_ <=? _); [destruct (running s)|]; simpl;
    rewrite ?launches_app, ?app_nil_r; reflexivity.
Qed.

Lemma launches_cancel_entry s e :
  launches (log (cancel_entry s e)) = launches (log s).
Proof.
  destruct e as [fut ref]. unfold cancel_entry.
  destruct (heap s !! ref) as [t|]; [destruct (recorder t)|]; simpl;
    rewrite ?launches_app, ?app_nil_r; reflexivity.
Qed.

Lemma launches_cancel_all (l : list (nat * nat)) : forall s,
  launches (log (foldl cancel_entry s l)) = launches (log s).
Proof.
  induction l as [|e l IH]; intros s; [done|].
  change (foldl cancel_entry s (e :: l))
    with (foldl cancel_entry (cancel_entry s e) l).
  by rewrite IH, launches_cancel_entry.
Qed.

Lemma cancel_all_lengths (l : list (nat * nat)) : forall s,
  length (tasks (foldl cancel_entry s l)) = length (tasks s)
  /\ length (heap (foldl cancel_entry s l)) = length (heap s).
Proof.
  induction l as [|[fut ref] l IH]; intros s; [done|].
  change (foldl cancel_entry s ((fut, ref) :: l))
    with (foldl cancel_entry (cancel_entry s (fut, ref)) l).
  destruct (IH (cancel_entry s (fut, ref))) as [-> ->].
  by rewrite cancel_entry_tasks, cancel_entry_heap, !length_alter.
Qed.

Lemma core_gate s : core s -> core (gate s).
Proof.
  intros H. rewrite launches_gate.
  by destruct (gate_fields s) as (_ & -> & -> & _ & -> & ->).
Qed.

Lemma worker_ok_gate s : worker_ok (gate s).
Proof.
  unfold worker_ok, gate.
  destruct (_ <=? _); [destruct (running s)|]; exact I.
Qed.

(** The tasks and jobs after the shutdown block, seen from before it. *)
Lemma shutdown_block_stores s :
  launches (log (shutdown_block s)) = launches (log s)
  /\ tasks (shutdown_block s) = tasks (foldl cancel_entry s (running s))
  /\ heap (shutdown_block s) = heap (foldl cancel_entry s (running s)).
Proof.
  unfold shutdown_block. generalize (launches_cancel_all (running s) s).
  generalize (foldl cancel_entry s (running s)) as s1. intros s1 H.
  destruct (running s); simpl; rewrite launches_app, app_nil_r; auto.
Qed.

Lemma core_shutdown_block s : core s -> core (shutdown_block s).
Proof.
  intros H. destruct (shutdown_block_stores s) as (-> & Ht & Hh).
  destruct (shutdown_block_fields s) as (_ & -> & -> & _).
  destruct (cancel_all_lengths (running s) s) as [Hlt Hlh].
  rewrite Ht, Hh. eapply core_ok_heap; [eapply core_ok_tasks|..]; eauto.
  - intros fut ref st c. rewrite cancel_all_tasks.
    destruct (tasks s !! fut) as [t0|]; [|done].
    case_decide; destruct t0; simpl; intros Heq; try discriminate Heq;
      injection Heq as <- <- <-; eauto.
  - intros fut res Hl. rewrite cancel_all_tasks, Hl. by case_decide.
  - apply cancel_all_results.
Qed.

Lemma worker_ok_shutdown_block s : core s -> worker_ok (shutdown_block s).
Proof.
  intros H. unfold worker_ok.
  destruct (shutdown_block_stores s) as (_ & -> & _).
  destruct (shutdown_block_fields s) as (_ & _ & _ & _ & [[-> Hr]|[-> Hr]]).
  - rewrite Hr. simpl. apply Forall_lookup. intros fut t Ht.
    destruct t as [ref st c| | |]; try done.
    apply (core_pending _ _ _ _ _ H) in Ht. rewrite Hr in Ht.
    by apply elem_of_nil in Ht.
  - intros fut ref st c. rewrite cancel_all_tasks.
    destruct (tasks s !! fut) as [[ref0 st0 c0| | |]|] eqn:Ht; try done;
      try (case_decide; done).
    rewrite decide_True.
    + simpl. by intros [= _ _ <-].
    + apply (core_pending _ _ _ _ _ H) in Ht.
      apply list_elem_of_fmap. by exists (fut, ref0).
Qed.

Lemma wf_loop_top s : core s -> wf (loop_top s).
Proof.
  intros H. unfold loop_top. destruct (_cancelled s).
  - split; [by apply core_shutdown_block|by apply worker_ok_shutdown_block].
  - split; [by apply core_gate|apply worker_ok_gate].
Qed.

Lemma done_set_done s : Forall (fun d => is_done s d = true) (done_set s).
Proof.
  unfold done_set. apply Forall_forall. intros d Hd.
  apply list_elem_of_fmap in Hd as (e & -> & He).
  by apply list_elem_of_filter in He as [He _].
Qed.

Lemma core_reap ds : forall s,
  core s -> Forall (fun d => is_done s d = true) ds -> core (reap ds s).
Proof.
  induction ds as [|d ds IH]; intros s H Hds; [done|].
  apply Forall_cons in Hds as [Hd Hds]. simpl.
  destruct (dict_get d (running s)) as [ref|] eqn:Hg; [|done].
  destruct (tasks s !! d) as [t|] eqn:Ht; [|done].
  unfold is_done in Hd.
  pose proof (core_ok_pop _ _ _ _ _ _ _ H Hg Hd) as Hpop.
  destruct (task_result t) as [msg|res] eqn:Hres; [done|].
  destruct t; try discriminate. injection Hres as ->.
  apply IH; [|done]. simpl. eapply core_ok_store; eauto.
  - apply (core_running _ _ _ _ _ H). by apply dict_get_Some.
  - intros fut Hin. apply elem_of_dict_pop in Hin as [Hne Hin]. simpl in Hne.
    apply Hne. eapply snd_inj_NoDup.
    + pose proof (core_ok_refs_NoDup _ _ _ _ _ H) as Hnd.
      apply NoDup_app in Hnd as (Hnd & _). exact Hnd.
    + apply (core_running _ _ _ _ _ H). exact Hin.
    + apply (core_running _ _ _ _ _ H). by apply dict_get_Some.
Qed.

Lemma wf_init cfg dir : wf (Scheduler_new cfg dir).
Proof.
  split; [split|exact I]; simpl; try done.
  - apply NoDup_nil_2.
  - intros fut ref He. by apply elem_of_nil in He.
Qed.

Lemma no_pending_if_exited s fut ref st c :
  worker_ok s -> worker s = Exited \/ worker s = AwaitGather ->
  tasks s !! fut = Some (Pending ref st c) -> c = true.
Proof.
  unfold worker_ok. intros Hw [E|E] Hl; rewrite E in Hw.
  - rewrite Forall_lookup in Hw. by specialize (Hw _ _ Hl).
  - eauto.
Qed.

Lemma worker_ok_tasks s t' :
  worker_ok s ->
  (forall fut ref st c, t' !! fut = Some (Pending ref st c) ->
     exists st0, tasks s !! fut = Some (Pending ref st0 c)) ->
  worker_ok (with_tasks t' s).
Proof.
  unfold worker_ok. simpl. intros Hw Hp. destruct (worker s); try done.
  - intros fut ref st c Hl. destruct (Hp _ _ _ _ Hl) as (st0 & Hl0). eauto.
  - apply Forall_lookup. intros fut t Hl.
    destruct t as [ref st c| | |]; try done.
    destruct (Hp _ _ _ _ Hl) as (st0 & Hl0).
    rewrite Forall_lookup in Hw. by specialize (Hw _ _ Hl0).
Qed.

Lemma wf_step s e s' : wf s -> step s e = Some s' -> wf s'.
Proof.
  intros [Hc Hw]. destruct e; simpl.
  - intros [= <-]. split; [|exact Hw]. simpl. by apply core_ok_add.
  - destruct (worker s); try discriminate; intros [= <-];
      by apply wf_loop_top.
  - intros [= <-]. by split.
  - unfold resume. destruct (worker s) eqn:Ew; try discriminate.
    + destruct (done_set s) as [|d ds] eqn:Ed; [discriminate|].
      pose proof (core_reap (d :: ds) s Hc) as Hr.
      rewrite <- Ed in Hr. specialize (Hr (done_set_done s)). rewrite Ed in Hr.
      revert Hr. generalize (reap (d :: ds) s) as s1. intros s1 Hr.
      destruct (worker s1) eqn:Ew1; intros [= <-];
        try (split; [by apply core_gate|apply worker_ok_gate]).
      split; [done|]. unfold worker_ok. by rewrite Ew1.
    + destruct (queue s) as [|x q] eqn:Eq; intros [= <-].
      * apply wf_loop_top. by rewrite Eq.
      * apply wf_loop_top. simpl. rewrite launches_app. simpl.
        apply core_ok_launch. exact Hc.
    + destruct (all_done s) eqn:Ea; [|discriminate]. intros [= <-].
      split; [done|]. unfold worker_ok. simpl.
      apply Forall_lookup. intros fut t Ht.
      destruct t as [ref st c| | |]; try done.
      apply (core_pending _ _ _ _ _ Hc) in Ht as Hin.
      unfold all_done in Ea. rewrite forallb_forall in Ea.
      apply list_elem_of_In in Hin. specialize (Ea _ Hin).
      unfold is_done in Ea. simpl in Ea. by rewrite Ht in Ea.
  - destruct (tasks s !! fut) as [[ref [] []| | |]|] eqn:Ht; try discriminate.
    intros [= <-].
    assert (worker s <> Exited /\ worker s <> AwaitGather) as [Hne1 Hne2].
    { split; intros E;
        by pose proof (no_pending_if_exited s _ _ _ _ Hw ltac:(auto) Ht). }
    split.
    + simpl. destruct (run_recorder_begin_frame ref s) as (_ & _ & -> & -> & _).
      assert (log (run_recorder_begin ref s) = log s) as ->
        by (unfold run_recorder_begin; by destruct (heap s !! ref)).
      eapply core_ok_heap; [eapply core_ok_tasks; [exact Hc|..]|..].
      * by rewrite length_insert.
      * intros fut' ref' st c Hl.
        apply list_lookup_insert_Some in Hl as [(-> & [= <- <- <-] & _)|[_ Hl]];
          eauto.
      * intros fut' res Hl. rewrite list_lookup_insert_ne; [done|].
        intros ->. by rewrite Ht in Hl.
      * unfold run_recorder_begin. destruct (heap s !! ref); simpl;
          by rewrite ?length_insert.
      * intros i. unfold run_recorder_begin.
        destruct (heap s !! ref) as [t|] eqn:Hh; [|done]. simpl.
        destruct (decide (ref = i)) as [<-|Hne].
        -- rewrite list_lookup_insert_eq by (by eapply lookup_lt_Some).
           by rewrite Hh.
        -- by rewrite list_lookup_insert_ne.
    + unfold worker_ok. simpl.
      destruct (run_recorder_begin_frame ref s) as (_ & _ & _ & _ & _ & ->).
      by destruct (worker s).
  - destruct (tasks s !! fut) as [[ref [] []| | |]|] eqn:Ht; try discriminate.
    intros [= <-]. split.
    + simpl. eapply core_ok_tasks; [exact Hc|..].
      * by rewrite length_insert.
      * intros fut' ref' st c Hl.
        apply list_lookup_insert_Some in Hl as [(_ & Hl & _)|[_ Hl]]; eauto.
        by destruct o.
      * intros fut' res Hl. rewrite list_lookup_insert_ne; [done|].
        intros ->. by rewrite Ht in Hl.
    + apply worker_ok_tasks; [done|]. intros fut' ref' st c Hl.
      apply list_lookup_insert_Some in Hl as [(_ & Hl & _)|[_ Hl]]; eauto.
      by destruct o.
  - destruct (tasks s !! fut) as [[ref ? []| | |]|] eqn:Ht; try discriminate.
    intros [= <-]. split.
    + simpl. eapply core_ok_tasks; [exact Hc|..].
      * by rewrite length_insert.
      * intros fut' ref' st c Hl.
        apply list_lookup_insert_Some in Hl as [(_ & Hl & _)|[_ Hl]]; eauto.
        done.
      * intros fut' res Hl. rewrite list_lookup_insert_ne; [done|].
        intros ->. by rewrite Ht in Hl.
    + apply worker_ok_tasks; [done|]. intros fut' ref' st c Hl.
      apply list_lookup_insert_Some in Hl as [(_ & Hl & _)|[_ Hl]]; eauto.
      done.
Qed.

Lemma wf_run es : forall s s', wf s -> run s es = Some s' -> wf s'.
Proof.
  induction es as [|e es IH]; intros s s' Hs; simpl.
  - by intros [= <-].
  - destruct (step s e) as [s1|] eqn:He; [|discriminate].
    apply IH. by eapply wf_step.
Qed.

End wf_steps.

Section jobs.

Variables (cfg : Config) (dir : string).

Implicit Types (s : Scheduler) (subs : list (string * string)).

Lemma job_of_set_result sub t r :
  job_of cfg dir sub t -> job_of cfg dir sub (set_result r t).
Proof. by destruct t. Qed.

Lemma job_of_cancel sub t :
  job_of cfg dir sub t -> job_of cfg dir sub (cancel_recorder t).
Proof.
  destruct t as [u q r f res]. unfold job_of, cancel_recorder, recorder_for.
  simpl. intros (? & ? & ? & [-> | [-> | ->]]); repeat split; auto.
Qed.

Lemma job_of_begin sub t :
  job_of cfg dir sub t ->
  job_of cfg dir sub (set_recorder (Some (recorder_for cfg dir t)) t).
Proof.
  destruct t as [u q r f res]. unfold job_of, recorder_for. simpl.
  intros (? & ? & ? & _). repeat split; auto.
Qed.

Lemma jobs_cancel_all subs (l : list (nat * nat)) : forall s,
  Forall2 (job_of cfg dir) subs (heap s) ->
  Forall2 (job_of cfg dir) subs (heap (foldl cancel_entry s l)).
Proof.
  induction l as [|[fut ref] l IH]; intros s H; [done|].
  change (foldl cancel_entry s ((fut, ref) :: l))
    with (foldl cancel_entry (cancel_entry s (fut, ref)) l).
  apply IH. rewrite cancel_entry_heap. apply Forall2_alter_r; [done|].
  intros sub t _ _. apply job_of_cancel.
Qed.

Lemma loop_top_download_dir s :
  scheduler_module.download_dir (loop_top s) = scheduler_module.download_dir s
  /\ scheduler_module.download_dir (gate s) = scheduler_module.download_dir s.
Proof.
  unfold loop_top, shutdown_block, gate.
  generalize (cancel_all_frame (running s) s).
  generalize (foldl cancel_entry s (running s)) as s1. intros s1 (_ & Hd & _).
  destruct (_cancelled s), (_ <=? _), (running s); simpl; done.
Qed.

Lemma jobs_ok_loop_top subs s :
  jobs_ok cfg dir subs s -> jobs_ok cfg dir subs (loop_top s).
Proof.
  intros (Hc & Hd & Hj). destruct (loop_top_fields s) as (Hc' & _).
  destruct (loop_top_download_dir s) as (Hd' & _).
  repeat split; [congruence|congruence|].
  unfold loop_top. destruct (_cancelled s).
  - destruct (shutdown_block_stores s) as (_ & _ & ->).
    by apply jobs_cancel_all.
  - by destruct (gate_fields s) as (_ & _ & _ & _ & -> & _).
Qed.

Lemma jobs_ok_gate subs s :
  jobs_ok cfg dir subs s -> jobs_ok cfg dir subs (gate s).
Proof.
  intros (Hc & Hd & Hj).
  destruct (gate_fields s) as (Hc' & _ & _ & _ & Hh & _).
  destruct (loop_top_download_dir s) as (_ & Hd').
  repeat split; [congruence|congruence|by rewrite Hh].
Qed.

Lemma jobs_ok_reap subs ds : forall s,
  jobs_ok cfg dir subs s -> jobs_ok cfg dir subs (reap ds s).
Proof.
  induction ds as [|d ds IH]; intros s H; [done|]. simpl.
  destruct (dict_get d (running s)) as [ref|]; [|done].
  destruct (tasks s !! d) as [t|]; [|done].
  destruct (task_result t) as [msg|res]; [done|].
  apply IH. destruct H as (Hc & Hd & Hj). repeat split; try done. simpl.
  apply Forall2_alter_r; [done|]. intros sub x _ _. apply job_of_set_result.
Qed.

Lemma jobs_ok_step subs s e s' :
  jobs_ok cfg dir subs s -> step s e = Some s' ->
  jobs_ok cfg dir (subs ++ submissions [e]) s'.
Proof.
  intros H. destruct e; simpl; rewrite ?app_nil_r.
  - intros [= <-]. destruct H as (Hc & Hd & Hj). repeat split; try done.
    simpl. apply Forall2_app; [done|]. repeat constructor.
  - destruct (worker s); try discriminate; intros [= <-];
      by apply jobs_ok_loop_top.
  - by intros [= <-].
  - unfold resume. destruct (worker s); try discriminate.
    + destruct (done_set s) as [|d ds]; [discriminate|].
      generalize (jobs_ok_reap subs (d :: ds) s H).
      generalize (reap (d :: ds) s) as s1. intros s1 H1.
      destruct (worker s1); intros [= <-]; try done; by apply jobs_ok_gate.
    + destruct (queue s) as [|x q]; intros [= <-]; by apply jobs_ok_loop_top.
    + destruct (all_done s); [|discriminate]. by intros [= <-].
  - destruct (tasks s !! fut) as [[ref [] []| | |]|]; try discriminate.
    intros [= <-]. destruct H as (Hc & Hd & Hj).
    unfold run_recorder_begin.
    destruct (heap s !! ref) as [t|] eqn:Ht; [|by repeat split].
    repeat split; try done. simpl. rewrite list_insert_alter.
    apply Forall2_alter_r; [done|]. intros sub x _ Hx Hjx.
    assert (x = t) as -> by congruence. rewrite Hc, Hd. by apply job_of_begin.
  - destruct (tasks s !! fut) as [[ref [] []| | |]|]; try discriminate.
    by intros [= <-].
  - destruct (tasks s !! fut) as [[ref ? []| | |]|]; try discriminate.
    by intros [= <-].
Qed.

Lemma jobs_ok_run es : forall subs s s',
  jobs_ok cfg dir subs s -> run s es = Some s' ->
  jobs_ok cfg dir (subs ++ submissions es) s'.
Proof.
  induction es as [|e es IH]; intros subs s s' Hs Hrun; simpl in Hrun.
  - injection Hrun as <-. by rewrite app_nil_r.
  - destruct (step s e) as [s1|] eqn:He; [|discriminate].
    pose proof (IH _ _ _ (jobs_ok_step _ _ _ _ Hs He) Hrun) as H.
    rewrite <- app_assoc in H.
    replace (submissions (e :: es)) with (submissions [e] ++ submissions es);
      [done|]. by destruct e.
Qed.

End jobs.

Section crash.

Lemma reap_crashes ds : forall s d msg,
  d ∈ ds -> tasks s !! d = Some (Failed msg) ->
  exists msg', worker (reap ds s) = Crashed msg'.
Proof.
  induction ds as [|d0 ds IH]; intros s d msg Hin Hd.
  - by apply elem_of_nil in Hin.
  - simpl. destruct (dict_get d0 (running s)) as [ref|]; [|simpl; eauto].
    destruct (tasks s !! d0) as [t|] eqn:Ht; [|simpl; eauto].
    destruct (task_result t) as [m|res] eqn:Hr; [simpl; eauto|].
    apply elem_of_cons in Hin as [->|Hin].
    + rewrite Hd in Ht. injection Ht as <-. discriminate Hr.
    + by apply (IH _ d msg).
Qed.

End crash.

(** *** Reachable states: what is collected, launched and left queued *)

Section reachable.

Implicit Types (s : Scheduler) (d : dict) (ds : list nat).

Lemma dict_get_elem k v (d : dict) :
  NoDup d.*1 -> (k, v) ∈ d -> dict_get k d = Some v.
Proof.
  unfold dict_get. induction d as [|[k' v'] d IH]; simpl; intros Hnd Hin.
  - by apply elem_of_nil in Hin.
  - apply NoDup_cons in Hnd as [Hk Hnd].
    apply elem_of_cons in Hin as [[= <- <-]|Hin].
    + by rewrite Nat.eqb_refl.
    + destruct (Nat.eqb_spec k' k) as [->|Hne]; [|auto].
      destruct Hk. apply list_elem_of_fmap. by exists (k, v).
Qed.

Lemma NoDup_refs_pop k (d : dict) : NoDup d.*2 -> NoDup (dict_pop k d).*2.
Proof.
  intros H. eapply sublist_NoDup; [exact H|].
  apply fmap_sublist. unfold dict_pop. apply sublist_filter.
Qed.

Lemma core_ok_running_refs (L r : list (nat * nat)) (q : list nat)
    (h : list RecordingTask) (t : list task_state) :
  core_ok L q r h t -> NoDup r.*2.
Proof.
  intros H. pose proof (core_ok_refs_NoDup _ _ _ _ _ H) as Hnd.
  apply NoDup_app in Hnd as (Hnd & _).
  apply NoDup_fmap_2_strong;
    [|eapply NoDup_fmap_1, (core_keys _ _ _ _ _ H)].
  intros [a c] [b c'] Ha Hb Heq. simpl in Heq. subst c'. f_equal.
  eapply snd_inj_NoDup; [exact Hnd|..]; by apply (core_running _ _ _ _ _ H).
Qed.

Lemma core_ok_fresh_key (L r : list (nat * nat)) (q : list nat)
    (h : list RecordingTask) (t : list task_state) :
  core_ok L q r h t -> length t ∉ r.*1.
Proof.
  intros H Hin. apply list_elem_of_fmap in Hin as ([k v] & Hk & Hin).
  simpl in Hk. subst k. apply (core_running _ _ _ _ _ H) in Hin.
  assert (length t ∈ L.*1) as Hl
    by (apply list_elem_of_fmap; by exists (length t, v)).
  rewrite (core_futs _ _ _ _ _ H) in Hl. apply elem_of_seq in Hl. lia.
Qed.

(** The done tasks, each once, are the entries of [running] whose task is
    done. *)
Lemma elem_of_done_set s fut :
  fut ∈ done_set s <-> is_done s fut = true /\ exists ref, (fut, ref) ∈ running s.
Proof.
  unfold done_set. rewrite list_elem_of_fmap. split.
  - intros ([k v] & -> & Hin). apply list_elem_of_filter in Hin as [Hd Hin].
    simpl in *. eauto.
  - intros [Hd [ref Hin]]. exists (fut, ref). split; [done|].
    by apply list_elem_of_filter.
Qed.

Lemma NoDup_done_set s : NoDup (running s).*1 -> NoDup (done_set s).
Proof.
  intros H. eapply sublist_NoDup; [exact H|].
  apply fmap_sublist. apply sublist_filter.
Qed.

(** The loop over the done tasks, where each of them returned: each is
    popped and its result stored on its job; nothing else changes. *)
Lemma reap_collects ds : forall s,
  NoDup (running s).*1 -> NoDup (running s).*2 -> NoDup ds ->
  (forall fut, fut ∈ ds ->
     exists ref r, (fut, ref) ∈ running s /\ tasks s !! fut = Some (Finished r)) ->
  worker (reap ds s) = worker s
  /\ (forall e, e ∈ running (reap ds s) <-> e ∈ running s /\ e.1 ∉ ds)
  /\ (forall fut ref r,
        fut ∈ ds -> (fut, ref) ∈ running s ->
        tasks s !! fut = Some (Finished r) ->
        heap (reap ds s) !! ref = set_result (Some r) <$> heap s !! ref)
  /\ (forall i, (forall fut, fut ∈ ds -> (fut, i) ∉ running s) ->
        heap (reap ds s) !! i = heap s !! i).
Proof.
  induction ds as [|d0 ds IH]; intros s Hk Hr Hnd Hds.
  - simpl. split; [done|]. split; [|split; [|done]].
    + intros e. split; [|tauto]. intros He. split; [done|].
      apply not_elem_of_nil.
    + intros fut ref r Hd. by apply elem_of_nil in Hd.
  - apply NoDup_cons in Hnd as [Hd0 Hnd].
    destruct (Hds d0 ltac:(apply list_elem_of_here))
      as (ref0 & r0 & Hin0 & Ht0).
    simpl. rewrite (dict_get_elem _ _ _ Hk Hin0), Ht0. simpl.
    match goal with |- context [reap ds ?x] => set (s1 := x) end.
    destruct (IH s1) as (Hw & Hrun & Hh1 & Hh2).
    { simpl. by apply NoDup_keys_pop. }
    { simpl. by apply NoDup_refs_pop. }
    { done. }
    { intros fut Hd.
      destruct (Hds fut ltac:(by apply list_elem_of_further))
        as (ref & r & Hin & Ht).
      exists ref, r. split; [|done]. simpl. apply elem_of_dict_pop.
      split; [|done]. simpl. by intros ->. }
    split; [exact Hw|]. split; [|split].
    + intros e. rewrite Hrun. simpl.
      rewrite elem_of_dict_pop, not_elem_of_cons. tauto.
    + intros fut ref r Hd Hin Ht. apply elem_of_cons in Hd as [->|Hd].
      * assert (ref = ref0) as ->.
        { pose proof (dict_get_elem _ _ _ Hk Hin) as E.
          rewrite (dict_get_elem _ _ _ Hk Hin0) in E. by injection E. }
        assert (r = r0) as -> by congruence.
        rewrite Hh2.
        -- simpl. by rewrite list_lookup_alter_eq.
        -- intros d' Hd' Hin'. simpl in Hin'.
           apply elem_of_dict_pop in Hin' as [Hne Hin']. simpl in Hne.
           apply Hne. by eapply snd_inj_NoDup.
      * assert (fut <> d0) as Hne by (by intros ->).
        rewrite (Hh1 fut ref r Hd); [|simpl; by apply elem_of_dict_pop|done].
        simpl. rewrite list_lookup_alter_ne; [done|]. intros <-.
        apply Hne. by eapply snd_inj_NoDup.
    + intros i Hi. rewrite Hh2.
      * simpl. rewrite list_lookup_alter_ne; [done|]. intros <-.
        by apply (Hi d0); [apply list_elem_of_here|].
      * intros fut Hd Hin. simpl in Hin.
        apply elem_of_dict_pop in Hin as [_ Hin].
        by apply (Hi fut); [apply list_elem_of_further|].
Qed.

(** The loop resumes from [asyncio.wait] with every done task one that
    returned: the done tasks leave [running], their results are stored,
    and the loop is back at [gate]. *)
Lemma step_collects s s' :
  wf s -> worker s = AwaitWait -> step s EvWorker = Some s' ->
  (forall fut, fut ∈ done_set s -> exists r, tasks s !! fut = Some (Finished r)) ->
  queue s' = queue s /\ tasks s' = tasks s
  /\ (forall e, e ∈ running s' <-> e ∈ running s /\ is_done s e.1 = false)
  /\ (forall fut ref r,
        (fut, ref) ∈ running s -> tasks s !! fut = Some (Finished r) ->
        heap s' !! ref = set_result (Some r) <$> heap s !! ref)
  /\ (forall i, (forall fut, (fut, i) ∈ running s -> is_done s fut = false) ->
        heap s' !! i = heap s !! i).
Proof.
  intros [Hc _] Hw Hstep Hfin. simpl in Hstep. unfold resume in Hstep.
  rewrite Hw in Hstep.
  destruct (reap_collects (done_set s) s) as (Hw1 & Hrun & Hh1 & Hh2).
  { apply (core_keys _ _ _ _ _ Hc). }
  { by eapply core_ok_running_refs. }
  { apply NoDup_done_set, (core_keys _ _ _ _ _ Hc). }
  { intros fut Hd. destruct (Hfin _ Hd) as [r Hr].
    apply elem_of_done_set in Hd as (_ & ref & Hin). eauto. }
  destruct (reap_fields (done_set s) s) as (_ & Hq & _ & Ht & _).
  assert (s' = gate (reap (done_set s) s)) as ->.
  { destruct (done_set s); [discriminate|]. cbv zeta in Hstep.
    rewrite Hw1, Hw in Hstep. by injection Hstep. }
  revert Hw1 Hrun Hh1 Hh2 Hq Ht.
  generalize (reap (done_set s) s) as s1. intros s1 Hw1 Hrun Hh1 Hh2 Hq Ht.
  destruct (gate_fields s1) as (_ & -> & -> & _ & -> & ->).
  split; [done|]. split; [done|]. split; [|split].
  - intros [fut ref]. rewrite Hrun, elem_of_done_set. simpl. split.
    + intros [Hin Hnd]. split; [done|].
      destruct (is_done s fut) eqn:E; [|done]. destruct Hnd. eauto.
    + intros [Hin Hd]. split; [done|]. intros [Hd' _]. congruence.
  - intros fut ref r Hin Hr. apply (Hh1 fut); [|done..].
    apply elem_of_done_set. split; [|eauto]. unfold is_done. by rewrite Hr.
  - intros i Hi. apply Hh2. intros fut Hd Hin.
    apply elem_of_done_set in Hd as [Hd _]. rewrite (Hi _ Hin) in Hd. done.
Qed.

Lemma waits_at_limit_gate s : waits_at_limit (gate s).
Proof.
  unfold waits_at_limit.
  destruct (gate_fields s) as (-> & _ & -> & _).
  destruct (gate_worker s) as [[-> _]|[_ H]]; [discriminate|done].
Qed.

Lemma waits_at_limit_loop_top s : waits_at_limit (loop_top s).
Proof.
  unfold loop_top. destruct (_cancelled s); [|apply waits_at_limit_gate].
  unfold waits_at_limit.
  destruct (shutdown_block_fields s) as (_ & _ & _ & _ & [[-> _]|[-> _]]);
    discriminate.
Qed.

Lemma waits_at_limit_step s e s' :
  waits_at_limit s -> step s e = Some s' -> waits_at_limit s'.
Proof.
  intros H. destruct e; simpl.
  - by intros [= <-].
  - destruct (worker s); try discriminate; intros [= <-];
      apply waits_at_limit_loop_top.
  - by intros [= <-].
  - unfold resume. destruct (worker s) eqn:Ew; try discriminate.
    + destruct (done_set s) as [|d ds]; [discriminate|].
      generalize (reap (d :: ds) s) as s1. intros s1.
      destruct (worker s1) eqn:Ew1; intros [= <-];
        try apply waits_at_limit_gate.
      unfold waits_at_limit. by rewrite Ew1.
    + destruct (queue s); intros [= <-]; apply waits_at_limit_loop_top.
    + destruct (all_done s); [|discriminate]. by intros [= <-].
  - destruct (tasks s !! fut) as [[ref [] []| | |]|]; try discriminate.
    intros [= <-]. unfold waits_at_limit. simpl.
    by destruct (run_recorder_begin_frame ref s) as (-> & _ & _ & -> & _ & ->).
  - destruct (tasks s !! fut) as [[ref [] []| | |]|]; try discriminate.
    by intros [= <-].
  - destruct (tasks s !! fut) as [[ref ? []| | |]|]; try discriminate.
    by intros [= <-].
Qed.

Lemma waits_at_limit_run es : forall s s',
  waits_at_limit s -> run s es = Some s' -> waits_at_limit s'.
Proof.
  induction es as [|e es IH]; intros s s' Hs; simpl.
  - by intros [= <-].
  - destruct (step s e) as [s1|] eqn:He; [|discriminate].
    apply IH. by eapply waits_at_limit_step.
Qed.

Lemma run_recorder_begin_results ref s i :
  result <$> heap (run_recorder_begin ref s) !! i = result <$> heap s !! i.
Proof.
  unfold run_recorder_begin. destruct (heap s !! ref) as [t|] eqn:Hh; [|done].
  simpl. destruct (decide (ref = i)) as [<-|Hne].
  - rewrite list_lookup_insert_eq by (by eapply lookup_lt_Some).
    by rewrite Hh.
  - by rewrite list_lookup_insert_ne.
Qed.

Lemma loop_top_results s i :
  result <$> heap (loop_top s) !! i = result <$> heap s !! i.
Proof.
  unfold loop_top. destruct (_cancelled s).
  - apply shutdown_block_cancels.
  - by destruct (gate_fields s) as (_ & _ & _ & _ & -> & _).
Qed.

(** Any step but the loop's return from [asyncio.wait] keeps every entry
    of [running] and every job's result. *)
Lemma step_keeps s e s' :
  wf s -> step s e = Some s' ->
  (e = EvWorker -> worker s <> AwaitWait) ->
  (forall x, x ∈ running s -> x ∈ running s')
  /\ (forall i t, heap s !! i = Some t ->
        result <$> heap s' !! i = Some (result t)).
Proof.
  intros [Hc _] Hstep Hne.
  enough ((forall x, x ∈ running s -> x ∈ running s')
          /\ (forall i, (i < length (heap s))%nat ->
                result <$> heap s' !! i = result <$> heap s !! i)) as [H1 H2].
  { split; [done|]. intros i t Ht. rewrite H2, Ht; [done|].
    by eapply lookup_lt_Some. }
  destruct e; simpl in Hstep.
  - injection Hstep as <-. split; [done|]. intros i Hi. simpl.
    by rewrite lookup_app_l.
  - destruct (worker s); try discriminate; injection Hstep as <-;
      (split; [by destruct (loop_top_fields (with_cancelled false s))
                    as (_ & _ & -> & _)
              |intros i _; by rewrite loop_top_results]).
  - by injection Hstep as <-.
  - unfold resume in Hstep. destruct (worker s) eqn:Ew; try discriminate.
    + by destruct Hne.
    + destruct (queue s) as [|x q]; injection Hstep as <-.
      * split; [by destruct (loop_top_fields s) as (_ & _ & -> & _)
               |intros i _; by rewrite loop_top_results].
      * split.
        -- match goal with |- context [loop_top ?x] =>
             destruct (loop_top_fields x) as (_ & _ & -> & _) end.
           simpl. rewrite dict_set_fresh by (by eapply core_ok_fresh_key).
           intros x0 Hx. apply elem_of_app. by left.
        -- intros i _. by rewrite loop_top_results.
    + destruct (all_done s); [|discriminate]. by injection Hstep as <-.
  - destruct (tasks s !! fut) as [[ref [] []| | |]|]; try discriminate.
    injection Hstep as <-. simpl. split.
    + by destruct (run_recorder_begin_frame ref s) as (_ & _ & _ & -> & _).
    + intros i _. apply run_recorder_begin_results.
  - destruct (tasks s !! fut) as [[ref [] []| | |]|]; try discriminate.
    by injection Hstep as <-.
  - destruct (tasks s !! fut) as [[ref ? []| | |]|]; try discriminate.
    by injection Hstep as <-.
Qed.

Lemma reap_recorders ds : forall s i,
  recorder <$> heap (reap ds s) !! i = recorder <$> heap s !! i.
Proof.
  induction ds as [|d ds IH]; intros s i; [done|]. simpl.
  destruct (dict_get d (running s)) as [ref|]; [|done].
  destruct (tasks s !! d) as [t|]; [|done].
  destruct (task_result t) as [msg|res]; [done|].
  rewrite IH. simpl. rewrite list_lookup_alter.
  case_decide; [subst i|done]. by destruct (heap s !! ref).
Qed.

(** From the wait at the limit the loop goes back to [gate]: it does not
    test the flag, and it cancels nothing. *)
Lemma await_wait_step s s' :
  worker s = AwaitWait -> step s EvWorker = Some s' ->
  tasks s' = tasks s /\ _cancelled s' = _cancelled s
  /\ (forall i, recorder <$> heap s' !! i = recorder <$> heap s !! i)
  /\ (worker s' = AwaitWait \/ worker s' = AwaitGet
      \/ exists msg, worker s' = Crashed msg).
Proof.
  intros Hw Hstep. simpl in Hstep. unfold resume in Hstep. rewrite Hw in Hstep.
  destruct (done_set s) as [|d ds]; [discriminate|]. cbv zeta in Hstep.
  destruct (reap_fields (d :: ds) s) as (_ & _ & Hx & Ht & _).
  pose proof (reap_recorders (d :: ds) s) as Hr.
  revert Hstep Hx Ht Hr. generalize (reap (d :: ds) s) as s1.
  intros s1 Hstep Hx Ht Hr.
  destruct (worker s1) eqn:Ew1; injection Hstep as <-;
    try (destruct (gate_fields s1) as (_ & _ & _ & -> & -> & ->);
         split; [done|]; split; [done|]; split; [done|];
         unfold gate; destruct (_ <=? _); [destruct (running s1)|]; simpl;
         eauto).
  repeat split; eauto.
Qed.

(** The jobs after the loop over [running] of the shutdown block: the
    recorder of each job in [running] has had [cancel()] called on it. *)
Lemma cancel_all_heap (l : dict) : forall s i,
  heap (foldl cancel_entry s l) !! i
  = (if decide (i ∈ l.*2) then cancel_recorder else id) <$> heap s !! i.
Proof.
  induction l as [|[fut ref] l IH]; intros s i.
  - simpl. by destruct (heap s !! i).
  - change (foldl cancel_entry s ((fut, ref) :: l))
      with (foldl cancel_entry (cancel_entry s (fut, ref)) l).
    change (((fut, ref) :: l).*2) with (ref :: l.*2).
    rewrite IH, cancel_entry_heap, list_lookup_alter.
    destruct (decide (ref = i)) as [->|Hne].
    + rewrite (decide_True (P := i ∈ i :: l.*2)) by apply list_elem_of_here.
      destruct (heap s !! i); simpl; [|done].
      case_decide; simpl; by rewrite ?cancel_recorder_twice.
    + destruct (decide (i ∈ l.*2)) as [Hin|Hout].
      * by rewrite decide_True by (by apply list_elem_of_further).
      * rewrite decide_False; [done|].
        rewrite elem_of_cons. by intros [?|?].
Qed.

Lemma shutdown_block_heap s i :
  heap (shutdown_block s) !! i
  = (if decide (i ∈ (running s).*2) then cancel_recorder else id)
      <$> heap s !! i.
Proof.
  destruct (shutdown_block_stores s) as (_ & _ & ->). apply cancel_all_heap.
Qed.

Lemma recorders_ok_next s s' :
  recorders_ok s ->
  (forall x, x ∈ launches (log s) -> x ∈ launches (log s')) ->
  (forall i t', heap s' !! i = Some t' -> is_Some (recorder t') ->
     i ∈ (launches (log s')).*2
     \/ exists t, heap s !! i = Some t /\ is_Some (recorder t)) ->
  recorders_ok s'.
Proof.
  intros H Hl Hh i t' Ht' Hr. destruct (Hh i t' Ht' Hr) as [?|(t & Ht & Hrt)];
    [done|].
  apply (H i t Ht) in Hrt. apply list_elem_of_fmap in Hrt as (x & -> & Hx).
  apply list_elem_of_fmap. exists x. auto.
Qed.

Lemma recorders_ok_same s s' :
  recorders_ok s ->
  launches (log s') = launches (log s) ->
  (forall i, recorder <$> heap s' !! i = recorder <$> heap s !! i) ->
  recorders_ok s'.
Proof.
  intros H Hl Hh. apply (recorders_ok_next s); [done|by rewrite Hl|].
  intros i t' Ht' Hr. right. specialize (Hh i). rewrite Ht' in Hh.
  destruct (heap s !! i) as [t|]; [|done]. injection Hh as Hh.
  exists t. split; [done|]. by rewrite <- Hh.
Qed.

Lemma recorders_ok_gate s : recorders_ok s -> recorders_ok (gate s).
Proof.
  intros H. apply (recorders_ok_same s); [done|apply launches_gate|].
  by destruct (gate_fields s) as (_ & _ & _ & _ & -> & _).
Qed.

Lemma recorders_ok_loop_top s : recorders_ok s -> recorders_ok (loop_top s).
Proof.
  intros H. unfold loop_top.
  destruct (_cancelled s); [|by apply recorders_ok_gate].
  apply (recorders_ok_next s); [done|..].
  - by destruct (shutdown_block_stores s) as (-> & _).
  - intros i t' Ht' Hr. right. rewrite shutdown_block_heap in Ht'.
    destruct (heap s !! i) as [t|]; [|done]. exists t. split; [done|].
    simpl in Ht'. injection Ht' as <-.
    case_decide; [|done]. destruct t as [u q [r|] f res]; [done|].
    by destruct Hr.
Qed.

Lemma recorders_ok_step s e s' :
  wf s -> recorders_ok s -> step s e = Some s' -> recorders_ok s'.
Proof.
  intros [Hc _] H. destruct e; simpl.
  - intros [= <-]. apply (recorders_ok_next s); [done|done|].
    intros i t' Ht' Hr. right. simpl in Ht'.
    apply lookup_app_Some in Ht' as [Ht'|[_ Ht']]; [eauto|].
    destruct (i - length (heap s))%nat; simpl in Ht'; [|done].
    injection Ht' as <-. by destruct Hr.
  - destruct (worker s); try discriminate; intros [= <-];
      by apply recorders_ok_loop_top.
  - by intros [= <-].
  - unfold resume. destruct (worker s) eqn:Ew; try discriminate.
    + destruct (done_set s) as [|d ds]; [discriminate|]. cbv zeta.
      assert (recorders_ok (reap (d :: ds) s)) as H1.
      { apply (recorders_ok_same s); [done| |apply reap_recorders].
        by destruct (reap_fields (d :: ds) s) as (_ & _ & _ & _ & -> & _). }
      revert H1. generalize (reap (d :: ds) s) as s1. intros s1 H1.
      destruct (worker s1); intros [= <-]; try done;
        by apply recorders_ok_gate.
    + destruct (queue s) as [|x q]; intros [= <-];
        apply recorders_ok_loop_top; [done|].
      apply (recorders_ok_next s); [done|..].
      * simpl. rewrite launches_app. intros y Hy. apply elem_of_app. by left.
      * intros i t' Ht' Hr. right. eauto.
    + destruct (all_done s); [|discriminate]. by intros [= <-].
  - destruct (tasks s !! fut) as [[ref [] []| | |]|] eqn:Ht; try discriminate.
    intros [= <-]. apply (recorders_ok_next s); [done|..].
    + simpl. unfold run_recorder_begin. by destruct (heap s !! ref).
    + intros i t' Ht' Hr. simpl in Ht'. unfold run_recorder_begin in *.
      destruct (heap s !! ref) as [t|] eqn:Hh; simpl in *; [|eauto].
      destruct (decide (ref = i)) as [<-|Hne].
      * left. apply list_elem_of_fmap. exists (fut, ref). split; [done|].
        apply (core_running _ _ _ _ _ Hc).
        by apply (core_pending _ _ _ _ _ Hc) in Ht.
      * rewrite list_lookup_insert_ne in Ht' by done. eauto.
  - destruct (tasks s !! fut) as [[ref [] []| | |]|]; try discriminate.
    by intros [= <-].
  - destruct (tasks s !! fut) as [[ref ? []| | |]|]; try discriminate.
    by intros [= <-].
Qed.

Lemma recorders_ok_run es : forall s s',
  wf s -> recorders_ok s -> run s es = Some s' -> recorders_ok s'.
Proof.
  induction es as [|e es IH]; intros s s' Hwf Hs; simpl.
  - by intros [= <-].
  - destruct (step s e) as [s1|] eqn:He; [|discriminate].
    apply IH; [by eapply wf_step|by eapply recorders_ok_step].
Qed.

(** A job still queued is as [add_recording] made it. *)
Lemma queued_job_is_fresh cfg dir es s ref :
  run (Scheduler_new cfg dir) es = Some s -> ref ∈ queue s ->
  exists sub,
    submissions es !! ref = Some sub /\ heap s !! ref = Some (fresh_job sub).
Proof.
  intros Hrun Hq.
  destruct (wf_run es _ _ (wf_init cfg dir) Hrun) as [Hc _].
  assert (recorders_ok s) as Hrec.
  { eapply recorders_ok_run; [apply wf_init| |exact Hrun].
    intros i t Ht. simpl in Ht. by rewrite lookup_nil in Ht. }
  assert (jobs_ok cfg dir [] (Scheduler_new cfg dir)) as H0
    by (repeat split; constructor).
  destruct (jobs_ok_run cfg dir es _ _ _ H0 Hrun) as (_ & _ & Hj).
  simpl in Hj.
  pose proof (core_ok_refs_NoDup _ _ _ _ _ Hc) as Hnd.
  apply NoDup_app in Hnd as (_ & Hdisj & _).
  assert (ref ∈ seq 0 (length (heap s))) as Hlt.
  { rewrite <- (core_refs _ _ _ _ _ Hc). apply elem_of_app. by right. }
  apply elem_of_seq in Hlt.
  destruct (lookup_lt_is_Some_2 (heap s) ref ltac:(lia)) as [t Ht].
  destruct (Forall2_lookup_r _ _ _ _ _ Hj Ht) as (sub & Hsub & Hjob).
  exists sub. split; [done|]. rewrite Ht. f_equal.
  destruct Hjob as (Hu & Hqu & Hf & _).
  assert (recorder t = None) as Hr.
  { destruct (recorder t) as [r|] eqn:E; [|done].
    destruct (Hdisj ref); [|done]. apply (Hrec ref t Ht). by rewrite E. }
  assert (result t = None) as Hres.
  { destruct (result t) as [res|] eqn:E; [|done].
    destruct (core_result _ _ _ _ _ Hc ref res) as (fut & Hin & _);
      [by rewrite Ht; simpl; rewrite E|].
    destruct (Hdisj ref); [|done]. apply list_elem_of_fmap. by exists (fut, ref). }
  destruct t; unfold fresh_job; simpl in *; by subst.
Qed.

End reachable.

(** *** Retry, backoff, shutdown and cancellation over every run *)

(** C2, as the code has it. The scheduler has no retry path. No step other
    than a caller's [add_recording] puts a job on the queue (the worker
    loop only takes the head off); in every run no job is launched twice
    and no launched job is in the queue, so a job that failed is not run
    again; and no step reads [retry_max_attempts] or the backoff base.
    Tasks that have ended are collected only where the loop waits with the
    limit reached: if each of the done tasks returned a result, the loop
    removes them from [running] and stores each result on its job, with
    the queue, the tasks and the other jobs as before. Every other step
    keeps each entry of [running] and each job's result, so below the
    limit a finished job stays in [running] with no result stored. *)
Theorem completed_job_is_collected_not_requeued :
  (forall s e s',
      step s e = Some s' -> submission e = false ->
      queue s' = queue s \/ queue s' = drop 1 (queue s))
  /\ (forall cfg dir es s,
        run (Scheduler_new cfg dir) es = Some s ->
        NoDup ((launches (log s)).*2 ++ queue s))
  /\ (forall cfg dir es s s',
        run (Scheduler_new cfg dir) es = Some s ->
        worker s = AwaitWait -> step s EvWorker = Some s' ->
        concurrency_limit (config s) <= Z.of_nat (length (running s))
        /\ ((forall fut, fut ∈ done_set s ->
               exists r, tasks s !! fut = Some (Finished r)) ->
            queue s' = queue s /\ tasks s' = tasks s
            /\ (forall e,
                  e ∈ running s' <-> e ∈ running s /\ is_done s e.1 = false)
            /\ (forall fut ref r,
                  (fut, ref) ∈ running s ->
                  tasks s !! fut = Some (Finished r) ->
                  heap s' !! ref = set_result (Some r) <$> heap s !! ref)
            /\ (forall i,
                  (forall fut, (fut, i) ∈ running s -> is_done s fut = false) ->
                  heap s' !! i = heap s !! i)))
  /\ (forall cfg dir es s e s',
        run (Scheduler_new cfg dir) es = Some s ->
        step s e = Some s' -> (e = EvWorker -> worker s <> AwaitWait) ->
        (forall x, x ∈ running s -> x ∈ running s')
        /\ (forall i t,
              heap s !! i = Some t ->
              result <$> heap s' !! i = Some (result t)))
  /\ (forall m b s e, step (retune m b s) e = retune m b <$> step s e).
Proof.
  split; [exact queue_step|]. split; [|split; [|split; [|exact step_retune]]].
  - intros cfg dir es s Hrun.
    destruct (wf_run es _ _ (wf_init cfg dir) Hrun) as [Hc _].
    by eapply core_ok_refs_NoDup.
  - intros cfg dir es s s' Hrun Hw Hstep. split.
    + by apply (waits_at_limit_run es (Scheduler_new cfg dir) s).
    + apply step_collects; [|done..].
      exact (wf_run es _ _ (wf_init cfg dir) Hrun).
  - intros cfg dir es s e s' Hrun. apply step_keeps.
    exact (wf_run es _ _ (wf_init cfg dir) Hrun).
Qed.

Lemma completed_job_is_collected_not_requeued_witness :
  from_option
    (fun s =>
       from_option
         (fun s' =>
            heap s' !! 0%nat
            = set_result (Some failed_result) <$> heap s !! 0%nat)
         False (step s EvWorker))
    False (run (Scheduler_new config_limit_1 "/rec") one_failure).
Proof.
  destruct (run (Scheduler_new config_limit_1 "/rec") one_failure)
    as [s|] eqn:E; [|vm_compute in E; discriminate E].
  pose proof E as E0. vm_compute in E0. injection E0 as <-.
  unfold from_option at 1.
  match goal with |- from_option _ _ (step ?x _) =>
    destruct (step x EvWorker) as [s'|] eqn:E' end;
    [|vm_compute in E'; discriminate E'].
  unfold from_option.
  refine (proj1 (proj2 (proj2 (proj2
            (proj2 (proj1 (proj2 (proj2
               completed_job_is_collected_not_requeued))
               _ _ _ _ s' E eq_refl E') _))))
            0%nat 0%nat failed_result _ eq_refl).
  - intros fut Hfut. vm_compute in Hfut.
    apply list_elem_of_singleton in Hfut as ->. by eexists.
  - apply list_elem_of_here.
Defined.

(** C2, the claim as written fails: with [retry_max_attempts = 3], a job
    whose first attempt failed is, under a limit of 1, collected with its
    failed result and, whatever happens next short of a new submission,
    never queued or run again; under a limit of 2 it is not even
    collected: it stays in [running] with no result, launched once. *)
Lemma failed_job_is_never_run_again :
  (exists s,
     run (Scheduler_new config_limit_1 "/rec") (one_failure ++ [EvWorker])
     = Some s
     /\ retry_max_attempts (config s) = 3
     /\ (result <$> heap s !! 0%nat) = Some (Some failed_result)
     /\ success failed_result = false
     /\ forall es s',
         Forall (fun e => submission e = false) es ->
         run s es = Some s' ->
         queue s' = [] /\ running s' = []
         /\ tasks s' = [Finished failed_result]
         /\ (result <$> heap s' !! 0%nat) = Some (Some failed_result))
  /\ (exists s,
        run (Scheduler_new config_limit_2 "/rec")
          (one_failure ++ [EvWorker; EvWorker; EvWorker]) = Some s
        /\ retry_max_attempts (config s) = 3
        /\ worker s = AwaitGet /\ queue s = []
        /\ running s = [(0, 0)]%nat
        /\ tasks s = [Finished failed_result]
        /\ (result <$> heap s !! 0%nat) = Some None
        /\ launches (log s) = [(0, 0)]%nat).
Proof.
  split.
  - eexists. split; [vm_compute; reflexivity|].
    split; [reflexivity|]. split; [reflexivity|]. split; [reflexivity|].
    intros es s' Hes Hrun.
    match type of Hrun with run ?s0 _ = _ =>
      assert (at_rest s0) as Hrest by (repeat split; repeat constructor) end.
    destruct (at_rest_run es _ s' Hrest Hrun Hes) as ((Hq & Hr & _) & Hh & Ht).
    rewrite Hq, Hr, Hh, Ht. repeat split.
  - eexists. split; [vm_compute; reflexivity|]. repeat split.
Qed.

(** C5, as the code has it. [Config] stores the backoff base as it is
    given (5.0 by default), and the worker loop computes no retry delay
    from it: in every run, for every configuration, each timed wait of
    the loop is the fixed half-second timeout on the queue, no job (so no
    failed job) is launched a second time, and the run is the same under
    any other backoff base (and retry count). *)
Theorem worker_waits_ignore_backoff (cfg : Config) (dir : string)
    (es : list event) (s : Scheduler) :
  run (Scheduler_new cfg dir) es = Some s ->
  (forall home a c,
      Config_new home a = inr c ->
      backoff_base_seconds c
      = default (5 # 1)%Q (arg_backoff_base_seconds a))
  /\ (forall d, In d (timed_waits (log s)) -> d = (1 # 2)%Q)
  /\ NoDup (launches (log s)).*2
  /\ (forall m b,
        run (Scheduler_new (retuned m b cfg) dir) es = Some (retune m b s)).
Proof.
  intros Hrun. split; [|split; [|split]].
  - intros home a c H. by apply Config_new_inr in H as (_ & _ & _ & H).
  - assert (plain_log s) as Hs.
    { eapply plain_run; [|exact Hrun]. constructor. }
    intros d Hd. apply list_elem_of_In in Hd.
    unfold timed_waits in Hd. apply list_elem_of_omap in Hd as (a & Ha & Hd).
    unfold plain_log in Hs. rewrite Forall_forall in Hs.
    specialize (Hs a Ha). destruct a; try discriminate.
    injection Hd as <-. exact Hs.
  - destruct (wf_run es _ _ (wf_init cfg dir) Hrun) as [Hc _].
    apply core_ok_refs_NoDup in Hc. by apply NoDup_app in Hc as (Hc & _).
  - intros m b.
    change (Scheduler_new (retuned m b cfg) dir)
      with (retune m b (Scheduler_new cfg dir)).
    by rewrite run_retune, Hrun.
Qed.

Lemma worker_waits_ignore_backoff_witness :
  from_option
    (fun s => (forall home a c,
                 Config_new home a = inr c ->
                 backoff_base_seconds c
                 = default (5 # 1)%Q (arg_backoff_base_seconds a))
              /\ (forall d, In d (timed_waits (log s)) -> d = (1 # 2)%Q)
              /\ NoDup (launches (log s)).*2
              /\ (forall m b,
                    run (Scheduler_new (retuned m b config_limit_1) "/rec")
                      one_failure = Some (retune m b s)))
    False (run (Scheduler_new config_limit_1 "/rec") one_failure).
Proof.
  destruct (run (Scheduler_new config_limit_1 "/rec") one_failure) as [s|] eqn:E.
  - unfold from_option.
    exact (worker_waits_ignore_backoff config_limit_1 "/rec" one_failure s E).
  - vm_compute in E. discriminate E.
Defined.

(** C5, the claim as written fails: with a backoff base of 2, after the
    failure of the first attempt the claimed delay is 2 seconds; the loop
    makes only its half-second waits on the queue, and no second attempt is
    ever launched. *)
Lemma no_backoff_delay_after_failure :
  exists s,
    run (Scheduler_new config_limit_1 "/rec")
      (one_failure ++ [EvWorker; EvWorker; EvWorker]) = Some s
    /\ backoff_base_seconds (config s) = (2 # 1)%Q
    /\ timed_waits (log s) = [(1 # 2); (1 # 2); (1 # 2); (1 # 2)]%Q
    /\ Forall (fun d => ~ (d == (2 # 1) * 2 ^ (1 - 1))%Q) (timed_waits (log s))
    /\ launches (log s) = [(0%nat, 0%nat)].
Proof.
  eexists. split; [vm_compute; reflexivity|].
  repeat split; repeat constructor; intros H; vm_compute in H; discriminate H.
Qed.

(** C3, as the code has it. [shutdown()] only sets the flag and returns:
    queue, running tasks, jobs and the worker loop are as before. The
    worker loop tests the flag at the top of its outer loop only: from its
    wait at the limit it goes back to [gate], cancelling nothing, and
    from its wait on the queue it first launches the job it got, if any,
    and then tests the flag. With the flag set it runs the shutdown
    block: on every entry of [running] it calls [cancel()] on the job's
    recorder, where there is one, and [cancel()] on the task; the other
    tasks and jobs, the queue, [running] and every result are as before;
    then it waits in [gather]. From then on the loop takes nothing off
    the queue, and it ends only when every task in [running] is done. In
    every run a job that is still queued is as [add_recording] made it:
    no recorder, no result. *)
Theorem shutdown_sets_flag_and_loop_cancels_running :
  (forall s,
      step s EvShutdown = Some (shutdown s)
      /\ _cancelled (shutdown s) = true
      /\ queue (shutdown s) = queue s /\ running (shutdown s) = running s
      /\ tasks (shutdown s) = tasks s /\ heap (shutdown s) = heap s
      /\ worker (shutdown s) = worker s)
  /\ (forall s s',
        worker s = AwaitWait -> step s EvWorker = Some s' ->
        tasks s' = tasks s /\ _cancelled s' = _cancelled s
        /\ (forall i, recorder <$> heap s' !! i = recorder <$> heap s !! i)
        /\ (worker s' = AwaitWait \/ worker s' = AwaitGet
            \/ exists msg, worker s' = Crashed msg))
  /\ (forall s,
        worker s = AwaitGet ->
        step s EvWorker
        = Some (loop_top match queue s with
                         | [] => s
                         | next_task :: q => launch next_task (with_queue q s)
                         end))
  /\ (forall s, _cancelled s = true -> loop_top s = shutdown_block s)
  /\ (forall s, _cancelled s = false -> loop_top s = gate s)
  /\ (forall s,
        queue (shutdown_block s) = queue s
        /\ running (shutdown_block s) = running s
        /\ (forall fut ref t,
              (fut, ref) ∈ running s -> tasks s !! fut = Some t ->
              tasks (shutdown_block s) !! fut = Some (task_cancel t))
        /\ (forall fut,
              fut ∉ (running s).*1 ->
              tasks (shutdown_block s) !! fut = tasks s !! fut)
        /\ (forall fut ref t,
              (fut, ref) ∈ running s -> heap s !! ref = Some t ->
              heap (shutdown_block s) !! ref = Some (cancel_recorder t))
        /\ (forall ref,
              ref ∉ (running s).*2 ->
              heap (shutdown_block s) !! ref = heap s !! ref)
        /\ (forall i,
              result <$> heap (shutdown_block s) !! i = result <$> heap s !! i)
        /\ (worker (shutdown_block s) = Exited /\ running s = []
            \/ worker (shutdown_block s) = AwaitGather /\ running s <> []))
  /\ (forall s e s',
        worker s = AwaitGather -> step s e = Some s' ->
        (exists l, queue s' = queue s ++ l)
        /\ running s' = running s
        /\ (worker s' = AwaitGather
            \/ worker s' = Exited /\ all_done s = true))
  /\ (forall cfg dir es s ref,
        run (Scheduler_new cfg dir) es = Some s -> ref ∈ queue s ->
        exists sub,
          submissions es !! ref = Some sub
          /\ heap s !! ref = Some (fresh_job sub)).
Proof.
  split; [by intros s|]. split; [exact await_wait_step|]. split.
  { intros s Hw. simpl. unfold resume. rewrite Hw. by destruct (queue s). }
  split.
  { intros s H. unfold loop_top. by rewrite H. }
  split.
  { intros s H. unfold loop_top. by rewrite H. }
  split; [|split; [exact gather_step|exact queued_job_is_fresh]].
  intros s. destruct (shutdown_block_fields s) as (_ & Hq & Hr & _ & Hw).
  destruct (shutdown_block_cancels s) as [Ht Hh].
  destruct (shutdown_block_stores s) as (_ & Hts & _).
  repeat (split; [done|]). split; [|split; [|split; [|split; [done|done]]]].
  - intros fut Hout. rewrite Hts, cancel_all_tasks.
    rewrite decide_False by done. by destruct (tasks s !! fut).
  - intros fut ref t Hin Hl. rewrite shutdown_block_heap, Hl.
    rewrite decide_True; [done|].
    apply list_elem_of_fmap. by exists (fut, ref).
  - intros ref Hout. rewrite shutdown_block_heap.
    rewrite decide_False by done. by destruct (heap s !! ref).
Qed.

Lemma shutdown_sets_flag_and_loop_cancels_running_witness :
  from_option
    (fun s =>
       tasks (shutdown_block s) !! 1%nat
       = Some (task_cancel (Pending 1 true false))
       /\ (recorder <$> heap (shutdown_block s) !! 1%nat)
          = Some (Some (cancel (StreamRecorder_new "https://example.com/1"
                                  "/rec" 30 "best" None 23))))
    False (run (Scheduler_new config_limit_2 "/rec") scenario_E).
Proof.
  destruct (run (Scheduler_new config_limit_2 "/rec") scenario_E) as [s|] eqn:E.
  - unfold from_option. vm_compute in E. injection E as <-.
    pose proof (proj1 (proj2 (proj2 (proj2 (proj2 (proj2
                  shutdown_sets_flag_and_loop_cancels_running))))))
      as H.
    match goal with |- context [shutdown_block ?x] => specialize (H x) end.
    destruct H as (_ & _ & Ht & _ & Hh & _). split.
    + apply (Ht 1%nat 1%nat).
      * apply list_elem_of_In. simpl. auto.
      * reflexivity.
    + rewrite (Hh 1%nat 1%nat _
                 ltac:(apply list_elem_of_In; simpl; auto) eq_refl).
      reflexivity.
  - vm_compute in E. discriminate E.
Defined.

(** C3, the claim as written fails, on Scenario E. When [shutdown()] has
    returned, both running jobs are still pending with no cancellation
    requested and the three queued jobs are queued; the loop cannot move
    until a job completes by itself. Once job 0 has completed, the loop
    still takes job 2 off the queue and launches it before it cancels jobs
    1 and 2; when it has ended, jobs 3 and 4 are still in the queue, never
    started and with no result. *)
Lemma shutdown_returns_early_and_leaves_queue :
  exists s1 s2,
    run (Scheduler_new config_limit_2 "/rec") (scenario_E ++ [EvShutdown])
    = Some s1
    /\ tasks s1 = [Pending 0 true false; Pending 1 true false]
    /\ queue s1 = [2; 3; 4]%nat
    /\ step s1 EvWorker = None
    /\ run s1 [EvTaskEnd 0 (Returned ok_result); EvWorker; EvWorker;
               EvTaskCancelled 1; EvTaskCancelled 2; EvWorker] = Some s2
    /\ worker s2 = Exited
    /\ launches (log s2) = [(0, 0); (1, 1); (2, 2)]%nat
    /\ tasks s2 = [Finished ok_result; TaskCancelled; TaskCancelled]
    /\ queue s2 = [3; 4]%nat
    /\ (result <$> heap s2 !! 3%nat) = Some None
    /\ (recorder <$> heap s2 !! 3%nat) = Some None
    /\ (result <$> heap s2 !! 4%nat) = Some None.
Proof.
  do 2 eexists. split; [vm_compute; reflexivity|].
  do 3 (split; [reflexivity|]).
  split; [vm_compute; reflexivity|].
  repeat split; reflexivity.
Qed.

(** C8, as the code has it. Requesting cancellation twice is requesting
    it once: on the recorder ([cancel] sets an event that is already
    set), on what [record] then does, on the asyncio task, and on the
    scheduler's state when the loop cancels an entry of [running] (the
    log of actions aside). Cancelling a job whose task is already done
    changes neither the task nor any job's result, nor the queue or
    [running]; but it still calls [cancel()] on the job's recorder, and
    the jobs are as before exactly where that recorder's event was set
    already. *)
Theorem cancel_is_idempotent :
  (forall r, cancel (cancel r) = cancel r)
  /\ (forall format_1f r w,
        record format_1f (cancel (cancel r)) w = record format_1f (cancel r) w)
  /\ (forall t, task_cancel (task_cancel t) = task_cancel t)
  /\ (forall s e,
        let s1 := cancel_entry s e in
        let s2 := cancel_entry s1 e in
        frame s1 s2 /\ heap s2 = heap s1 /\ tasks s2 = tasks s1)
  /\ (forall s fut ref,
        is_done s fut = true ->
        let s1 := cancel_entry s (fut, ref) in
        frame s s1 /\ tasks s1 = tasks s
        /\ heap s1 = alter cancel_recorder ref (heap s)
        /\ (forall i, result <$> heap s1 !! i = result <$> heap s !! i)
        /\ (forall t r,
              heap s !! ref = Some t -> recorder t = Some r ->
              (heap s1 = heap s <-> _cancel_event r = true))).
Proof.
  split; [done|]. split; [done|]. split; [exact task_cancel_twice|]. split.
  - intros s [fut ref]. cbv zeta. split; [apply cancel_entry_frame|].
    rewrite !cancel_entry_heap, !cancel_entry_tasks. split.
    + apply alter_twice, cancel_recorder_twice.
    + apply alter_twice, task_cancel_twice.
  - intros s fut ref Hd. cbv zeta. split; [apply cancel_entry_frame|].
    rewrite cancel_entry_heap, cancel_entry_tasks. split.
    + apply alter_fixed. intros t Ht. apply task_cancel_done.
      unfold is_done in Hd. by rewrite Ht in Hd.
    + split; [done|]. split.
      * intros i. rewrite list_lookup_alter.
        case_decide; [subst i|done]. by destruct (heap s !! ref).
      * intros t r Ht Hr. split.
        -- intros Heq. apply (f_equal (fun h => h !! ref)) in Heq.
           rewrite list_lookup_alter_eq, Ht in Heq. simpl in Heq.
           injection Heq as Heq. apply (f_equal recorder) in Heq.
           unfold cancel_recorder in Heq. rewrite Hr in Heq. simpl in Heq.
           injection Heq as Heq. by rewrite <- Heq.
        -- intros Hset. apply alter_fixed. intros x Hx.
           assert (x = t) as -> by congruence.
           unfold cancel_recorder. rewrite Hr.
           destruct t, r; simpl in *. by subst.
Qed.

Lemma cancel_is_idempotent_witness :
  from_option
    (fun s => tasks (cancel_entry s (0, 0)%nat) = tasks s
              /\ heap (cancel_entry s (0, 0)%nat)
                 = alter cancel_recorder 0%nat (heap s))
    False (run (Scheduler_new config_limit_2 "/rec") finished_below_limit).
Proof.
  destruct (run (Scheduler_new config_limit_2 "/rec") finished_below_limit)
    as [s|] eqn:E; [|vm_compute in E; discriminate E].
  unfold from_option. vm_compute in E. injection E as <-.
  match goal with |- context [cancel_entry ?x _] =>
    destruct (proj2 (proj2 (proj2 (proj2 cancel_is_idempotent))) x
                0%nat 0%nat eq_refl) as (_ & Ht & Hh & _) end.
  by split.
Defined.

(** C8, the claim as written fails in its last clause. One job under a
    limit of 2 has returned while the loop, below the limit, waits for the
    queue, so it is still in [running]; then shutdown is requested. The
    loop's next step cancels that finished job: its task and its result
    are as before, but its recorder, whose event was not set, now has it
    set. *)
Lemma cancel_of_finished_job_sets_event :
  exists s s',
    run (Scheduler_new config_limit_2 "/rec")
      (finished_below_limit ++ [EvShutdown]) = Some s
    /\ step s EvWorker = Some s'
    /\ running s = [(0, 0)]%nat
    /\ tasks s = [Finished ok_result] /\ tasks s' = tasks s
    /\ ((fun t => _cancel_event <$> recorder t) <$> heap s !! 0%nat)
       = Some (Some false)
    /\ ((fun t => _cancel_event <$> recorder t) <$> heap s' !! 0%nat)
       = Some (Some true)
    /\ In (ActRecorderCancel 0) (log s')
    /\ cancel_entry s (0, 0)%nat <> s.
Proof.
  do 2 eexists. split; [vm_compute; reflexivity|].
  split; [vm_compute; reflexivity|].
  do 5 (split; [reflexivity|]). split.
  - simpl. auto 10.
  - intros H. apply (f_equal heap) in H. vm_compute in H. discriminate H.
Qed.

(** X1. Jobs are numbered in the order of their submission. In every
    reachable state the jobs launched so far, in the order of their launch,
    followed by the queue are the jobs 0, 1, 2, ... one by one: jobs are
    launched in submission order, none twice, and a job not yet launched is
    still queued. Tasks are numbered in the order of their creation. *)
Theorem jobs_launched_in_submission_order (cfg : Config) (dir : string)
    (es : list event) (s : Scheduler) :
  run (Scheduler_new cfg dir) es = Some s ->
  (launches (log s)).*2 ++ queue s = seq 0 (length (submissions es))
  /\ (launches (log s)).*1 = seq 0 (length (tasks s)).
Proof.
  intros Hrun. destruct (wf_run es _ _ (wf_init cfg dir) Hrun) as [Hc _].
  assert (jobs_ok cfg dir [] (Scheduler_new cfg dir)) as H0
    by (repeat split; constructor).
  destruct (jobs_ok_run cfg dir es _ _ _ H0 Hrun) as (_ & _ & Hj).
  apply Forall2_length in Hj. simpl in Hj. rewrite Hj.
  split; apply Hc.
Qed.

Lemma jobs_launched_in_submission_order_witness :
  from_option
    (fun s => (launches (log s)).*2 ++ queue s
              = seq 0 (length (submissions five_jobs))
              /\ (launches (log s)).*1 = seq 0 (length (tasks s)))
    False (run (Scheduler_new config_limit_2 "/rec") five_jobs).
Proof.
  destruct (run (Scheduler_new config_limit_2 "/rec") five_jobs) as [s|] eqn:E.
  - unfold from_option.
    exact (jobs_launched_in_submission_order config_limit_2 "/rec" five_jobs
             s E).
  - vm_compute in E. discriminate E.
Defined.

(** X2. In every reachable state the keys of [running] are distinct, and
    a job in [running] has its task in the task store and no result yet:
    the result is stored only once the job has been popped. *)
Theorem running_jobs_have_no_result (cfg : Config) (dir : string)
    (es : list event) (s : Scheduler) :
  run (Scheduler_new cfg dir) es = Some s ->
  NoDup (running s).*1
  /\ forall fut ref,
       (fut, ref) ∈ running s ->
       is_Some (tasks s !! fut)
       /\ (result <$> heap s !! ref) = Some None.
Proof.
  intros Hrun. destruct (wf_run es _ _ (wf_init cfg dir) Hrun) as [Hc _].
  split; [apply Hc|]. intros fut ref Hin. split.
  - apply lookup_lt_is_Some_2.
    assert (fut ∈ (launches (log s)).*1) as Hf.
    { apply list_elem_of_fmap. exists (fut, ref). split; [done|].
      by apply (core_running _ _ _ _ _ Hc). }
    rewrite (core_futs _ _ _ _ _ Hc) in Hf. apply elem_of_seq in Hf. lia.
  - by apply (core_fresh _ _ _ _ _ Hc fut).
Qed.

Lemma running_jobs_have_no_result_witness :
  from_option
    (fun s => NoDup (running s).*1
              /\ forall fut ref,
                   (fut, ref) ∈ running s ->
                   is_Some (tasks s !! fut)
                   /\ (result <$> heap s !! ref) = Some None)
    False (run (Scheduler_new config_limit_2 "/rec") five_jobs).
Proof.
  destruct (run (Scheduler_new config_limit_2 "/rec") five_jobs) as [s|] eqn:E.
  - unfold from_option.
    exact (running_jobs_have_no_result config_limit_2 "/rec" five_jobs s E).
  - vm_compute in E. discriminate E.
Defined.

(** X3. In every reachable state each pending task is in [running]; while
    the loop waits in [gather] every pending task has had [cancel()] called
    on it; and when the worker loop has ended, every task it ever created
    is done. *)
Theorem worker_loop_ends_with_all_tasks_done (cfg : Config) (dir : string)
    (es : list event) (s : Scheduler) :
  run (Scheduler_new cfg dir) es = Some s ->
  (forall fut ref st c,
      tasks s !! fut = Some (Pending ref st c) -> (fut, ref) ∈ running s)
  /\ (worker s = AwaitGather ->
      forall fut ref st c, tasks s !! fut = Some (Pending ref st c) -> c = true)
  /\ (worker s = Exited -> Forall (fun t => done t = true) (tasks s)).
Proof.
  intros Hrun. destruct (wf_run es _ _ (wf_init cfg dir) Hrun) as [Hc Hw].
  split; [apply Hc|]. unfold worker_ok in Hw.
  split; intros E; by rewrite E in Hw.
Qed.

Lemma worker_loop_ends_with_all_tasks_done_witness :
  from_option
    (fun s => worker s = Exited -> Forall (fun t => done t = true) (tasks s))
    False
    (run (Scheduler_new config_limit_2 "/rec")
       (scenario_E ++ [EvShutdown; EvTaskEnd 0 (Returned ok_result); EvWorker;
                       EvWorker; EvTaskCancelled 1; EvTaskCancelled 2;
                       EvWorker])).
Proof.
  match goal with |- from_option _ _ ?r => destruct r as [s|] eqn:E end.
  - unfold from_option.
    exact (proj2 (proj2 (worker_loop_ends_with_all_tasks_done config_limit_2
                           "/rec" _ s E))).
  - vm_compute in E. discriminate E.
Defined.

(** X4. In every reachable state a result stored on a job is the result
    returned by the task that was launched for that job. *)
Theorem stored_result_is_task_result (cfg : Config) (dir : string)
    (es : list event) (s : Scheduler) (ref : nat) (t : RecordingTask)
    (res : RecordingResult) :
  run (Scheduler_new cfg dir) es = Some s ->
  heap s !! ref = Some t ->
  result t = Some res ->
  exists fut,
    (fut, ref) ∈ launches (log s) /\ tasks s !! fut = Some (Finished res).
Proof.
  intros Hrun Ht Hres.
  destruct (wf_run es _ _ (wf_init cfg dir) Hrun) as [Hc _].
  apply (core_result _ _ _ _ _ Hc). by rewrite Ht; simpl; rewrite Hres.
Qed.

Lemma stored_result_is_task_result_witness :
  from_option
    (fun s => exists fut,
       (fut, 0%nat) ∈ launches (log s)
       /\ tasks s !! fut = Some (Finished failed_result))
    False
    (run (Scheduler_new config_limit_1 "/rec") (one_failure ++ [EvWorker])).
Proof.
  match goal with |- from_option _ _ ?r => destruct r as [s|] eqn:E end.
  - unfold from_option.
    apply (stored_result_is_task_result config_limit_1 "/rec" _ s 0%nat
             (set_result (Some failed_result)
                (set_recorder (Some (recorder_for config_limit_1 "/rec"
                   {| url := "https://example.com/0"; quality := "best";
                      recorder := None; future := None; result := None |}))
                   {| url := "https://example.com/0"; quality := "best";
                      recorder := None; future := None; result := None |}))
             failed_result E).
    + vm_compute in E. injection E as <-. reflexivity.
    + reflexivity.
  - vm_compute in E. discriminate E.
Defined.

(** X5. In every reachable state the jobs are the submissions, in order,
    each with the url and the quality it was submitted with, and no job
    has its [future] field set. *)
Theorem jobs_are_the_submissions (cfg : Config) (dir : string)
    (es : list event) (s : Scheduler) :
  run (Scheduler_new cfg dir) es = Some s ->
  (fun t => (url t, quality t)) <$> heap s = submissions es
  /\ Forall (fun t => future t = None) (heap s).
Proof.
  intros Hrun.
  assert (jobs_ok cfg dir [] (Scheduler_new cfg dir)) as H0
    by (repeat split; constructor).
  destruct (jobs_ok_run cfg dir es _ _ _ H0 Hrun) as (_ & _ & Hj).
  simpl in Hj. revert Hj. generalize (submissions es) (heap s).
  induction 1 as [|[u q] t subs h (Hu & Hq & Hf & _) _ [IH1 IH2]];
    [by split|].
  split; [|by constructor].
  rewrite fmap_cons. simpl in Hu, Hq. by rewrite Hu, Hq, IH1.
Qed.

Lemma jobs_are_the_submissions_witness :
  from_option
    (fun s => (fun t => (url t, quality t)) <$> heap s = submissions five_jobs
              /\ Forall (fun t => future t = None) (heap s))
    False (run (Scheduler_new config_limit_2 "/rec") five_jobs).
Proof.
  destruct (run (Scheduler_new config_limit_2 "/rec") five_jobs) as [s|] eqn:E.
  - unfold from_option.
    exact (jobs_are_the_submissions config_limit_2 "/rec" five_jobs s E).
  - vm_compute in E. discriminate E.
Defined.

(** X6. In every reachable state a job's recorder is the one
    [_run_recorder] builds: for the job's url and quality, the scheduler's
    download directory and the configured segment duration, with the
    default crf and with no progress callback; only its cancel event may
    have been set since. *)
Theorem recorders_are_built_without_callback (cfg : Config) (dir : string)
    (es : list event) (s : Scheduler) (ref : nat) (t : RecordingTask)
    (r : StreamRecorder) :
  run (Scheduler_new cfg dir) es = Some s ->
  heap s !! ref = Some t ->
  recorder t = Some r ->
  channel_url r = url t
  /\ output_dir r = dir
  /\ segment_duration r = segment_duration_min cfg
  /\ recorder_module.quality r = quality t
  /\ on_update r = None
  /\ crf r = 23.
Proof.
  intros Hrun Ht Hr.
  assert (jobs_ok cfg dir [] (Scheduler_new cfg dir)) as H0
    by (repeat split; constructor).
  destruct (jobs_ok_run cfg dir es _ _ _ H0 Hrun) as (_ & _ & Hj).
  destruct (Forall2_lookup_r _ _ _ _ _ Hj Ht) as (sub & _ & _ & _ & _ & Hrec).
  rewrite Hr in Hrec.
  destruct Hrec as [[=]|[[= ->]|[= ->]]]; by repeat split.
Qed.

Lemma recorders_are_built_without_callback_witness :
  on_update (recorder_for config_limit_1 "/rec"
               {| url := "https://example.com/0"; quality := "best";
                  recorder := None; future := None; result := None |}) = None.
Proof.
  assert (exists s, run (Scheduler_new config_limit_1 "/rec") one_failure
                    = Some s) as [s E] by (eexists; vm_compute; reflexivity).
  refine (proj1 (proj2 (proj2 (proj2 (proj2
    (recorders_are_built_without_callback config_limit_1 "/rec" one_failure s
       0%nat
       (set_recorder (Some (recorder_for config_limit_1 "/rec"
          {| url := "https://example.com/0"; quality := "best";
             recorder := None; future := None; result := None |}))
          {| url := "https://example.com/0"; quality := "best";
             recorder := None; future := None; result := None |})
       _ E _ _)))))).
  - vm_compute in E. injection E as <-. reflexivity.
  - reflexivity.
Defined.

(** X7. When a task that has completed by raising (yt-dlp could not be
    spawned, say) is among the tasks the loop collects, [d.result()]
    raises inside the worker loop: the loop ends with an exception, leaves
    the queue as it is, and does not move again. *)
Theorem raised_task_crashes_worker (s : Scheduler) (d : nat) (msg : string) :
  worker s = AwaitWait ->
  d ∈ done_set s ->
  tasks s !! d = Some (Failed msg) ->
  exists s' msg',
    step s EvWorker = Some s'
    /\ worker s' = Crashed msg'
    /\ queue s' = queue s
    /\ step s' EvWorker = None.
Proof.
  intros Hw Hd Ht. simpl. unfold resume at 1. rewrite Hw.
  destruct (done_set s) as [|d0 ds] eqn:Ed; [by apply elem_of_nil in Hd|].
  destruct (reap_crashes (d0 :: ds) s d msg Hd Ht) as [msg' Hc].
  destruct (reap_fields (d0 :: ds) s) as (_ & Hq & _).
  revert Hc Hq. generalize (reap (d0 :: ds) s) as s1. intros s1 Hc Hq.
  exists s1, msg'. rewrite Hc. repeat split; try done.
  unfold resume. by rewrite Hc.
Qed.

Lemma raised_task_crashes_worker_witness :
  from_option
    (fun s => exists s' msg',
       step s EvWorker = Some s' /\ worker s' = Crashed msg'
       /\ queue s' = queue s /\ step s' EvWorker = None)
    False (run (Scheduler_new config_limit_1 "/rec") one_raise).
Proof.
  destruct (run (Scheduler_new config_limit_1 "/rec") one_raise) as [s|] eqn:E.
  - unfold from_option. vm_compute in E. injection E as <-.
    apply (raised_task_crashes_worker _ 0%nat
             "[Errno 2] No such file or directory: 'yt-dlp'").
    + reflexivity.
    + apply list_elem_of_here.
    + reflexivity.
  - vm_compute in E. discriminate E.
Defined.

(** X8. [start()] resets the shutdown flag before it enters the loop: a
    [shutdown()] requested before [start()] is lost, and the loop starts
    with the flag down. *)
Theorem shutdown_before_start_is_lost (s s' : Scheduler) :
  step (shutdown s) EvStart = Some s' ->
  step s EvStart = Some s' /\ _cancelled s' = false.
Proof.
  intros H. assert (step s EvStart = Some s') as H' by exact H.
  split; [done|]. simpl in H'.
  destruct (worker s); try discriminate; injection H' as <-;
    by destruct (loop_top_fields (with_cancelled false s)) as (_ & _ & _ & ->).
Qed.

Lemma shutdown_before_start_is_lost_witness :
  exists s',
    step (Scheduler_new config_limit_2 "/rec") EvStart = Some s'
    /\ _cancelled s' = false.
Proof.
  eexists.
  apply (shutdown_before_start_is_lost (Scheduler_new config_limit_2 "/rec")).
  reflexivity.
Defined.

Section record_effects.

Variable format_1f : Q -> string.

Abbreviation record := (record format_1f).
Abbreviation read_loop := (read_loop format_1f).
Abbreviation read_loop_from := (read_loop_from format_1f).
Abbreviation handle_line := (handle_line format_1f).

(** The effects of the read loop: calls of the callback, closed by the
    termination when the loop is left by the cancel branch. *)
Lemma read_loop_from_effects cb reads : forall c g,
  exists ups,
    Forall is_update ups
    /\ (read_loop_from cb c g reads).2
       = ups ++ match (read_loop_from cb c g reads).1 with
                | Cancelled => [Terminate]
                | _ => []
                end.
Proof.
  induction reads as [|[arrives rd] reads IH]; intros c g.
  - exists []. split; [constructor|]. by destruct c, g.
  - destruct c; [exists []; split; [constructor|by destruct g]|].
    assert (forall raw g',
               exists ups,
                 Forall is_update ups
                 /\ (match handle_line cb (strip raw) with
                     | (effs, Some e) => (LoopRaised e g', effs)
                     | (effs, None) =>
                         let '(x, effs') := read_loop_from cb arrives g' reads in
                         (x, effs ++ effs')
                     end).2
                    = ups ++ match (match handle_line cb (strip raw) with
                                    | (effs, Some e) => (LoopRaised e g', effs)
                                    | (effs, None) =>
                                        let '(x, effs') :=
                                          read_loop_from cb arrives g' reads in
                                        (x, effs ++ effs')
                                    end).1 with
                             | Cancelled => [Terminate]
                             | _ => []
                             end) as Hline.
    { intros raw g'.
      pose proof (handle_line_updates format_1f cb (strip raw)) as Hu.
      destruct (recorder_module.handle_line format_1f cb (strip raw))
        as [effs [e|]]; simpl in Hu.
      - exists effs. split; [done|]. by rewrite app_nil_r.
      - destruct (IH arrives g') as (ups & Hups & Heq).
        destruct (recorder_module.read_loop_from format_1f cb arrives g' reads)
          as [x effs'].
        simpl in *. exists (effs ++ ups). split; [by apply Forall_app|].
        by rewrite Heq, app_assoc. }
    destruct rd as [raw| |msg|raw|msg|];
      [apply Hline| | |apply Hline| |];
      exists []; by split; [constructor|].
Qed.

Lemma read_loop_effects cb reads c :
  exists ups,
    Forall is_update ups
    /\ (read_loop cb c reads).2
       = ups ++ match (read_loop cb c reads).1 with
                | Cancelled => [Terminate]
                | _ => []
                end.
Proof. apply read_loop_from_effects. Qed.

Lemma read_loop_from_no_callback reads : forall c g,
  read_loop_from None c g (blank_read <$> reads) = read_loop_from None c g reads.
Proof.
  induction reads as [|[arrives rd] reads IH]; intros c g; [done|].
  destruct c; [done|]. destruct rd as [raw| |msg|raw|msg|]; try done.
  - simpl. by rewrite IH.
  - simpl. by rewrite IH.
Qed.

Lemma read_loop_no_callback reads c :
  read_loop None c (blank_read <$> reads) = read_loop None c reads.
Proof. apply read_loop_from_no_callback. Qed.

(** Without a callback the loop does nothing but terminate yt-dlp when
    it is left by the cancel branch. *)
Lemma read_loop_from_no_callback_exit reads : forall c g,
  (read_loop_from None c g reads).2
  = match (read_loop_from None c g reads).1 with
    | Cancelled => [Terminate]
    | _ => []
    end.
Proof.
  induction reads as [|[arrives rd] reads IH]; intros c g;
    [by destruct c, g|].
  destruct c; [by destruct g|].
  destruct rd as [raw| |msg|raw|msg|]; try done.
  - simpl. specialize (IH arrives (g || false)).
    by destruct (recorder_module.read_loop_from format_1f None arrives
                   (g || false) reads).
  - simpl. specialize (IH arrives (g || true)).
    by destruct (recorder_module.read_loop_from format_1f None arrives
                   (g || true) reads).
Qed.

Lemma read_loop_no_callback_exit reads c :
  (read_loop None c reads).2
  = match (read_loop None c reads).1 with
    | Cancelled => [Terminate]
    | _ => []
    end.
Proof. apply read_loop_from_no_callback_exit. Qed.

Lemma read_loop_no_callback_effects reads c :
  Forall (fun e => ~ is_update e) (read_loop None c reads).2.
Proof.
  rewrite read_loop_no_callback_exit.
  destruct (read_loop None c reads).1; try apply Forall_nil_2.
  apply Forall_cons_2; [simpl; tauto|apply Forall_nil_2].
Qed.

Lemma normalise_effects r w tmp tf out json :
  Forall (fun e => e <> Terminate /\ e <> Wait /\ ~ is_update e)
    (normalise r w tmp tf out json).2.
Proof.
  unfold normalise, finish.
  destruct (remux w) as [?|rc2|]; [apply Forall_nil_2| |];
    [destruct (negb (rc2 =? 0)); [destruct (transcode w) as [?|rc3|];
       [|destruct (negb (rc3 =? 0))|]|]|]; simpl;
    repeat (apply Forall_cons_2;
            [repeat split; [discriminate|discriminate|simpl; tauto]|]);
    apply Forall_nil_2.
Qed.

(** The effects of a call that spawned yt-dlp: the spawn, the calls of the
    callback, and the close of the call. *)
Lemma record_effects_shape r w :
  ytdlp_spawn w = None ->
  exists ups,
    Forall is_update ups
    /\ (record r w).2
       = Spawn (yt_cmd r (temp_file_of w)) :: ups
         ++ match loop_end format_1f r w with
            | Break =>
                Wait :: (if negb (ytdlp_rc w =? 0) then []
                         else (normalise r w (mkdtemp w) (temp_file_of w)
                                 (output_file_of r w)
                                 (metadata_file_of r w)).2)
            | Cancelled | LoopRaised _ false =>
                Terminate :: (if cancelled_in_wait w then [] else [Wait])
            | LoopRaised _ true | LoopCancelledError => []
            end.
Proof.
  intros H. rewrite (record_after_loop format_1f r w H). unfold loop_end.
  destruct (read_loop_effects (on_update r) (stdout w)
              (_cancel_event r || cancel_at_spawn w)) as (ups & Hups & Heq).
  destruct (recorder_module.read_loop format_1f (on_update r)
              (_cancel_event r || cancel_at_spawn w) (stdout w))
    as [x effs'].
  simpl in Heq. subst effs'. exists ups. split; [done|].
  destruct x as [| |e []|]; simpl.
  - destruct (cancelled_in_wait w); simpl; [done|]. by rewrite <- app_assoc.
  - rewrite app_nil_r. destruct (negb (ytdlp_rc w =? 0)); [done|].
    unfold metadata_file_of.
    destruct (normalise _ _ _ _ _ _) as [o effs']. simpl.
    by rewrite <- app_assoc.
  - done.
  - rewrite app_nil_r. by destruct (cancelled_in_wait w).
  - done.
Qed.

Lemma not_update_in ups (e : effect) :
  Forall is_update ups -> ~ is_update e -> ~ In e ups.
Proof.
  intros Hups He Hin. apply list_elem_of_In in Hin.
  rewrite Forall_forall in Hups. by apply He, Hups.
Qed.

End record_effects.

(** X9. A result [record] returns is of one of two shapes: a success, with
    the output file, no error, an end time, and the metadata file if it
    could be written; or a failure, with an error and nothing else. Its
    start time is the time the call began. *)
Theorem record_result_is_well_formed (format_1f : Q -> string)
    (r : StreamRecorder) (w : world) (res : RecordingResult)
    (effs : list effect) :
  record format_1f r w = (Returned res, effs) ->
  start_time res = utcnow_start w
  /\ (success res = true
      /\ file_path res = Some (output_file_of r w)
      /\ metadata_path res
         = (if metadata_written w then Some (metadata_file_of r w) else None)
      /\ error res = None
      /\ end_time res = Some (utcnow_end w)
      \/ success res = false
         /\ file_path res = None
         /\ metadata_path res = None
         /\ is_Some (error res)
         /\ end_time res = None).
Proof.
  unfold record, normalise, finish. intros Heq.
  repeat case_match; simplify_eq; simpl;
    (split; [reflexivity|]);
    first [ left; by repeat split | right; by repeat split ].
Qed.

Lemma record_result_is_well_formed_witness :
  match record (fun _ => "1.0") quiet_recorder remux_fails_world with
  | (Returned res, _) => start_time res = stamp_start
  | (Raised _, _) => False
  end.
Proof.
  destruct (record (fun _ => "1.0") quiet_recorder remux_fails_world)
    as [[res|msg] effs] eqn:E.
  - exact (proj1 (record_result_is_well_formed _ _ _ _ _ E)).
  - vm_compute in E. discriminate E.
Defined.



(** X11. The temporary directory is removed when the recording succeeds,
    and it is left behind whenever the download did not end normally with
    exit code 0: on a cancellation, on an exception in the loop, on a
    non-zero exit of yt-dlp. *)
Theorem record_removes_temp_dir_only_after_download (format_1f : Q -> string)
    (r : StreamRecorder) (w : world) :
  ytdlp_spawn w = None ->
  (forall res,
      (record format_1f r w).1 = Returned res -> success res = true ->
      In (Rmtree (mkdtemp w)) (record format_1f r w).2)
  /\ (loop_end format_1f r w <> Break \/ ytdlp_rc w <> 0 ->
      forall d, ~ In (Rmtree d) (record format_1f r w).2).
Proof.
  intros H. split.
  - unfold record, normalise, finish. rewrite H. intros res Heq Hs.
    repeat case_match; simpl in Heq; simplify_eq; try discriminate Hs;
      cbn [snd]; rewrite ?in_app_iff; simpl; tauto.
  - intros Hcase d.
    destruct (record_effects_shape format_1f r w H) as (ups & Hups & ->).
    pose proof (not_update_in ups (Rmtree d) Hups (fun x => x)) as Hnu.
    cbn [In]. rewrite in_app_iff.
    destruct (loop_end format_1f r w) as [| |e []|].
    + destruct (cancelled_in_wait w); cbn [In];
        intros [[=]|[?|[[=]|?]]]; try done. by destruct H0 as [[=]|[]].
    + destruct Hcase as [Hb|Hrc]; [done|].
      destruct (Z.eqb_spec (ytdlp_rc w) 0); [done|]. simpl.
      intros [[=]|[?|[[=]|[]]]]. done.
    + cbn [In]. by intros [[=]|[?|[]]].
    + destruct (cancelled_in_wait w); cbn [In];
        intros [[=]|[?|[[=]|?]]]; try done. by destruct H0 as [[=]|[]].
    + cbn [In]. by intros [[=]|[?|[]]].
Qed.

Lemma record_removes_temp_dir_only_after_download_witness :
  In (Rmtree "/tmp/multirec_0")
    (record (fun _ => "1.0") quiet_recorder remux_fails_world).2.
Proof.
  eapply (proj1 (record_removes_temp_dir_only_after_download (fun _ => "1.0")
                   quiet_recorder remux_fails_world eq_refl)).
  - vm_compute. reflexivity.
  - reflexivity.
Defined.

(** X12. A recorder without a progress callback, as the scheduler builds
    them, never looks at the text of a line: the call goes the same way
    with every line blanked, and no callback is called. *)
Theorem record_without_callback_ignores_text (format_1f : Q -> string)
    (r : StreamRecorder) (w : world) :
  on_update r = None ->
  record format_1f r (with_stdout (blank_read <$> stdout w) w)
  = record format_1f r w
  /\ Forall (fun e => ~ is_update e) (record format_1f r w).2.
Proof.
  intros H. split.
  - unfold record. simpl. by rewrite H, read_loop_no_callback.
  - unfold record. rewrite H. destruct (ytdlp_spawn w); [apply Forall_nil_2|].
    pose proof (read_loop_no_callback_exit format_1f (stdout w)
                  (_cancel_event r || cancel_at_spawn w)) as Hl.
    destruct (read_loop _ _ _ _) as [x effs0]. simpl in Hl. subst effs0.
    pose proof (normalise_effects r w (mkdtemp w)
                  (join (mkdtemp w) "download.ts")
                  (join (output_dir r) (compact (utcnow_start w) +:+ ".mp4"))
                  (join (output_dir r) (compact (utcnow_start w) +:+ ".json")))
      as Hn.
    destruct (normalise _ _ _ _ _ _) as [o effs']. simpl in Hn.
    destruct x as [| |e []|]; repeat case_match; cbn [snd];
      repeat first
        [ apply Forall_nil_2
        | apply Forall_cons_2; [simpl; tauto|]
        | apply Forall_app_2
        | (eapply Forall_impl; [exact Hn|]; by intros e0 (_ & _ & ?)) ].
Qed.

Lemma record_without_callback_ignores_text_witness :
  record (fun _ => "1.0") quiet_recorder
    (with_stdout (blank_read <$> stdout remux_fails_world) remux_fails_world)
  = record (fun _ => "1.0") quiet_recorder remux_fails_world.
Proof.
  apply (record_without_callback_ignores_text (fun _ => "1.0") quiet_recorder
           remux_fails_world).
  reflexivity.
Defined.

(** X13. When the remux exits with 0 the transcode is not run: the call is
    the same whatever would become of the transcode, and yt-dlp and the
    remux are the only processes it spawns. *)
Theorem record_skips_transcode_after_remux (format_1f : Q -> string)
    (r : StreamRecorder) (w : world) (c : child) :
  remux w = Exit 0 ->
  record format_1f r (with_transcode c w) = record format_1f r w
  /\ forall argv,
       In (Spawn argv) (record format_1f r w).2 ->
       argv = yt_cmd r (temp_file_of w)
       \/ argv = ff_cmd (temp_file_of w) (output_file_of r w).
Proof.
  intros H. split.
  - unfold record, normalise. simpl. by rewrite H.
  - intros argv. destruct (ytdlp_spawn w) as [e|] eqn:Hs.
    { unfold record. by rewrite Hs. }
    destruct (record_effects_shape format_1f r w Hs) as (ups & Hups & ->).
    pose proof (not_update_in ups (Spawn argv) Hups (fun x => x)) as Hnu.
    cbn [In]. rewrite in_app_iff. intros [[= <-]|[?|Hin]]; [by left|done|].
    unfold normalise, finish in Hin. rewrite H in Hin.
    destruct (loop_end format_1f r w) as [| |e []|];
      repeat case_match; simpl in Hin;
      repeat (destruct Hin as [Hin|Hin];
              [first [discriminate Hin|injection Hin as <-; by right]|]);
      destruct Hin.
Qed.

Lemma record_skips_transcode_after_remux_witness :
  record (fun _ => "1.0") quiet_recorder
    (with_transcode (SpawnError "no ffmpeg") (calm_world []))
  = record (fun _ => "1.0") quiet_recorder (calm_world []).
Proof.
  apply (record_skips_transcode_after_remux (fun _ => "1.0") quiet_recorder
           (calm_world []) (SpawnError "no ffmpeg")).
  reflexivity.
Defined.

(** X14. Whether the metadata file can be written changes neither what
    [record] does nor whether it succeeds, nor the output file, the error
    or the end time of its result: it only decides [metadata_path]. *)
Theorem metadata_failure_does_not_fail_recording (format_1f : Q -> string)
    (r : StreamRecorder) (w : world) (b : bool) (res : RecordingResult) :
  (record format_1f r w).1 = Returned res ->
  (record format_1f r (with_metadata_written b w)).2
  = (record format_1f r w).2
  /\ exists res',
       (record format_1f r (with_metadata_written b w)).1 = Returned res'
       /\ success res' = success res
       /\ file_path res' = file_path res
       /\ error res' = error res
       /\ end_time res' = end_time res.
Proof.
  unfold record, normalise, finish. simpl. intros Heq.
  repeat case_match; simpl in Heq; simplify_eq;
    (split; [reflexivity|]); eexists; (split; [reflexivity|]);
    by repeat split.
Qed.

Lemma metadata_failure_does_not_fail_recording_witness :
  match (record (fun _ => "1.0") quiet_recorder remux_fails_world).1 with
  | Returned res =>
      exists res',
        (record (fun _ => "1.0") quiet_recorder
           (with_metadata_written false remux_fails_world)).1 = Returned res'
        /\ success res' = success res
        /\ file_path res' = file_path res
        /\ error res' = error res
        /\ end_time res' = end_time res
  | Raised _ => False
  end.
Proof.
  destruct (record (fun _ => "1.0") quiet_recorder remux_fails_world).1
    as [res|msg] eqn:E.
  - exact (proj2 (metadata_failure_does_not_fail_recording _ _ _ false res E)).
  - vm_compute in E. discriminate E.
Defined.

(** X15. [record] on a recorder that is cancelled already still spawns
    yt-dlp and terminates it at once, without a read and without a call of
    the callback; it then waits and returns the cancelled result, or, when
    the task is cancelled in that wait, raises [CancelledError]. *)
Theorem cancelled_recorder_spawns_then_terminates (format_1f : Q -> string)
    (r : StreamRecorder) (w : world) :
  _cancel_event r = true ->
  ytdlp_spawn w = None ->
  record format_1f r w
  = if cancelled_in_wait w
    then (Raised "CancelledError",
          [Spawn (yt_cmd r (temp_file_of w)); Terminate])
    else (Returned (failure "Cancelled" (utcnow_start w)),
          [Spawn (yt_cmd r (temp_file_of w)); Terminate; Wait]).
Proof.
  intros Hc Hs. rewrite (record_after_loop format_1f r w Hs), Hc. simpl.
  rewrite read_loop_set. by destruct (cancelled_in_wait w).
Qed.

Lemma cancelled_recorder_spawns_then_terminates_witness :
  record (fun _ => "1.0") (cancel talking_recorder)
    (calm_world [(false, Line "frame=1")])
  = (Returned (failure "Cancelled" stamp_start),
     [Spawn (yt_cmd talking_recorder "/tmp/multirec_0/download.ts");
      Terminate; Wait]).
Proof.
  apply (cancelled_recorder_spawns_then_terminates (fun _ => "1.0")
           (cancel talking_recorder) (calm_world [(false, Line "frame=1")]));
    reflexivity.
Defined.

Section regex.

Lemma append_cons c (a b : string) : String c a +:+ b = String c (a +:+ b).
Proof. reflexivity. Qed.

Lemma append_nil_l (b : string) : "" +:+ b = b.
Proof. reflexivity. Qed.

Lemma append_assoc (a b c : string) : (a +:+ b) +:+ c = a +:+ (b +:+ c).
Proof.
  induction a as [|x a IH]; [done|]. by rewrite !append_cons, IH.
Qed.

Lemma length_append (a b : string) :
  String.length (a +:+ b) = (String.length a + String.length b)%nat.
Proof.
  induction a as [|x a IH]; [done|]. rewrite append_cons. simpl. by rewrite IH.
Qed.

Lemma take_string_append (a b : string) :
  take_string (String.length (a +:+ b) - String.length b) (a +:+ b) = a.
Proof.
  rewrite length_append.
  replace (String.length a + String.length b - String.length b)%nat
    with (String.length a) by lia.
  induction a as [|x a IH]; [by destruct b|].
  rewrite append_cons. simpl. by rewrite IH.
Qed.

(** The matcher is sound: when it succeeds, a prefix of the text matches
    the pattern and the continuation succeeded on the rest, with the
    groups of the match put before the groups so far. *)
Lemma rmatch_sound r : forall s g k res,
  rmatch r s g k = Some res ->
  exists w s' g',
    s = w +:+ s' /\ matches r w g' /\ k s' (g' ++ g) = Some res.
Proof.
  induction r as [|p|r1 IH1 r2 IH2|r1 IH1|greedy r1 IH1|name r1 IH1];
    intros s g k res H; simpl in H.
  - exists "", s, []. repeat split; [constructor|done].
  - destruct s as [|c s]; [done|]. destruct (p c) eqn:Hp; [|done].
    exists (String c ""), s, []. repeat split; [by constructor|done].
  - apply IH1 in H as (w1 & s1 & g1 & -> & Hm1 & H).
    apply IH2 in H as (w2 & s2 & g2 & -> & Hm2 & H).
    exists (w1 +:+ w2), s2, (g2 ++ g1).
    rewrite append_assoc, <- app_assoc. repeat split; [by constructor|done].
  - destruct (rmatch r1 s g k) as [m|] eqn:E.
    + injection H as ->. apply IH1 in E as (w & s' & g' & -> & Hm & E).
      exists w, s', g'. repeat split; [by constructor|done].
    + exists "", s, []. repeat split; [constructor|done].
  - revert H. generalize (String.length s) as fuel. intros fuel.
    revert s g. induction fuel as [|fuel IHf]; intros s g H.
    + exists "", s, []. repeat split; [constructor|done].
    + assert (forall s1 g1,
                (if (String.length s1 <? String.length s)%nat
                 then (fix loop (fuel : nat) (s : string) (g : groups)
                         {struct fuel} : option groups :=
                         match fuel with
                         | O => k s g
                         | S fuel' =>
                             let again s' g' :=
                               if (String.length s' <? String.length s)%nat
                               then loop fuel' s' g' else None in
                             if greedy then
                               match rmatch r1 s g again with
                               | Some m => Some m
                               | None => k s g
                               end
                             else
                               match k s g with
                               | Some m => Some m
                               | None => rmatch r1 s g again
                               end
                         end) fuel s1 g1
                 else None) = Some res ->
                exists w s' g',
                  s1 = w +:+ s' /\ matches (Star greedy r1) w g'
                  /\ k s' (g' ++ g1) = Some res) as Hagain.
      { intros s1 g1 Hs1. destruct (_ <? _)%nat; [|done]. by apply IHf. }
      assert (rmatch r1 s g
                  (fun s' g' =>
                     if (String.length s' <? String.length s)%nat
                     then (fix loop (fuel : nat) (s : string) (g : groups)
                             {struct fuel} : option groups :=
                             match fuel with
                             | O => k s g
                             | S fuel' =>
                                 let again s' g' :=
                                   if (String.length s' <? String.length s)%nat
                                   then loop fuel' s' g' else None in
                                 if greedy then
                                   match rmatch r1 s g again with
                                   | Some m => Some m
                                   | None => k s g
                                   end
                                 else
                                   match k s g with
                                   | Some m => Some m
                                   | None => rmatch r1 s g again
                                   end
                             end) fuel s' g'
                     else None) = Some res ->
                exists w s' g',
                  s = w +:+ s' /\ matches (Star greedy r1) w g'
                  /\ k s' (g' ++ g) = Some res) as Hmore.
      { intros Hm. apply IH1 in Hm as (w1 & s1 & g1 & -> & Hm1 & Hm).
        apply Hagain in Hm as (w2 & s2 & g2 & -> & Hm2 & Hm).
        exists (w1 +:+ w2), s2, (g2 ++ g1).
        rewrite append_assoc, <- app_assoc.
        repeat split; [by constructor|done]. }
      simpl in H. destruct greedy.
      * match type of H with match ?x with _ => _ end = _ =>
          destruct x as [m|] eqn:E end.
        -- injection H as ->. by apply Hmore.
        -- exists "", s, []. repeat split; [constructor|done].
      * destruct (k s g) as [m|] eqn:E.
        -- injection H as ->. exists "", s, [].
           repeat split; [constructor|done].
        -- by apply Hmore.
  - apply IH1 in H as (w & s' & g' & -> & Hm & H).
    rewrite take_string_append in H.
    exists w, s', ((name, w) :: g'). repeat split; [by constructor|done].
Qed.

Lemma search_sound r : forall s m,
  search r s = Some m -> exists w, matches r w m.
Proof.
  induction s as [|c s IH]; intros m H; simpl in H.
  - destruct (rmatch r "" [] _) as [m'|] eqn:E; [|done]. injection H as ->.
    apply rmatch_sound in E as (w & s' & g' & _ & Hm & [= <-]).
    rewrite app_nil_r. eauto.
  - destruct (rmatch r (String c s) [] _) as [m'|] eqn:E.
    + injection H as ->.
      apply rmatch_sound in E as (w & s' & g' & _ & Hm & [= <-]).
      rewrite app_nil_r. eauto.
    + by apply IH.
Qed.

Lemma matches_lit s : forall w g, matches (Lit s) w g -> w = s /\ g = [].
Proof.
  induction s as [|c s IH]; intros w g H; simpl in H.
  - by inversion H.
  - inversion H as [| |r1 r2 w1 w2 g1 g2 H1 H2| | | | |]; subst.
    inversion H1; subst. apply IH in H2 as [-> ->].
    unfold is_char in *. split; [|done]. rewrite append_cons, append_nil_l.
    f_equal. by apply Ascii.eqb_eq.
Qed.

Lemma matches_star_chr b p w g :
  matches (Star b (Chr p)) w g -> g = [] /\ all_chars p w = true.
Proof.
  intros H. remember (Star b (Chr p)) as r eqn:Er.
  induction H as [| | | | | |b' r' w1 w2 g1 g2 H1 _ H2 IH|]; try discriminate.
  - done.
  - injection Er as -> ->. destruct (IH eq_refl) as [-> Hall].
    inversion H1 as [|p' c Hc| | | | | |]; subst.
    rewrite append_cons, append_nil_l. simpl. by rewrite Hc, Hall.
Qed.

Lemma matches_plus_chr b p w g :
  matches (Plus b (Chr p)) w g ->
  g = [] /\ w <> "" /\ all_chars p w = true.
Proof.
  unfold Plus. intros H.
  inversion H as [| |r1 r2 w1 w2 g1 g2 H1 H2| | | | |]; subst.
  inversion H1 as [|p' c Hc| | | | | |]; subst.
  apply matches_star_chr in H2 as [-> Hall].
  rewrite append_cons, append_nil_l. simpl. by rewrite Hc, Hall.
Qed.

End regex.

Section progress.

Lemma matches_seq_inv r1 r2 w g :
  matches (Seq r1 r2) w g ->
  exists w1 w2 g1 g2,
    w = w1 +:+ w2 /\ g = g2 ++ g1 /\ matches r1 w1 g1 /\ matches r2 w2 g2.
Proof.
  intros H. inversion H as [| |? ? w1 w2 g1 g2 H1 H2| | | | |]; subst.
  by exists w1, w2, g1, g2.
Qed.

Lemma matches_group_inv n r w g :
  matches (Group n r) w g -> exists g', g = (n, w) :: g' /\ matches r w g'.
Proof.
  intros H. inversion H as [| | | | | | |? ? ? g' H1]; subst. by exists g'.
Qed.

Lemma matches_opt_chr p w g : matches (Opt (Chr p)) w g -> g = [].
Proof.
  intros H. inversion H as [| | |?|? ? ? H1| | |]; subst; [done|].
  by inversion H1.
Qed.

Lemma matches_group_plus n b p w g :
  matches (Group n (Plus b (Chr p))) w g ->
  g = [(n, w)] /\ w <> "" /\ all_chars p w = true.
Proof.
  intros H. apply matches_group_inv in H as (g' & -> & H).
  by apply matches_plus_chr in H as (-> & ? & ?).
Qed.

Lemma matches_unit w g :
  matches (Group "unit" (Seq (Chr kmg) (Lit "iB"))) w g ->
  g = [("unit", w)] /\ (w = "KiB" \/ w = "MiB" \/ w = "GiB").
Proof.
  intros H. apply matches_group_inv in H as (g' & -> & H).
  apply matches_seq_inv in H as (w1 & w2 & g1 & g2 & -> & -> & H1 & H2).
  apply matches_lit in H2 as [-> ->].
  inversion H1 as [|p c Hc| | | | | |]; subst. split; [done|].
  unfold kmg, is_char in Hc.
  apply orb_true_iff in Hc as [Hc|Hc];
    [apply orb_true_iff in Hc as [Hc|Hc]|];
    apply Ascii.eqb_eq in Hc; subst; auto.
Qed.

(** What a match of the progress pattern holds in its groups. *)
Lemma progress_groups w m :
  matches progress_re w m ->
  exists pct size unit eta,
    m = [("eta", eta); ("unit", unit); ("size", size); ("pct", pct)]
    /\ (pct <> "" /\ all_chars digit_or_dot pct = true)
    /\ (size <> "" /\ all_chars digit_or_dot size = true)
    /\ (unit = "KiB" \/ unit = "MiB" \/ unit = "GiB")
    /\ (eta <> "" /\ all_chars digit_colon_dot eta = true).
Proof.
  unfold progress_re, Concat. cbn [foldr]. intros H.
  apply matches_seq_inv in H as (w1 & ? & g1 & ? & -> & -> & H1 & H).
  apply matches_seq_inv in H as (w2 & ? & g2 & ? & -> & -> & H2 & H).
  apply matches_seq_inv in H as (w3 & ? & g3 & ? & -> & -> & H3 & H).
  apply matches_seq_inv in H as (w4 & ? & g4 & ? & -> & -> & H4 & H).
  apply matches_seq_inv in H as (w5 & ? & g5 & ? & -> & -> & H5 & H).
  apply matches_seq_inv in H as (w6 & ? & g6 & ? & -> & -> & H6 & H).
  apply matches_seq_inv in H as (w7 & ? & g7 & ? & -> & -> & H7 & H).
  apply matches_seq_inv in H as (w8 & ? & g8 & ? & -> & -> & H8 & H).
  apply matches_seq_inv in H as (w9 & ? & g9 & ? & -> & -> & H9 & H).
  apply matches_seq_inv in H as (w10 & ? & g10 & ? & -> & -> & H10 & H).
  apply matches_seq_inv in H as (w11 & ? & g11 & ? & -> & -> & H11 & H).
  apply matches_seq_inv in H as (w12 & ? & g12 & ? & -> & -> & H12 & H).
  apply matches_seq_inv in H as (w13 & ? & g13 & ? & -> & -> & H13 & H).
  apply matches_seq_inv in H as (w14 & ? & g14 & ? & -> & -> & H14 & H).
  inversion H; subst.
  apply matches_lit in H1 as [_ ->].
  apply matches_plus_chr in H2 as (-> & _ & _).
  apply matches_group_plus in H3 as (-> & Hp1 & Hp2).
  apply matches_lit in H4 as [_ ->].
  apply matches_star_chr in H5 as [-> _].
  apply matches_lit in H6 as [_ ->].
  apply matches_plus_chr in H7 as (-> & _ & _).
  apply matches_opt_chr in H8 as ->.
  apply matches_group_plus in H9 as (-> & Hz1 & Hz2).
  apply matches_unit in H10 as (-> & Hu).
  apply matches_star_chr in H11 as [-> _].
  apply matches_lit in H12 as [_ ->].
  apply matches_plus_chr in H13 as (-> & _ & _).
  apply matches_group_plus in H14 as (-> & He1 & He2).
  exists w3, w9, w10, w14. by repeat split.
Qed.

Lemma search_progress_groups text m :
  search progress_re text = Some m ->
  exists pct size unit eta,
    m = [("eta", eta); ("unit", unit); ("size", size); ("pct", pct)]
    /\ (pct <> "" /\ all_chars digit_or_dot pct = true)
    /\ (size <> "" /\ all_chars digit_or_dot size = true)
    /\ (unit = "KiB" \/ unit = "MiB" \/ unit = "GiB")
    /\ (eta <> "" /\ all_chars digit_colon_dot eta = true).
Proof.
  intros H. apply search_sound in H as [w H]. by eapply progress_groups.
Qed.

End progress.

Section loop_exceptions.

Variable format_1f : Q -> string.

Lemma float_raises s e :
  float s = inl e ->
  e = "could not convert string to float: '" +:+ s +:+ "'"
  /\ (count_digits s = 0 \/ 2 <= count_dots s)%nat.
Proof.
  unfold float.
  destruct (1 <=? count_digits s)%nat eqn:Hd;
    [destruct (count_dots s <=? 1)%nat eqn:Hp|]; simpl; intros [= <-];
    (split; [done|]).
  - right. apply Nat.leb_gt in Hp. lia.
  - left. apply Nat.leb_gt in Hd. lia.
Qed.

Lemma handle_line_raises (f : callback) text effs e :
  (forall msg, f msg = None) ->
  handle_line format_1f (Some f) text = (effs, Some e) ->
  effs = []
  /\ exists m,
       search progress_re text = Some m
       /\ float (group m "size") = inl e.
Proof.
  intros Hf. unfold handle_line. destruct (negb _); [|done].
  destruct (search progress_re text) as [m|]; [|by rewrite Hf].
  destruct (float _) as [e'|size] eqn:E; [|by rewrite Hf].
  intros [= <- <-]. eauto.
Qed.

(** A read that fails with an exception of its own. *)
Lemma read_loop_from_raises (f : callback) reads : forall c g e g' effs,
  (forall msg, f msg = None) ->
  Forall (fun rd => forall msg,
            rd.2 <> ReadError msg /\ rd.2 <> ReadErrorAtExit msg) reads ->
  read_loop_from format_1f (Some f) c g reads = (LoopRaised e g', effs) ->
  e = "" /\ g' = true
  /\ c || existsb fst reads = true
  /\ g || existsb (fun rd => at_exit rd.2) reads = true
  \/ exists raw m,
       search progress_re (strip raw) = Some m
       /\ float (group m "size") = inl e.
Proof.
  remember (Some f) as cb eqn:Hcb.
  induction reads as [|[arrives rd] reads IH]; intros c g e g' effs Hf Hr H.
  - destruct c, g; try done. injection H as <- <- <-. left. by repeat split.
  - destruct c.
    { destruct g; [|done]. injection H as <- <- <-. left. by repeat split. }
    apply Forall_cons in Hr as [Hrd Hr].
    assert (forall raw,
               rd = Line raw \/ rd = LineAtExit raw ->
               match handle_line format_1f cb (strip raw) with
               | (effs, Some e) => (LoopRaised e (g || at_exit rd), effs)
               | (effs, None) =>
                   let '(x, effs') :=
                     read_loop_from format_1f cb arrives (g || at_exit rd)
                       reads in
                   (x, effs ++ effs')
               end = (LoopRaised e g', effs) ->
               e = "" /\ g' = true
               /\ false || existsb fst ((arrives, rd) :: reads) = true
               /\ g || existsb (fun rd => at_exit rd.2) ((arrives, rd) :: reads)
                  = true
               \/ exists raw m,
                    search progress_re (strip raw) = Some m
                    /\ float (group m "size") = inl e) as Hline.
    { intros raw Hraw Hx.
      destruct (handle_line format_1f cb (strip raw)) as [effs0 [e0|]] eqn:E.
      - injection Hx as <- <- <-. subst cb.
        apply handle_line_raises in E as (_ & m & Hm & He); [|done].
        right. by exists raw, m.
      - destruct (read_loop_from format_1f cb arrives (g || at_exit rd) reads)
          as [x effs1] eqn:E1.
        injection Hx as -> <-.
        destruct (IH _ _ _ _ _ Hf Hr E1) as [(-> & -> & Hc & Hg)|?];
          [left|by right].
        repeat split; simpl.
        + destruct arrives; [done|exact Hc].
        + by rewrite orb_assoc. }
    destruct rd as [raw| |msg|raw|msg|]; try done.
    + apply (Hline raw); [by left|exact H].
    + by destruct (Hrd msg) as [? _].
    + apply (Hline raw); [by right|exact H].
    + by destruct (Hrd msg) as [_ ?].
Qed.

End loop_exceptions.

(** X16. Whatever text the progress pattern is found in, the groups of the
    match are the four named ones; the unit is [KiB], [MiB] or [GiB], so
    the default of the table of factors is never used; the percentage and
    the size are non-empty texts of digits and dots, the ETA a non-empty
    text of digits, colons and dots. *)
Theorem progress_match_groups (text : string) (m : groups) :
  search progress_re text = Some m ->
  m = [("eta", group m "eta"); ("unit", group m "unit");
       ("size", group m "size"); ("pct", group m "pct")]
  /\ (group m "unit" = "KiB" \/ group m "unit" = "MiB"
      \/ group m "unit" = "GiB")
  /\ (group m "pct" <> "" /\ all_chars digit_or_dot (group m "pct") = true)
  /\ (group m "size" <> "" /\ all_chars digit_or_dot (group m "size") = true)
  /\ (group m "eta" <> ""
      /\ all_chars digit_colon_dot (group m "eta") = true).
Proof.
  intros H.
  apply search_progress_groups in H
    as (pct & size & unit & eta & -> & Hp & Hz & Hu & He).
  change (group _ "eta") with eta. change (group _ "unit") with unit.
  change (group _ "size") with size. change (group _ "pct") with pct.
  done.
Qed.

Lemma progress_match_groups_witness :
  match search progress_re
          "[download]  50.0% of ~1.23GiB at 1.00MiB/s ETA 00:10" with
  | Some m => group m "unit" = "KiB" \/ group m "unit" = "MiB"
              \/ group m "unit" = "GiB"
  | None => False
  end.
Proof.
  destruct (search progress_re
              "[download]  50.0% of ~1.23GiB at 1.00MiB/s ETA 00:10")
    as [m|] eqn:E.
  - exact (proj1 (proj2 (progress_match_groups _ _ E))).
  - vm_compute in E. discriminate E.
Defined.

(** X17. With a callback that never raises and reads that never fail,
    the read loop meets two exceptions only. One is the [ValueError] of
    [float] on the size of a progress line: the error names a size, made
    of digits and dots, that has no digit or more than one dot. The other
    is the [ProcessLookupError] of [terminate()], whose text is empty: it
    takes a cancellation requested during a read and a yt-dlp that has
    exited before the end of its output was read. *)
Theorem loop_raises_on_malformed_size_or_exited_process
    (format_1f : Q -> string) (r : StreamRecorder) (w : world) (f : callback)
    (e : string) (gone : bool) :
  on_update r = Some f ->
  (forall msg, f msg = None) ->
  Forall (fun rd => forall msg,
            rd.2 <> ReadError msg /\ rd.2 <> ReadErrorAtExit msg) (stdout w) ->
  loop_end format_1f r w = LoopRaised e gone ->
  (exists size,
      e = "could not convert string to float: '" +:+ size +:+ "'"
      /\ size <> ""
      /\ all_chars digit_or_dot size = true
      /\ (count_digits size = 0 \/ 2 <= count_dots size)%nat)
  \/ e = "" /\ gone = true
     /\ existsb fst (stdout w) = true
     /\ existsb (fun rd => at_exit rd.2) (stdout w) = true.
Proof.
  unfold loop_end, read_loop. intros Hcb Hf Hr H. rewrite Hcb in H.
  destruct (read_loop_from _ _ _ _ _) as [x effs] eqn:E. simpl in H. subst x.
  pose proof E as E0.
  apply read_loop_from_raises in E
    as [(-> & -> & Hc & Hg)|(raw & m & Hm & He)]; [| |done..].
  - right. split; [done|]. split; [done|]. split; [|exact Hg].
    destruct (_cancel_event r || cancel_at_spawn w) eqn:Hc0; [|exact Hc].
    by rewrite read_loop_from_set in E0.
  - left. apply search_progress_groups in Hm
      as (pct & size & unit & eta & -> & _ & [Hz1 Hz2] & _).
    change (group _ "size") with size in He.
    apply float_raises in He as [-> Hn]. by exists size.
Qed.

Lemma loop_raises_on_malformed_size_or_exited_process_witness :
  (exists size,
      "could not convert string to float: '1.2.3'"
      = "could not convert string to float: '" +:+ size +:+ "'"
      /\ size <> ""
      /\ all_chars digit_or_dot size = true
      /\ (count_digits size = 0 \/ 2 <= count_dots size)%nat)
  \/ "could not convert string to float: '1.2.3'" = "" /\ false = true
     /\ existsb fst
          [(false,
            Line "[download]  50.0% of 1.2.3MiB at 1.00MiB/s ETA 00:10")]
        = true
     /\ existsb (fun rd => at_exit rd.2)
          [(false,
            Line "[download]  50.0% of 1.2.3MiB at 1.00MiB/s ETA 00:10")]
        = true.
Proof.
  apply (loop_raises_on_malformed_size_or_exited_process (fun _ => "1.0")
           talking_recorder
           (calm_world
              [(false,
                Line "[download]  50.0% of 1.2.3MiB at 1.00MiB/s ETA 00:10")])
           (fun _ => None)).
  - reflexivity.
  - reflexivity.
  - apply Forall_cons_2; [split; discriminate|apply Forall_nil_2].
  - vm_compute. reflexivity.
Defined.

Section versions.

Variable format_1f : Q -> string.

Lemma legacy_read_loop_from_no_callback reads : forall c g,
  legacy_recorder_module.read_loop_from None c g reads
  = read_loop_from format_1f None c g reads.
Proof.
  induction reads as [|[arrives rd] reads IH]; intros c g; [done|].
  destruct c; [done|]. destruct rd as [raw| |msg|raw|msg|]; try done.
  - simpl. by rewrite IH.
  - simpl. by rewrite IH.
Qed.

Lemma legacy_read_loop_no_callback reads c :
  legacy_recorder_module.read_loop None c reads
  = read_loop format_1f None c reads.
Proof. apply legacy_read_loop_from_no_callback. Qed.

Lemma legacy_read_loop_from_effects cb reads : forall c g,
  exists ups,
    Forall is_update ups
    /\ (legacy_recorder_module.read_loop_from cb c g reads).2
       = ups ++ match (legacy_recorder_module.read_loop_from cb c g reads).1
                with
                | Cancelled => [Terminate]
                | _ => []
                end.
Proof.
  induction reads as [|[arrives rd] reads IH]; intros c g.
  - exists []. split; [constructor|]. by destruct c, g.
  - destruct c; [exists []; split; [constructor|by destruct g]|].
    assert (forall raw g',
               exists ups,
                 Forall is_update ups
                 /\ (match legacy_recorder_module.handle_line cb (strip raw)
                     with
                     | (effs, Some e) => (LoopRaised e g', effs)
                     | (effs, None) =>
                         let '(x, effs') :=
                           legacy_recorder_module.read_loop_from cb arrives g'
                             reads in
                         (x, effs ++ effs')
                     end).2
                    = ups ++ match (match legacy_recorder_module.handle_line
                                            cb (strip raw) with
                                    | (effs, Some e) => (LoopRaised e g', effs)
                                    | (effs, None) =>
                                        let '(x, effs') :=
                                          legacy_recorder_module.read_loop_from
                                            cb arrives g' reads in
                                        (x, effs ++ effs')
                                    end).1 with
                             | Cancelled => [Terminate]
                             | _ => []
                             end) as Hline.
    { intros raw g'. destruct cb as [f|]; simpl.
      - destruct (f (strip raw)) as [e|].
        + exists [Update (strip raw)]. split; [by repeat constructor|done].
        + destruct (IH arrives g') as (ups & Hups & Heq).
          destruct (legacy_recorder_module.read_loop_from (Some f) arrives g'
                      reads) as [x effs']. simpl in *.
          exists (Update (strip raw) :: ups).
          split; [by constructor|]. by rewrite Heq.
      - destruct (IH arrives g') as (ups & Hups & Heq).
        destruct (legacy_recorder_module.read_loop_from None arrives g' reads)
          as [x effs']. simpl in *. by exists ups. }
    destruct rd as [raw| |msg|raw|msg|];
      [apply Hline| | |apply Hline| |];
      exists []; by split; [constructor|].
Qed.

Lemma legacy_read_loop_effects cb reads c :
  exists ups,
    Forall is_update ups
    /\ (legacy_recorder_module.read_loop cb c reads).2
       = ups ++ match (legacy_recorder_module.read_loop cb c reads).1 with
                | Cancelled => [Terminate]
                | _ => []
                end.
Proof. apply legacy_read_loop_from_effects. Qed.

Lemma printed_legacy (f : callback) raws :
  (forall msg, f msg = None) ->
  legacy_recorder_module.read_loop (Some f) false (printed raws)
  = (Break, (fun raw => Update (strip raw)) <$> raws).
Proof.
  intros Hf. unfold legacy_recorder_module.read_loop. generalize false at 2.
  induction raws as [|raw raws IH]; intros g; [done|].
  unfold printed in *. rewrite fmap_cons. simpl. by rewrite Hf, IH.
Qed.

Lemma printed_plain (f : callback) raws :
  (forall msg, f msg = None) ->
  Forall (fun raw => search progress_re (strip raw) = None) raws ->
  read_loop format_1f (Some f) false (printed raws)
  = (Break,
     (fun raw => Update (strip raw))
       <$> filter (fun raw => strip raw <> "") raws).
Proof.
  intros Hf Hall. unfold read_loop. generalize false at 2.
  induction Hall as [|raw raws Hraw _ IH]; intros g; [done|].
  unfold printed in *. rewrite fmap_cons, filter_cons.
  change (read_loop_from format_1f (Some f) false g ((false, Line raw) :: ?l))
    with (match handle_line format_1f (Some f) (strip raw) with
          | (effs, Some e) => (LoopRaised e (g || false), effs)
          | (effs, None) =>
              let '(x, effs') :=
                read_loop_from format_1f (Some f) false (g || false) l in
              (x, effs ++ effs')
          end).
  rewrite IH. unfold handle_line. rewrite Hraw, Hf.
  destruct (decide (strip raw <> "")) as [Hne|He].
  - apply String.eqb_neq in Hne. by rewrite Hne.
  - apply dec_stable in He. by rewrite He.
Qed.

End versions.

(** X18. Without a progress callback, and unless the remux exits with a
    code other than 0, the later [record] does what the earlier one did,
    the write of the metadata file apart: the same effects in the same
    order, and an outcome that agrees in every field the two results
    share. *)
Theorem legacy_record_agrees_without_callback (format_1f : Q -> string)
    (old : legacy_recorder_module.StreamRecorder) (new : StreamRecorder)
    (w : world) :
  same_recorder old new ->
  on_update new = None ->
  (forall rc, remux w = Exit rc -> rc = 0) ->
  same_outcome (legacy_recorder_module.record old w).1
    (record format_1f new w).1
  /\ filter (fun e => is_write_metadata e = false) (record format_1f new w).2
     = (legacy_recorder_module.record old w).2.
Proof.
  intros (Hu & Hd & Hq & Hcb & Hc) Hn Hr.
  unfold legacy_recorder_module.record, record, normalise, finish.
  unfold legacy_recorder_module.yt_cmd, yt_cmd.
  rewrite Hu, Hd, Hq, Hcb, Hc, Hn, (legacy_read_loop_no_callback format_1f).
  destruct (ytdlp_spawn w) as [e|]; [done|].
  pose proof (read_loop_no_callback_exit format_1f (stdout w)
                (_cancel_event new || cancel_at_spawn w)) as Hl.
  destruct (read_loop _ _ _ _) as [[| |e []|] effs0]; simpl in Hl; subst effs0.
  - by destruct (cancelled_in_wait w).
  - destruct (negb (ytdlp_rc w =? 0)); [done|].
    destruct (remux w) as [e|rc2|] eqn:Hx; [done| |done].
    by rewrite (Hr rc2 eq_refl).
  - done.
  - by destruct (cancelled_in_wait w).
  - done.
Qed.

Lemma legacy_record_agrees_without_callback_witness :
  filter (fun e => is_write_metadata e = false)
    (record (fun _ => "1.0") quiet_recorder
       (calm_world [(false, Line "frame=1")])).2
  = (legacy_recorder_module.record legacy_quiet_recorder
       (calm_world [(false, Line "frame=1")])).2.
Proof.
  apply (legacy_record_agrees_without_callback (fun _ => "1.0")
           legacy_quiet_recorder quiet_recorder
           (calm_world [(false, Line "frame=1")])).
  - repeat split.
  - reflexivity.
  - intros rc [= <-]. reflexivity.
Defined.

Ltac in_effects H :=
  simpl in H; repeat (destruct H as [H|H]; [congruence|]); contradiction.

(** X19. The earlier [record] removes the temporary directory exactly when
    it succeeds, and it succeeds only when yt-dlp and the remux both exit
    with 0: a failed remux fails the recording and the download is left
    behind. *)
Theorem legacy_record_keeps_temp_dir_on_failure
    (old : legacy_recorder_module.StreamRecorder) (w : world)
    (res : legacy_recorder_module.RecordingResult) (effs : list effect) :
  legacy_recorder_module.record old w
  = (legacy_recorder_module.Returned res, effs) ->
  (legacy_recorder_module.success res = true
   <-> In (Rmtree (mkdtemp w)) effs)
  /\ (legacy_recorder_module.success res = true
      <-> (legacy_recorder_module.read_loop
             (legacy_recorder_module.on_update old)
             (legacy_recorder_module._cancel_event old || cancel_at_spawn w)
             (stdout w)).1 = Break
          /\ ytdlp_rc w = 0 /\ remux w = Exit 0)
  /\ forall d, In (Rmtree d) effs -> d = mkdtemp w.
Proof.
  unfold legacy_recorder_module.record.
  destruct (ytdlp_spawn w) as [e|]; [done|].
  destruct (legacy_read_loop_effects (legacy_recorder_module.on_update old)
              (stdout w)
              (legacy_recorder_module._cancel_event old || cancel_at_spawn w))
    as (ups & Hups & Heq).
  destruct (legacy_recorder_module.read_loop _ _ _) as [x effs0].
  simpl in Heq. subst effs0.
  assert (forall d l,
             In (Rmtree d) (ups ++ l) -> In (Rmtree d) l) as Hin.
  { intros d l [Hx|Hx]%in_app_iff; [|done].
    by destruct (not_update_in ups (Rmtree d) Hups (fun x => x)). }
  assert (forall l res0,
             legacy_recorder_module.success res0 = false ->
             (forall d, ~ In (Rmtree d) l) ->
             x <> Break \/ ytdlp_rc w <> 0 \/ remux w <> Exit 0 ->
             (legacy_recorder_module.Returned res0,
              Spawn (legacy_recorder_module.yt_cmd old
                       (join (mkdtemp w) "download.ts")) :: ups ++ l)
             = (legacy_recorder_module.Returned res, effs) ->
             (legacy_recorder_module.success res = true
              <-> In (Rmtree (mkdtemp w)) effs)
             /\ (legacy_recorder_module.success res = true
                 <-> (x, ups ++ match x with
                                | Cancelled => [Terminate]
                                | _ => []
                                end).1 = Break
                     /\ ytdlp_rc w = 0 /\ remux w = Exit 0)
             /\ forall d, In (Rmtree d) effs -> d = mkdtemp w) as Hfail.
  { intros l res0 Hs Hl Hx [= <- <-]. rewrite Hs. cbn [fst]. split; [|split].
    - split; [done|]. intros [Hy|Hy]; [done|]. apply Hin in Hy.
      by destruct (Hl _ Hy).
    - split; [done|]. intros (? & ? & ?). by destruct Hx as [?|[?|?]].
    - intros d [Hy|Hy]; [done|]. apply Hin in Hy. by destruct (Hl _ Hy). }
  destruct x as [| |e []|].
  - destruct (cancelled_in_wait w); [done|]. simpl app.
    rewrite <- app_assoc. apply Hfail; [done| |by left].
    intros d Hx. in_effects Hx.
  - destruct (ytdlp_rc w =? 0) eqn:Hrc; cbn [negb].
    + apply Z.eqb_eq in Hrc.
      destruct (remux w) as [e|rc2|] eqn:Hre; [done| |done].
      destruct (rc2 =? 0) eqn:Hrc2; cbn [negb].
      * apply Z.eqb_eq in Hrc2. subst rc2. intros [= <- <-]. simpl.
        split; [|split].
        -- split; [|done]. intros _. right.
           rewrite !in_app_iff. right. simpl. auto.
        -- done.
        -- intros d [Hx|Hx]; [done|].
           rewrite <- !app_assoc in Hx. apply Hin in Hx. in_effects Hx.
      * apply Z.eqb_neq in Hrc2. simpl app. rewrite app_nil_r.
        rewrite <- !app_assoc. apply Hfail; [done| |].
        -- intros d Hx. in_effects Hx.
        -- right. right. intros [= ?]. done.
    + apply Z.eqb_neq in Hrc. simpl app. rewrite app_nil_r.
      apply Hfail; [done| |by right; left].
      intros d Hx. in_effects Hx.
  - done.
  - destruct (cancelled_in_wait w); [done|]. simpl app. rewrite app_nil_r.
    apply Hfail; [done| |by left].
    intros d Hx. in_effects Hx.
  - done.
Qed.

Lemma legacy_record_keeps_temp_dir_on_failure_witness :
  match legacy_recorder_module.record legacy_quiet_recorder
          remux_fails_world with
  | (legacy_recorder_module.Returned res, effs) =>
      legacy_recorder_module.success res = true
      <-> In (Rmtree "/tmp/multirec_0") effs
  | (legacy_recorder_module.Raised _, _) => False
  end.
Proof.
  destruct (legacy_recorder_module.record legacy_quiet_recorder
              remux_fails_world) as [[res|msg] effs] eqn:E.
  - exact (proj1 (legacy_record_keeps_temp_dir_on_failure _ _ _ _ E)).
  - vm_compute in E. discriminate E.
Defined.

(** X20. What the callback is told, for a process that prints lines none
    of which is a progress line, while nobody cancels and the callback
    does not raise: the earlier loop hands over every line, stripped, the
    blank ones too; the later loop hands over the same texts but skips
    the blank ones. *)
Theorem blank_lines_reach_only_the_legacy_callback (format_1f : Q -> string)
    (f : callback) (raws : list string) :
  (forall msg, f msg = None) ->
  Forall (fun raw => search progress_re (strip raw) = None) raws ->
  legacy_recorder_module.read_loop (Some f) false (printed raws)
  = (Break, (fun raw => Update (strip raw)) <$> raws)
  /\ read_loop format_1f (Some f) false (printed raws)
     = (Break,
        (fun raw => Update (strip raw))
          <$> filter (fun raw => strip raw <> "") raws).
Proof.
  intros Hf Hr. split; [by apply printed_legacy|by apply printed_plain].
Qed.

Lemma blank_lines_reach_only_the_legacy_callback_witness :
  legacy_recorder_module.read_loop (Some (fun _ => None)) false
    (printed ["frame=1"; "   "; " frame=2 "])
  = (Break, [Update "frame=1"; Update ""; Update "frame=2"])
  /\ read_loop (fun _ => "1.0") (Some (fun _ => None)) false
       (printed ["frame=1"; "   "; " frame=2 "])
     = (Break, [Update "frame=1"; Update "frame=2"]).
Proof.
  apply (blank_lines_reach_only_the_legacy_callback (fun _ => "1.0")
           (fun _ => None) ["frame=1"; "   "; " frame=2 "]).
  - reflexivity.
  - repeat (apply Forall_cons_2; [vm_compute; reflexivity|]).
    apply Forall_nil_2.
Defined.

Section main_window.

Import main_window_module.

Lemma alter_out_of_range {A} (f : A -> A) (i : nat) (l : list A) :
  ~ (i < length l)%nat -> alter f i l = l.
Proof.
  intros Hi. apply list_eq. intros j.
  destruct (decide (j = i)) as [->|Hne].
  - rewrite list_lookup_alter_eq.
    by rewrite (lookup_ge_None_2 l i) by lia.
  - by rewrite list_lookup_alter_ne.
Qed.

(** The first loop of [_refresh_table], from row [i] on. *)
Lemma refresh_fold running : forall (t : table) (i : nat) t' n,
  foldl (fun '(t, i) rec_task =>
           (if (i <? length t)%nat then alter (mark_running rec_task) i t
            else t,
            S i))
    (t, i) running = (t', n) ->
  n = (i + length running)%nat
  /\ forall j,
       t' !! j
       = (fun r =>
            if (i <=? j)%nat then
              match running !! (j - i)%nat with
              | Some rec_task => mark_running rec_task r
              | None => r
              end
            else r) <$> t !! j.
Proof.
  induction running as [|rt running IH]; intros t i t' n H; simpl in H.
  - injection H as <- <-. split; [simpl; lia|]. intros j.
    rewrite lookup_nil. destruct (t !! j); [|done]. simpl.
    by destruct (i <=? j)%nat.
  - assert ((if (i <? length t)%nat then alter (mark_running rt) i t else t)
            = alter (mark_running rt) i t) as Ht.
    { destruct (i <? length t)%nat eqn:Hi; [done|].
      apply Nat.ltb_ge in Hi. symmetry. apply alter_out_of_range. lia. }
    rewrite Ht in H. apply IH in H as [-> H]. split; [simpl; lia|].
    intros j. rewrite H. destruct (decide (j = i)) as [->|Hne].
    + rewrite list_lookup_alter_eq, Nat.sub_diag.
      rewrite (proj2 (Nat.leb_gt (S i) i)) by lia.
      rewrite (proj2 (Nat.leb_le i i)) by lia.
      by destruct (t !! i).
    + rewrite list_lookup_alter_ne by done.
      destruct (i <=? j)%nat eqn:Hij.
      * apply Nat.leb_le in Hij.
        rewrite (proj2 (Nat.leb_le (S i) j)) by lia.
        replace (j - i)%nat with (S (j - S i)) by lia. done.
      * apply Nat.leb_gt in Hij.
        by rewrite (proj2 (Nat.leb_gt (S i) j)) by lia.
Qed.

(** [_refresh_table], row by row. *)
Lemma refresh_lookup running (t : table) (j : nat) :
  _refresh_table running t !! j
  = (fun r =>
       match running !! j with
       | Some rec_task => mark_running rec_task r
       | None => mark_queued r
       end) <$> t !! j.
Proof.
  unfold _refresh_table.
  destruct (foldl _ (t, 0%nat) running) as [t' n] eqn:E.
  apply refresh_fold in E as [-> E]. rewrite list_lookup_imap, E.
  rewrite Nat.sub_0_r. change (0 <=? j)%nat with true. cbv iota.
  destruct (running !! j) as [rt|] eqn:Hj.
  - apply lookup_lt_Some in Hj.
    rewrite (proj2 (Nat.leb_gt (0 + length running) j)) by lia.
    by destruct (t !! j).
  - apply lookup_ge_None in Hj.
    rewrite (proj2 (Nat.leb_le (0 + length running) j)) by lia.
    by destruct (t !! j).
Qed.

Lemma refresh_length running (t : table) :
  length (_refresh_table running t) = length t.
Proof.
  destruct (decide (length (_refresh_table running t) = length t))
    as [|Hne]; [done|exfalso].
  destruct (decide (length (_refresh_table running t) < length t)%nat).
  - pose proof (refresh_lookup running t
                  (length (_refresh_table running t))) as H.
    rewrite (lookup_ge_None_2 (_refresh_table running t)) in H by lia.
    destruct (lookup_lt_is_Some_2 t (length (_refresh_table running t)))
      as [r Hr]; [lia|]. by rewrite Hr in H.
  - pose proof (refresh_lookup running t (length t)) as H.
    rewrite (lookup_ge_None_2 t) in H by lia.
    destruct (lookup_lt_is_Some_2 (_refresh_table running t) (length t))
      as [r Hr]; [lia|]. by rewrite Hr in H.
Qed.

Lemma row_of_mark_running call rt r : row_of call r -> row_of call (mark_running rt r).
Proof.
  intros (H0 & H1 & [f H2]). split; [done|]. split.
  - right. simpl. by destruct H1 as [-> | ->].
  - simpl. rewrite H2. destruct (result rt) as [res|]; [|done].
    by destruct (file_path res).
Qed.

Lemma row_of_mark_queued call r : row_of call r -> row_of call (mark_queued r).
Proof.
  intros (H0 & H1 & H2). split; [done|]. split; [|done].
  simpl. destruct H1 as [-> | ->]; simpl; auto.
Qed.

Lemma rows_refresh calls running (t : table) :
  Forall2 row_of calls t -> Forall2 row_of calls (_refresh_table running t).
Proof.
  intros H. apply Forall2_same_length_lookup. split.
  - rewrite refresh_length. by eapply Forall2_length.
  - intros i call r' Hc Hr'. rewrite refresh_lookup in Hr'.
    destruct (t !! i) as [r|] eqn:Hr; [|done]. injection Hr' as <-.
    pose proof (Forall2_lookup_lr _ _ _ _ _ _ H Hc Hr) as Hrow.
    destruct (running !! i);
      [by apply row_of_mark_running|by apply row_of_mark_queued].
Qed.

Lemma ui_step_rows st e :
  Forall2 row_of st.1 st.2 ->
  Forall2 row_of (ui_step st e).1 (ui_step st e).2.
Proof.
  destruct st as [calls t]. intros H. destruct e as [accepted text|running].
  - unfold ui_step, _prompt_add_stream. simpl.
    destruct accepted; [|by rewrite app_nil_r].
    destruct (negb _); [|by rewrite app_nil_r]. simpl.
    apply Forall2_app; [done|]. apply Forall2_cons_2; [|constructor].
    split; [done|]. split; [by left|by eexists].
  - simpl. by apply rows_refresh.
Qed.

Lemma ui_step_calls st e :
  Forall (fun call => call.1 <> "" /\ call.2 = "best") st.1 ->
  Forall (fun call => call.1 <> "" /\ call.2 = "best") (ui_step st e).1.
Proof.
  destruct st as [calls t]. intros H. destruct e as [accepted text|running];
    [|done].
  unfold ui_step, _prompt_add_stream. simpl.
  destruct accepted; [|by rewrite app_nil_r].
  destruct (negb _) eqn:Hu; [|by rewrite app_nil_r]. simpl.
  apply Forall_app. split; [done|]. apply Forall_cons_2; [|constructor].
  split; [|done]. simpl. apply negb_true_iff in Hu.
  by apply String.eqb_neq in Hu.
Qed.

Lemma ui_step_grabando st e i :
  shows "GRABANDO" st.2 i -> shows "GRABANDO" (ui_step st e).2 i.
Proof.
  destruct st as [calls t]. unfold shows. simpl. intros H.
  destruct (t !! i) as [r|] eqn:Hr; [|done]. injection H as H.
  destruct e as [accepted text|running].
  - unfold ui_step, _prompt_add_stream. simpl.
    destruct accepted; [|by simpl; rewrite Hr; simpl; rewrite H].
    destruct (negb _); [|by simpl; rewrite Hr; simpl; rewrite H].
    simpl. rewrite (lookup_app_l_Some _ _ _ _ Hr). simpl. by rewrite H.
  - simpl. rewrite refresh_lookup, Hr. simpl.
    destruct (running !! i); simpl; by rewrite H.
Qed.

Lemma ui_foldl_grabando es : forall st i,
  shows "GRABANDO" st.2 i -> shows "GRABANDO" (foldl ui_step st es).2 i.
Proof.
  induction es as [|e es IH]; intros st i H; [done|].
  simpl. by apply IH, ui_step_grabando.
Qed.

End main_window.

(** X21. Whatever dialogs and refreshes the table has been through, its
    rows are the calls of [add_recording] the window has made, in order:
    each row has its three items, shows the url of its call and either
    [EN COLA] or [GRABANDO]; and every call has a non-empty url and the
    quality [best]. *)
Theorem table_rows_are_the_calls (es : list ui_event) :
  Forall2 row_of (ui_run es).1 (ui_run es).2
  /\ Forall (fun call => call.1 <> "" /\ call.2 = "best") (ui_run es).1.
Proof.
  unfold ui_run. induction es as [|e es IH] using rev_ind.
  - split; constructor.
  - rewrite foldl_app. simpl. destruct IH as [IH1 IH2].
    split; [by apply ui_step_rows|by apply ui_step_calls].
Qed.

(** X22. [_refresh_table] marks rows by their position, not by their
    channel: it keeps the number of rows and the channels, and a row that
    has a status item shows [GRABANDO] afterwards exactly when its index
    is below the number of running tasks or it showed [GRABANDO] before,
    and [EN COLA] otherwise. *)
Theorem refresh_marks_rows_by_position (running : list RecordingTask)
    (t : main_window_module.table) (i : nat) (r : main_window_module.row) :
  t !! i = Some r ->
  is_Some (main_window_module.item1 r) ->
  length (main_window_module._refresh_table running t) = length t
  /\ main_window_module.item0 <$> main_window_module._refresh_table running t
     = main_window_module.item0 <$> t
  /\ (shows "GRABANDO" (main_window_module._refresh_table running t) i
      <-> (i < length running)%nat
          \/ main_window_module.item1 r = Some "GRABANDO")
  /\ (shows "EN COLA" (main_window_module._refresh_table running t) i
      <-> ~ ((i < length running)%nat
             \/ main_window_module.item1 r = Some "GRABANDO")).
Proof.
  intros Hr [text Ht]. split; [apply refresh_length|]. split.
  { apply list_eq. intros j. rewrite !list_lookup_fmap, refresh_lookup.
    destruct (t !! j) as [r'|]; [|done]. simpl. by destruct (running !! j). }
  unfold shows. rewrite refresh_lookup, Hr. simpl.
  destruct (running !! i) as [rt|] eqn:Hi.
  - apply lookup_lt_Some in Hi. simpl. rewrite Ht. split.
    + split; [auto|done].
    + split; [done|]. intros Hn. destruct Hn. auto.
  - apply lookup_ge_None in Hi. simpl. rewrite Ht.
    destruct (String.eqb text "GRABANDO") eqn:Hg; simpl.
    + apply String.eqb_eq in Hg. subst text. split.
      * split; [auto|done].
      * split; [done|]. intros Hn. destruct Hn. auto.
    + apply String.eqb_neq in Hg. split.
      * split; [done|]. intros [Hn|[= Hn]]; [lia|done].
      * split; [|done]. intros _ [Hn|[= Hn]]; [lia|done].
Qed.

Lemma refresh_marks_rows_by_position_witness :
  shows "GRABANDO"
    (main_window_module._refresh_table
       [running_job "https://example.com/2"] three_rows) 0
  <-> (0 < 1)%nat \/ Some "GRABANDO" = Some "GRABANDO".
Proof.
  apply (refresh_marks_rows_by_position
           [running_job "https://example.com/2"] three_rows 0
           {| main_window_module.item0 := Some "https://example.com/0";
              main_window_module.item1 := Some "GRABANDO";
              main_window_module.item2 := Some "" |}).
  - reflexivity.
  - by eexists.
Defined.

(** X23. A row that shows [GRABANDO] shows it for good: no later dialog
    or refresh, whatever is running then, takes the status back, so a
    recording that has ended keeps its status. *)
Theorem grabando_is_never_taken_back (es es' : list ui_event) (i : nat) :
  shows "GRABANDO" (ui_run es).2 i ->
  shows "GRABANDO" (ui_run (es ++ es')).2 i.
Proof.
  unfold ui_run. rewrite foldl_app. apply ui_foldl_grabando.
Qed.

Lemma grabando_is_never_taken_back_witness :
  shows "GRABANDO"
    (ui_run ([UiPrompt true "https://example.com/0";
              UiRefresh [running_job "https://example.com/0"]]
             ++ [UiRefresh []; UiPrompt true "https://example.com/1";
                 UiRefresh []])).2 0.
Proof.
  apply (grabando_is_never_taken_back
           [UiPrompt true "https://example.com/0";
            UiRefresh [running_job "https://example.com/0"]]
           [UiRefresh []; UiPrompt true "https://example.com/1";
            UiRefresh []] 0).
  vm_compute. reflexivity.
Defined.

(** X24. The file column is never filled from the scheduler: in every
    reachable state of the scheduler the jobs in [running] have no result,
    so a refresh leaves every file item as it is. *)
Theorem refresh_never_fills_file_column (cfg : Config) (dir : string)
    (es : list event) (s : Scheduler) (t : main_window_module.table) :
  run (Scheduler_new cfg dir) es = Some s ->
  Forall (fun rec_task => result rec_task = None) (running_items s)
  /\ main_window_module.item2
       <$> main_window_module._refresh_table (running_items s) t
     = main_window_module.item2 <$> t.
Proof.
  intros Hrun. destruct (wf_run es _ _ (wf_init cfg dir) Hrun) as [Hc _].
  assert (Forall (fun rec_task => result rec_task = None) (running_items s))
    as Hnone.
  { apply Forall_forall. intros rt Hin. unfold running_items in Hin.
    apply list_elem_of_omap in Hin as ([fut ref] & Hin & Hrt). simpl in Hrt.
    pose proof (core_fresh _ _ _ _ _ Hc fut ref Hin) as Hf.
    rewrite Hrt in Hf. by injection Hf. }
  split; [done|]. apply list_eq. intros j.
  rewrite !list_lookup_fmap, refresh_lookup.
  destruct (t !! j) as [r|]; [|done]. simpl.
  destruct (running_items s !! j) as [rt|] eqn:Hj; [|done].
  rewrite Forall_lookup in Hnone. simpl. rewrite (Hnone _ _ Hj).
  by destruct (main_window_module.item2 r).
Qed.

Lemma refresh_never_fills_file_column_witness :
  from_option
    (fun s =>
       main_window_module.item2
         <$> main_window_module._refresh_table (running_items s) three_rows
       = main_window_module.item2 <$> three_rows)
    False (run (Scheduler_new config_limit_2 "/rec") five_jobs).
Proof.
  destruct (run (Scheduler_new config_limit_2 "/rec") five_jobs) as [s|] eqn:E.
  - unfold from_option.
    exact (proj2 (refresh_never_fills_file_column config_limit_2 "/rec"
                    five_jobs s three_rows E)).
  - vm_compute in E. discriminate E.
Defined.

Section config_file.

Import config_file_module.

Lemma path_exists_true (p : Path) (fs : filesystem) :
  path_exists p fs = true <-> is_Some (fs !! p).
Proof. unfold path_exists. apply bool_decide_eq_true. Qed.

Lemma path_exists_false (p : Path) (fs : filesystem) :
  path_exists p fs = false <-> fs !! p = None.
Proof.
  unfold path_exists. rewrite bool_decide_eq_false.
  by rewrite eq_None_not_Some.
Qed.

(** What [mkdir] leaves when it returns: everything that was there, the
    directory, and the missing directories above it. *)
Lemma mkdir_ok (p : Path) : forall (fs fs' : filesystem),
  mkdir p fs = inr fs' ->
  fs' !! p = Some Dir
  /\ forall q : Path,
       fs' !! q = fs !! q \/ made fs fs' q /\ q `suffix_of` p.
Proof.
  induction p as [|c parent IH]; intros fs fs' H; simpl in H.
  - destruct (fs !! []) as [[content|]|] eqn:E; try done.
    injection H as <-. split; [done|]. by left.
  - destruct (fs !! (c :: parent)) as [[content|]|] eqn:E; try done.
    { injection H as <-. split; [done|]. by left. }
    destruct (fs !! parent) as [[content|]|] eqn:Ep; try done.
    + injection H as <-. split; [by rewrite lookup_insert_eq|].
      intros q. destruct (decide (q = c :: parent)) as [->|Hne].
      * right. split; [|done]. split; [done|by rewrite lookup_insert_eq].
      * left. by rewrite lookup_insert_ne.
    + destruct (mkdir parent fs) as [e|fs1] eqn:Em; [done|].
      injection H as <-. destruct (IH _ _ Em) as [Hp Hq].
      split; [by rewrite lookup_insert_eq|].
      intros q. destruct (decide (q = c :: parent)) as [->|Hne].
      * right. split; [|done]. split; [done|by rewrite lookup_insert_eq].
      * rewrite lookup_insert_ne by done.
        destruct (Hq q) as [Heq|[[Hn Hd] Hs]]; [by left|right].
        split; [split; [done|by rewrite lookup_insert_ne]|].
        by apply suffix_cons_r.
Qed.

Lemma mkdir_subseteq (p : Path) (fs fs' : filesystem) :
  mkdir p fs = inr fs' -> fs ⊆ fs'.
Proof.
  intros H. apply mkdir_ok in H as [_ H]. apply map_subseteq_spec.
  intros q x Hx. destruct (H q) as [->|[[Hn _] _]]; [done|].
  by rewrite Hn in Hx.
Qed.

(** When [mkdir] raises a file stands in the way, unless there is no
    root. *)
Lemma mkdir_err (p : Path) : forall (fs : filesystem) e,
  mkdir p fs = inl e -> blocked p fs \/ fs !! [] = None.
Proof.
  induction p as [|c parent IH]; intros fs e H; simpl in H.
  - destruct (fs !! []) as [[content|]|] eqn:E; try done; [|by right].
    left. by exists [], content.
  - destruct (fs !! (c :: parent)) as [[content|]|] eqn:E; try done.
    { left. by exists (c :: parent), content. }
    destruct (fs !! parent) as [[content|]|] eqn:Ep; try done.
    + left. exists parent, content. split; [by apply suffix_cons_r|done].
    + destruct (mkdir parent fs) as [e'|fs1] eqn:Em; [|done].
      destruct (IH _ _ Em) as [(q & content & Hq & Hf)|Hr]; [left|by right].
      exists q, content. split; [by apply suffix_cons_r|done].
Qed.

Lemma suffix_cons_cases {A} (q : list A) c parent :
  q `suffix_of` c :: parent -> q = c :: parent \/ q `suffix_of` parent.
Proof.
  destruct q as [|x q]; [right; apply suffix_nil|apply suffix_cons_inv].
Qed.

Lemma tree_above (fs : filesystem) (p : Path) : forall q : Path,
  tree fs -> is_Some (fs !! p) -> q `suffix_of` p -> q <> p ->
  fs !! q = Some Dir.
Proof.
  induction p as [|c parent IH]; intros q Ht Hp Hq Hne.
  - apply suffix_nil_inv in Hq. by subst.
  - apply suffix_cons_cases in Hq as [->|Hq]; [done|].
    pose proof (proj2 Ht _ _ Hp) as Hparent.
    destruct (decide (q = parent)) as [->|Hne']; [done|].
    apply IH; [done|by rewrite Hparent|done|done].
Qed.

(** In a tree [mkdir] raises whenever a file stands in the way. *)
Lemma mkdir_blocked (p : Path) : forall (fs : filesystem),
  tree fs -> blocked p fs -> exists e, mkdir p fs = inl e.
Proof.
  induction p as [|c parent IH]; intros fs Ht (q & content & Hq & Hf).
  - apply suffix_nil_inv in Hq. subst q. simpl. rewrite Hf. eauto.
  - simpl. destruct (fs !! (c :: parent)) as [[content'|]|] eqn:E; eauto.
    + destruct (decide (q = c :: parent)) as [->|Hne]; [congruence|].
      rewrite (tree_above fs (c :: parent) q) in Hf; [done|done| |done|done].
      by rewrite E.
    + apply suffix_cons_cases in Hq as [->|Hq]; [congruence|].
      destruct (fs !! parent) as [[content'|]|] eqn:Ep; eauto.
      * destruct (decide (q = parent)) as [->|Hne]; [congruence|].
        rewrite (tree_above fs parent q) in Hf; [done|done| |done|done].
        by rewrite Ep.
      * destruct (IH fs Ht) as [e He]; [by exists q, content|].
        rewrite He. eauto.
Qed.

Lemma mkdir_tree (p : Path) (fs fs' : filesystem) :
  tree fs -> mkdir p fs = inr fs' -> tree fs'.
Proof.
  revert fs fs'. induction p as [|c parent IH]; intros fs fs' Ht H;
    simpl in H.
  - destruct (fs !! []) as [[content|]|]; try done. by injection H as <-.
  - destruct (fs !! (c :: parent)) as [[content|]|] eqn:E; try done.
    { by injection H as <-. }
    assert (forall fs1 : filesystem,
               tree fs1 -> fs1 !! parent = Some Dir ->
               tree (<[c :: parent := Dir]> fs1)) as Hins.
    { intros fs1 [Hroot Ht1] Hp. split.
      - by rewrite lookup_insert_ne.
      - intros c' p' Hsome.
        destruct (decide (c' :: p' = c :: parent)) as [[= -> ->]|Hne].
        + destruct (decide (parent = c :: parent)) as [Heq|Hne'].
          * by rewrite <- Heq, lookup_insert_eq.
          * by rewrite lookup_insert_ne.
        + rewrite lookup_insert_ne in Hsome by done.
          destruct (decide (p' = c :: parent)) as [->|Hne'].
          * by rewrite lookup_insert_eq.
          * rewrite lookup_insert_ne by done. by apply (Ht1 c'). }
    destruct (fs !! parent) as [[content|]|] eqn:Ep; try done.
    + injection H as <-. by apply Hins.
    + destruct (mkdir parent fs) as [e|fs1] eqn:Em; [done|].
      injection H as <-. apply Hins; [by eapply IH|].
      by apply mkdir_ok in Em as [? _].
Qed.

(** The ways through [_resolve_config_file]. *)
Lemma resolve_cases (env : environment) (path : option string)
    (fs : filesystem) (r : os_error + Path) (fs' : filesystem) :
  _resolve_config_file env path fs = (r, fs') ->
  (r = inl RuntimeError /\ fs' = fs
   /\ exists s, path = Some s /\ s <> "" /\ expanduser env s = None)
  \/ (fs' = fs
      /\ exists s c, path = Some s /\ s <> "" /\ expanduser env s = Some c
                     /\ is_Some (fs !! c) /\ r = inr c)
  \/ (names_nothing env path fs
      /\ ((is_Some (fs !! project_cfg env) /\ r = inr (project_cfg env)
           /\ fs' = fs)
          \/ (fs !! project_cfg env = None /\ is_Some (fs !! fallback env)
              /\ r = inr (fallback env) /\ fs' = fs)
          \/ (fs !! project_cfg env = None /\ fs !! fallback env = None
              /\ exists e, mkdir (fallback_dir env) fs = inl e
                           /\ r = inl e /\ fs' = fs)
          \/ (fs !! project_cfg env = None /\ fs !! fallback env = None
              /\ exists fs1,
                   mkdir (fallback_dir env) fs = inr fs1
                   /\ r = inr (fallback env)
                   /\ fs' = <[fallback env := File (default_yaml env)]> fs1))).
Proof.
  unfold _resolve_config_file.
  change ("config.yaml" :: cwd env) with (project_cfg env).
  change (".multirec" :: home env) with (fallback_dir env).
  change ("config.yaml" :: fallback_dir env) with (fallback env).
  assert ((let rest :=
             if path_exists (project_cfg env) fs
             then (inr (project_cfg env), fs)
             else
               if negb (path_exists (fallback env) fs)
               then
                 match mkdir (fallback_dir env) fs with
                 | inl e => (inl e, fs)
                 | inr fs' =>
                     (inr (fallback env),
                      <[fallback env := File (default_yaml env)]> fs')
                 end
               else (inr (fallback env), fs) in
           rest = (r, fs') ->
           (is_Some (fs !! project_cfg env) /\ r = inr (project_cfg env)
            /\ fs' = fs)
           \/ (fs !! project_cfg env = None /\ is_Some (fs !! fallback env)
               /\ r = inr (fallback env) /\ fs' = fs)
           \/ (fs !! project_cfg env = None /\ fs !! fallback env = None
               /\ exists e, mkdir (fallback_dir env) fs = inl e
                            /\ r = inl e /\ fs' = fs)
           \/ (fs !! project_cfg env = None /\ fs !! fallback env = None
               /\ exists fs1,
                    mkdir (fallback_dir env) fs = inr fs1
                    /\ r = inr (fallback env)
                    /\ fs' = <[fallback env := File (default_yaml env)]> fs1)))
    as Hrest.
  { cbv zeta.
    destruct (path_exists (project_cfg env) fs) eqn:Hp.
    { apply path_exists_true in Hp. intros [= <- <-]. by left. }
    apply path_exists_false in Hp.
    destruct (path_exists (fallback env) fs) eqn:Hf; cbn [negb].
    { apply path_exists_true in Hf. intros [= <- <-]. right. by left. }
    apply path_exists_false in Hf.
    destruct (mkdir (fallback_dir env) fs) as [e|fs1] eqn:Em;
      intros [= <- <-]; right; right; [left|right]; eauto 10. }
  cbv zeta in Hrest |- *.
  destruct path as [s|].
  - destruct (String.eqb s "") eqn:Hs; cbn [negb].
    + apply String.eqb_eq in Hs. intros H. right. right.
      split; [|by apply Hrest]. by intros s' [= <-].
    + apply String.eqb_neq in Hs.
      destruct (expanduser env s) as [c|] eqn:Hc.
      * destruct (path_exists c fs) eqn:Hx.
        -- apply path_exists_true in Hx. intros [= <- <-]. right. left.
           split; [done|]. by exists s, c.
        -- apply path_exists_false in Hx. intros H. right. right.
           split; [|by apply Hrest]. intros s' [= <-] _. by exists c.
      * intros [= <- <-]. left. split; [done|]. split; [done|].
        by exists s.
  - intros H. right. right. split; [|by apply Hrest]. by intros s.
Qed.

Lemma fallback_not_above (env : environment) : ~ fallback env `suffix_of` fallback_dir env.
Proof.
  intros H. apply suffix_length in H. unfold fallback in H. simpl in H. lia.
Qed.

(** What the call leaves when it writes the default file. *)
Lemma resolve_written (env : environment) (fs fs1 : filesystem) :
  fs !! fallback env = None ->
  mkdir (fallback_dir env) fs = inr fs1 ->
  fs1 !! fallback env = None
  /\ fs ⊆ <[fallback env := File (default_yaml env)]> fs1
  /\ forall q : Path,
       q <> fallback env ->
       <[fallback env := File (default_yaml env)]> fs1 !! q = fs !! q
       \/ made fs (<[fallback env := File (default_yaml env)]> fs1) q
          /\ q `suffix_of` fallback_dir env.
Proof.
  intros Hf Hm. pose proof (mkdir_ok _ _ _ Hm) as [Hd Hq].
  assert (fs1 !! fallback env = None) as Hf1.
  { destruct (Hq (fallback env)) as [->|[_ Hs]]; [done|].
    by destruct (fallback_not_above env). }
  split; [done|]. split.
  - transitivity fs1; [by eapply mkdir_subseteq|by apply insert_subseteq].
  - intros q Hne. rewrite lookup_insert_ne by done.
    destruct (Hq q) as [?|[[Hn Hdq] Hs]]; [by left|right].
    split; [|done]. split; [done|]. by rewrite lookup_insert_ne.
Qed.

Lemma tree_insert_file (fs : filesystem) (c : string) (parent : Path)
    (content : string) :
  tree fs -> fs !! parent = Some Dir -> fs !! (c :: parent) = None ->
  tree (<[c :: parent := File content]> fs).
Proof.
  intros [Hroot Ht] Hp Hn. split; [by rewrite lookup_insert_ne|].
  intros c' p' Hsome.
  destruct (decide (c' :: p' = c :: parent)) as [[= -> ->]|Hne].
  - destruct (decide (parent = c :: parent)) as [Heq|Hne'].
    + rewrite <- Heq in Hn. congruence.
    + by rewrite lookup_insert_ne.
  - rewrite lookup_insert_ne in Hsome by done.
    destruct (decide (p' = c :: parent)) as [->|Hne'].
    + rewrite (Ht c' _ Hsome) in Hn. done.
    + rewrite lookup_insert_ne by done. by apply (Ht c').
Qed.

Lemma homeless_fs_tree : tree homeless_fs.
Proof.
  split; [by vm_compute|]. intros c p [x Hx]. unfold homeless_fs in Hx.
  repeat (apply lookup_insert_Some in Hx as [[Hk _]|[_ Hx]];
          [first [discriminate Hk|injection Hk as <- <-; by vm_compute]|]).
  by rewrite lookup_empty in Hx.
Qed.

End config_file.

(** X25. The path [_resolve_config_file] returns exists when it returns;
    the call removes nothing and overwrites nothing, every file and
    directory that was there is there unchanged; and it leaves a tree a
    tree. *)
Theorem resolved_config_file_exists (env : config_file_module.environment)
    (path : option string) (fs fs' : config_file_module.filesystem)
    (p : config_file_module.Path) :
  config_file_module._resolve_config_file env path fs = (inr p, fs') ->
  is_Some (fs' !! p) /\ fs ⊆ fs' /\ (tree fs -> tree fs').
Proof.
  intros H. apply resolve_cases in H
    as [(? & _)|[(-> & s & c & _ & _ & _ & Hc & [= ->])
       |(_ & [(Hp & [= ->] & ->)|[(_ & Hf & [= ->] & ->)
              |[(_ & _ & e & _ & ? & _)|(_ & Hf & fs1 & Hm & [= ->] & ->)]]])]];
    try done.
  destruct (resolve_written env fs fs1 Hf Hm) as (Hf1 & Hsub & _).
  split; [by rewrite lookup_insert_eq|]. split; [done|].
  intros Ht. apply tree_insert_file; [by eapply mkdir_tree| |done].
  by apply mkdir_ok in Hm as [? _].
Qed.

Lemma resolved_config_file_exists_witness :
  is_Some
    ((config_file_module._resolve_config_file user_env None bare_fs).2
       !! fallback user_env).
Proof.
  apply (resolved_config_file_exists user_env None bare_fs
           (config_file_module._resolve_config_file user_env None bare_fs).2
           (fallback user_env)).
  vm_compute. reflexivity.
Defined.

(** X26. [_resolve_config_file] changes the file system only when it
    finds none of the three files: then it returns the file in the home
    directory, which now holds the default configuration, and all else it
    has made are the missing directories above that file. *)
Theorem config_file_written_only_when_none_found
    (env : config_file_module.environment) (path : option string)
    (fs fs' : config_file_module.filesystem)
    (r : config_file_module.os_error + config_file_module.Path) :
  config_file_module._resolve_config_file env path fs = (r, fs') ->
  fs' <> fs ->
  r = inr (fallback env)
  /\ names_nothing env path fs
  /\ fs !! project_cfg env = None
  /\ fs !! fallback env = None
  /\ fs' !! fallback env
     = Some (config_file_module.File (config_file_module.default_yaml env))
  /\ forall q : config_file_module.Path,
       q <> fallback env ->
       fs' !! q = fs !! q
       \/ made fs fs' q /\ q `suffix_of` fallback_dir env.
Proof.
  intros H Hne. apply resolve_cases in H
    as [(_ & ? & _)|[(? & _)
       |(Hn & [(_ & _ & ?)|[(_ & _ & _ & ?)
              |[(_ & _ & e & _ & _ & ?)|(Hp & Hf & fs1 & Hm & -> & ->)]]])]];
    try done.
  destruct (resolve_written env fs fs1 Hf Hm) as (_ & _ & Hq).
  by rewrite lookup_insert_eq.
Qed.

Lemma config_file_written_only_when_none_found_witness :
  (config_file_module._resolve_config_file user_env None bare_fs).1
  = inr (fallback user_env).
Proof.
  apply (config_file_written_only_when_none_found user_env None bare_fs
           (config_file_module._resolve_config_file user_env None bare_fs).2
           (config_file_module._resolve_config_file user_env None bare_fs).1).
  - by destruct (config_file_module._resolve_config_file user_env None
                   bare_fs).
  - intros H.
    assert ((config_file_module._resolve_config_file user_env None bare_fs).2
              !! fallback user_env = bare_fs !! fallback user_env) as Hx
      by (by rewrite H).
    vm_compute in Hx. discriminate Hx.
Defined.

(** X27. A second call with the same argument writes nothing. It returns
    the same path, or else a directory the first call made: when the
    argument or [config.yaml] in the working directory names a directory
    above the default file, the second call returns that directory. *)
Theorem second_resolve_writes_nothing (env : config_file_module.environment)
    (path : option string) (fs fs' : config_file_module.filesystem)
    (p : config_file_module.Path) :
  config_file_module._resolve_config_file env path fs = (inr p, fs') ->
  exists p',
    config_file_module._resolve_config_file env path fs' = (inr p', fs')
    /\ (p' = p \/ made fs fs' p').
Proof.
  intros H. pose proof H as H0. apply resolve_cases in H
    as [(? & _)|[(-> & _)
       |(Hn & [(_ & _ & ->)|[(_ & _ & _ & ->)
              |[(_ & _ & e & _ & ? & _)|(Hp & Hf & fs1 & Hm & [= ->] & ->)]]])]];
    try done; try (exists p; split; [done|by left]).
  destruct (resolve_written env fs fs1 Hf Hm) as (Hf1 & _ & Hq).
  assert (is_Some
            (<[fallback env :=
                 config_file_module.File
                   (config_file_module.default_yaml env)]> fs1
             !! fallback env)) as Hthere by (by rewrite lookup_insert_eq).
  revert H0 Hq Hthere.
  generalize (<[fallback env :=
                  config_file_module.File
                    (config_file_module.default_yaml env)]> fs1) as fs2.
  intros fs2 H0 Hq Hthere.
  assert (forall q : config_file_module.Path,
             fs !! q = None -> is_Some (fs2 !! q) ->
             q = fallback env \/ made fs fs2 q) as Hnew.
  { intros q Hq0 [x Hx]. destruct (decide (q = fallback env)); [by left|].
    destruct (Hq q) as [Heq|[? _]]; [done| |by right]. congruence. }
  destruct (config_file_module._resolve_config_file env path fs2)
    as [r2 fs3] eqn:E2.
  apply resolve_cases in E2
    as [(_ & _ & s & Hs & Hs' & He)
       |[(-> & s & c & Hs & Hs' & He & Hc & ->)
        |(_ & [(Hp2 & -> & ->)|[(_ & _ & -> & ->)
               |[(_ & Hf2 & _)|(_ & Hf2 & _)]]])]].
  - destruct (Hn s Hs Hs') as (c & Hc & _). congruence.
  - exists c. split; [done|]. destruct (Hn s Hs Hs') as (c' & Hc' & Hnone).
    assert (c' = c) as -> by congruence. by apply Hnew.
  - exists (project_cfg env). split; [done|]. by apply Hnew.
  - exists (fallback env). split; [done|by left].
  - rewrite Hf2 in Hthere. by destruct Hthere.
  - rewrite Hf2 in Hthere. by destruct Hthere.
Qed.

Lemma second_resolve_writes_nothing_witness :
  exists p',
    config_file_module._resolve_config_file user_env (Some "~/.multirec")
      (config_file_module._resolve_config_file user_env (Some "~/.multirec")
         bare_fs).2
    = (inr p',
       (config_file_module._resolve_config_file user_env (Some "~/.multirec")
          bare_fs).2)
    /\ (p' = fallback user_env
        \/ made bare_fs
             (config_file_module._resolve_config_file user_env
                (Some "~/.multirec") bare_fs).2 p').
Proof.
  apply (second_resolve_writes_nothing user_env (Some "~/.multirec") bare_fs
           (config_file_module._resolve_config_file user_env
              (Some "~/.multirec") bare_fs).2 (fallback user_env)).
  vm_compute. reflexivity.
Defined.

(** X28. In a tree, a call without an argument raises exactly when
    neither [config.yaml] in the working directory nor the default file
    exists and a file stands at [~/.multirec] or above it; and a call that
    raises, whatever its argument, has changed nothing. *)
Theorem resolve_raises_only_when_blocked
    (env : config_file_module.environment)
    (fs : config_file_module.filesystem) :
  tree fs ->
  ((exists e,
       (config_file_module._resolve_config_file env None fs).1 = inl e)
   <-> fs !! project_cfg env = None /\ fs !! fallback env = None
       /\ blocked (fallback_dir env) fs)
  /\ forall path e,
       (config_file_module._resolve_config_file env path fs).1 = inl e ->
       (config_file_module._resolve_config_file env path fs).2 = fs.
Proof.
  intros Ht. split.
  - split.
    + intros [e He].
      destruct (config_file_module._resolve_config_file env None fs)
        as [r fs'] eqn:E. simpl in He. subst r.
      apply resolve_cases in E
        as [(_ & _ & s & ? & _)|[(_ & s & c & ? & _)
           |(_ & [(_ & ? & _)|[(_ & _ & ? & _)
                  |[(Hp & Hf & e' & Hm & _)|(_ & _ & fs1 & _ & ? & _)]]])]];
        try done.
      split; [done|]. split; [done|].
      apply mkdir_err in Hm as [Hb|Hr]; [done|].
      destruct Ht as [Hroot _]. congruence.
    + intros (Hp & Hf & Hb).
      destruct (mkdir_blocked _ fs Ht Hb) as [e He]. exists e.
      unfold config_file_module._resolve_config_file.
      change ("config.yaml" :: config_file_module.cwd env)
        with (project_cfg env).
      change (".multirec" :: config_file_module.home env)
        with (fallback_dir env).
      change ("config.yaml" :: fallback_dir env) with (fallback env).
      cbv zeta.
      rewrite (proj2 (path_exists_false _ _) Hp).
      rewrite (proj2 (path_exists_false _ _) Hf). cbn [negb].
      by rewrite He.
  - intros path e He.
    destruct (config_file_module._resolve_config_file env path fs)
      as [r fs'] eqn:E. simpl in He |- *. subst r.
    apply resolve_cases in E
      as [(_ & -> & _)|[(-> & _)
         |(_ & [(_ & _ & ->)|[(_ & _ & _ & ->)
                |[(_ & _ & e' & _ & _ & ->)|(_ & _ & fs1 & _ & ? & _)]]])]];
      done.
Qed.

Lemma resolve_raises_only_when_blocked_witness :
  (config_file_module._resolve_config_file user_env None homeless_fs).2
  = homeless_fs.
Proof.
  apply (proj2 (resolve_raises_only_when_blocked user_env homeless_fs
                  homeless_fs_tree)
           None
           (config_file_module.NotADirectoryError [".multirec"; "u"; "home"])).
  vm_compute. reflexivity.
Defined.
